(** * DirectPV: device discovery, identity, matching and initialization

    A shallow embedding of the Go sources of the node agent and of the
    repair commands, and the properties proved of them.

    Part I holds the programs:
    - [Uevent]: the hotplug event decoder [parse];
    - [Matcher]: the drive matcher ([match], [getMatchingDrives],
      [runMatcher]);
    - [Device]: the device fingerprint [ID] and the label [Make];
    - [InitRequest]: the initialization handler ([initDevice],
      [initDevices], [Handle]);
    - [Ledger]: the finalizer bookkeeping of the repair commands
      ([excludeFinalizer], [dummyReleaseVolume], [setValidFinazers]);
    - [UeventPayload]: the payloads that [parse] decodes;
    - [DeviceProbe]: eligibility and probing of devices ([deniedReason],
      [ProbeDeviceMap]);
    - [Repair]: the volumes and capacities of the repair commands
      ([getVolumeSizeFromDrive], [isStaleVolume], [dummyDelete],
      [hasUnexpectedFinalizers], [fixDriveForVolume], ...);
    - [InitCommand]: the request of the init command ([toInitRequest]);
    - [UeventListener]: the device events of the listener
      ([parseUEvent]);
    - [Lister]: the listing of initialization requests ([List]).

    Part II holds their properties, one module of facts per program.

    Go values are modelled as the code has them: byte slices as lists of
    bytes, Go maps as finite maps, slices that are shared between a caller
    and a callee as references into a store of backing arrays, injected
    function fields as fields of a record, and the outside world (mounts,
    the cluster API) as an explicit state that the calls thread through. *)

From Stdlib Require Import ZArith NArith Lia Bool Strings.Ascii Strings.String Strings.Byte.
From stdpp Require Import base option list strings gmap sorting pretty.

Local Open Scope Z_scope.

(** ** Go run-time outcomes *)

Module Go.

(** The run-time panics that the modelled code can raise. *)
Inductive panic : Type :=
| IndexOutOfRange (index len : Z)
| SliceBoundsOutOfRange (low len : Z)
| NilMapAssignment
| NilPointerDereference.

(** A Go call returning [(T, error)] either yields a value, yields an
    error, or panics. *)
Inductive result (E A : Type) : Type :=
| Value (a : A)
| Error (e : E)
| Panic (p : panic).

Arguments Value {E A} a.
Arguments Error {E A} e.
Arguments Panic {E A} p.

Definition bind {E A B} (r : result E A) (k : A → result E B) : result E B :=
  match r with
  | Value a => k a
  | Error e => Error e
  | Panic p => Panic p
  end.

Definition panics {E A} (r : result E A) : Prop :=
  match r with Panic _ => True | _ => False end.

Definition returns {E A} (r : result E A) : Prop :=
  match r with Panic _ => False | _ => True end.

(** The value of an integer expression as an [int64]: the conversion
    [int64(x)] and the result of [int64] arithmetic wrap around. *)
Definition int64 (x : Z) : Z := (x + 2 ^ 63) `mod` 2 ^ 64 - 2 ^ 63.

End Go.

#[global] Instance result_bind {E} : MBind (Go.result E) :=
  fun A B k r => Go.bind r k.
#[global] Instance result_ret {E} : MRet (Go.result E) :=
  fun A a => Go.Value a.

(** * Part I: the programs *)

(** ** The hotplug event decoder (package uevent) *)

Module Uevent.
Import Go.

Definition byteZ (b : byte) : Z := Z.of_N (Byte.to_N b).

(** [bytes.HasPrefix(msg, prefix)]. *)
Fixpoint HasPrefix (msg pre : list byte) : bool :=
  match pre, msg with
  | [], _ => true
  | p :: pre', m :: msg' => if Byte.eqb p m then HasPrefix msg' pre' else false
  | _ :: _, [] => false
  end.

(** The slice expression [msg[low:]]: panics when [low > len(msg)]. *)
Definition sliceFrom {E} (msg : list byte) (low : nat) : result E (list byte) :=
  if (low <=? length msg)%nat then Value (drop low msg)
  else Panic (SliceBoundsOutOfRange (Z.of_nat low) (Z.of_nat (length msg))).

(** The index expression [msg[i]]: panics when [i >= len(msg)]. *)
Definition index {E} (msg : list byte) (i : nat) : result E byte :=
  match msg !! i with
  | Some b => Value b
  | None => Panic (IndexOutOfRange (Z.of_nat i) (Z.of_nat (length msg)))
  end.

(** [binary.BigEndian.Uint32(b)]: the bounds check [_ = b[3]] first, then
    the four bytes in network byte order. *)
Definition BigEndian_Uint32 {E} (b : list byte) : result E Z :=
  match b with
  | b0 :: b1 :: b2 :: b3 :: _ =>
      Value (Z.lor (Z.lor (Z.lor (byteZ b3) (Z.shiftl (byteZ b2) 8))
                          (Z.shiftl (byteZ b1) 16))
                   (Z.shiftl (byteZ b0) 24))
  | _ => Panic (IndexOutOfRange 3 (Z.of_nat (length b)))
  end.

(** Modelled from the spec: the variable [fieldDelimiter] is declared
    outside the files at hand; the payload is split on a NUL delimiter. *)
Definition fieldDelimiter : byte := x00.

(** [bytes.Split(s, sep)] for a one-byte separator: the fields between the
    separators, in order; an empty input gives one empty field. *)
Fixpoint Split (s : list byte) (sep : byte) : list (list byte) :=
  match s with
  | [] => [[]]
  | b :: s' =>
      if Byte.eqb b sep then [] :: Split s' sep
      else match Split s' sep with
           | f :: fs => (b :: f) :: fs
           | [] => [[b]]
           end
  end.

(** [strings.SplitN(s, "=", 2)]: the text before and after the first
    ["="], or the whole text when there is none. *)
Fixpoint SplitN_eq2 (s : string) : list string :=
  match s with
  | EmptyString => [EmptyString]
  | String c s' =>
      if Ascii.eqb c "="%char then [EmptyString; s']
      else match SplitN_eq2 s' with
           | [k] => [String c k]
           | k :: v => String c k :: v
           | [] => []
           end
  end.

(** The errors that [parse] builds, with the values that are formatted
    into their messages. *)
Inductive parseError : Type :=
| ErrSignatureNotFound
    (* "libudev signature not found" *)
| ErrMagicMismatch (expected got : Z)
    (* "libudev magic mismatch; expected: %v, got: %v" *)
| ErrOffsetNotMoreThan17 (offset : Z)
    (* "payload offset %v is not more than 17" *)
| ErrOffsetBeyondLength (offset len : Z).
    (* "payload offset %v beyond message length %v" *)

(** The body of the [for _, field := range fields] loop. *)
Definition addField (event : gmap string string) (field : list byte)
  : gmap string string :=
  if (length field =? 0)%nat then event
  else match SplitN_eq2 (string_of_list_byte field) with
       | [k] => <[k := EmptyString]> event
       | [k; v] => <[k := v]> event
       | _ => event
       end.

Section Parse.

(** The constants [libudev] (the signature) and [libudevMagic] are
    declared outside the files at hand: [parse] is modelled for any value
    of them. *)
Variable libudev : list byte.
Variable libudevMagic : Z.

Definition parse (msg : list byte) : result parseError (gmap string string) :=
  if negb (HasPrefix msg libudev) then Error ErrSignatureNotFound
  else
    rest ← sliceFrom msg 8;
    magic ← BigEndian_Uint32 rest;
    if negb (magic =? libudevMagic) then
      Error (ErrMagicMismatch libudevMagic magic)
    else
      b ← index msg 16;
      let offset := byteZ b in
      if offset <? 17 then Error (ErrOffsetNotMoreThan17 offset)
      else if offset >? Z.of_nat (length msg) then
        Error (ErrOffsetBeyondLength offset (Z.of_nat (length msg)))
      else
        payload ← sliceFrom msg (Z.to_nat offset);
        Value (foldl addField ∅ (Split payload fieldDelimiter)).

End Parse.

(** The wire values of udev's netlink monitor header, used to evaluate
    [parse] on sample buffers: the 8-byte signature ["libudev\x00"] and
    the magic [0xfeedcafe]. *)
Definition sampleSignature : list byte :=
  [x6c; x69; x62; x75; x64; x65; x76; x00].
Definition sampleMagic : Z := 0xfeedcafe.

End Uevent.

(** ** The drive matcher (package uevent) *)

Module Matcher.

Inductive matchResult : Type :=
| noMatch          (* "nomatch" *)
| tooManyMatches   (* "toomanymatches" *)
| changed          (* "changed" *)
| noChange.        (* "nochange" *)

Section Matcher.

(** The record types [directcsi.DirectCSIDrive] and [sys.Device] and the
    comparisons [validateNonHostInfo] and [validateHostInfo] are declared
    outside the files at hand; the matcher only passes them on. A drive
    stands for the pointer [*directcsi.DirectCSIDrive]. *)
Context {DirectCSIDrive Device : Type}.
Variable validateNonHostInfo : DirectCSIDrive → Device → bool.
Variable validateHostInfo : DirectCSIDrive → Device → bool.

(** [type matchFn func(drive, device) (match bool, cont bool)]. *)
Definition matchFn : Type := DirectCSIDrive → Device → bool * bool.

(** The criteria of the source: each body is a bare [return] of the named
    results [match] and [cont], which hold their zero value [false]. *)
Definition fsUUIDMatcher : matchFn := fun drive device => (false, false).
Definition ueventFSUUIDMatcher : matchFn := fun drive device => (false, false).
Definition serialNumberMatcher : matchFn := fun drive device => (false, false).
Definition ueventSerialNumberMatcher : matchFn := fun drive device => (false, false).
Definition wwidMatcher : matchFn := fun drive device => (false, false).
Definition modelNumberMatcher : matchFn := fun drive device => (false, false).
Definition vendorMatcher : matchFn := fun drive device => (false, false).
Definition partitionNumberMatcher : matchFn := fun drive device => (false, false).
Definition dmUUIDMatcher : matchFn := fun drive device => (false, false).
Definition mdUUIDMatcher : matchFn := fun drive device => (false, false).
Definition partitionUUIDMatcher : matchFn := fun drive device => (false, false).
Definition partitionTableUUIDMatcher : matchFn := fun drive device => (false, false).
Definition logicalBlocksizeMatcher : matchFn := fun drive device => (false, false).
Definition physicalBlocksizeMatcher : matchFn := fun drive device => (false, false).
Definition filesystemMatcher : matchFn := fun drive device => (false, false).
Definition totalCapacityMatcher : matchFn := fun drive device => (false, false).
Definition allocatedCapacityMatcher : matchFn := fun drive device => (false, false).
Definition mountMatcher : matchFn := fun drive device => (false, false).

Definition matchers : list matchFn :=
  [ fsUUIDMatcher; ueventFSUUIDMatcher; serialNumberMatcher;
    ueventSerialNumberMatcher; wwidMatcher; modelNumberMatcher;
    vendorMatcher; partitionNumberMatcher; dmUUIDMatcher; mdUUIDMatcher;
    partitionUUIDMatcher; partitionTableUUIDMatcher;
    logicalBlocksizeMatcher; physicalBlocksizeMatcher; filesystemMatcher;
    totalCapacityMatcher; allocatedCapacityMatcher; mountMatcher ].

(** The loop of [match] over the drives still to visit, with the
    accumulator [matchedDrives]. *)
Fixpoint matchLoop (fn : matchFn) (device : Device)
    (drives matchedDrives : list DirectCSIDrive)
  : list DirectCSIDrive * bool :=
  match drives with
  | [] => (matchedDrives, true)
  | drive :: rest =>
      let '(isMatch, cont) := fn drive device in
      if isMatch then
        if negb cont then ([drive], false)
        else matchLoop fn device rest (matchedDrives ++ [drive])
      else matchLoop fn device rest matchedDrives
  end.

(** [match(drives, device, matchFn)]; [matchedDrives] starts as the nil
    slice. *)
Definition match_ (drives : list DirectCSIDrive) (device : Device)
    (fn : matchFn) : list DirectCSIDrive * bool :=
  matchLoop fn device drives [].

(** The loop of [getMatchingDrives] over a chain of criteria. *)
Fixpoint narrow (chain : list matchFn) (matchedDrives : list DirectCSIDrive)
    (device : Device) : list DirectCSIDrive :=
  match chain with
  | [] => matchedDrives
  | fn :: chain' =>
      let '(matched, cont) := match_ matchedDrives device fn in
      if negb cont then matched else narrow chain' matched device
  end.

Definition getMatchingDrives (drives : list DirectCSIDrive) (device : Device)
  : list DirectCSIDrive :=
  narrow matchers drives device.

Definition runMatcher (drives : list DirectCSIDrive) (device : Device)
  : option DirectCSIDrive * matchResult :=
  match getMatchingDrives drives device with
  | [drive] =>
      if validateNonHostInfo drive device && validateHostInfo drive device
      then (Some drive, noChange)
      else (Some drive, changed)
  | [] => (None, noMatch)
  | _ => (None, tooManyMatches)
  end.

End Matcher.

End Matcher.

(** ** Device identity (package device) *)

Module Device.

(** *** The order of [sort.Strings] *)

(** Go compares strings byte by byte, as [String.leb] does;
    [sort.Strings] sorts in increasing order. *)
Abbreviation string_le := String.le.

(** The result of [sort.Strings]: the increasing arrangement of the
    elements. The order is total and antisymmetric, so this arrangement is
    the same for every sorting algorithm. *)
Definition sorted (l : list string) : list string := merge_sort string_le l.

(** *** Slices and their backing arrays *)

(** A [[]string] value is a reference to a backing array; copying a
    [Device] copies the reference, not the array. The store maps each
    array to its elements. A slice spans its whole array. *)
Definition loc : Type := nat.

Inductive slice : Type :=
| nilSlice
| Slice (p : loc).

#[global] Instance slice_eq_dec : EqDecision slice.
Proof. solve_decision. Defined.

Abbreviation store := (gmap loc (list string)).

(** The elements seen through a slice. *)
Definition elems (h : store) (s : slice) : list string :=
  match s with
  | nilSlice => []
  | Slice p => default [] (h !! p)
  end.

(** [sort.Strings(s)]: rearranges the backing array in place. *)
Definition sort_Strings (s : slice) (h : store) : store :=
  match s with
  | nilSlice => h
  | Slice p =>
      match h !! p with
      | Some l => <[p := sorted l]> h
      | None => h
      end
  end.

(** [strings.Join(elems, sep)]. *)
Definition Join (l : list string) (sep : string) : string :=
  String.concat sep l.

(** [fmt.Sprintf("%v", b)] for a [bool]. *)
Definition Sprintf_bool (b : bool) : string :=
  if b then "true"%string else "false"%string.

(** [fmt.Sprintf("%v", n)] for a [uint64]: the decimal digits. *)
Definition Sprintf_uint64 (n : N) : string := pretty n.

(** Modelled from the spec: the helper [toSlice] is declared outside the
    files at hand; it renders the pairs of a map as key, separator, value,
    in sorted key order. *)
Definition toSlice (m : gmap string string) (separators : string)
  : list string :=
  (fun key => key +:+ separators +:+ default ""%string (m !! key))
    <$> sorted (elements (dom m)).

Record Device : Type := mkDevice {
  Name : string;
  MajorMinor : string;
  Size : N;                       (* uint64 *)
  Hidden : bool;
  Removable : bool;
  ReadOnly : bool;
  Partitioned : bool;
  Holders : slice;
  MountPoints : slice;
  SwapOn : bool;
  CDROM : bool;
  DMName : string;
  udevData : gmap string string;
}.

Section Identity.

(** [sha256.Sum256] and [base64.StdEncoding.EncodeToString] belong to the
    Go library: the fingerprint is modelled for any digest and any
    encoding. *)
Variable Sum256 : list byte → list byte.
Variable EncodeToString : list byte → string.

(** The map literal [deviceMap] of [ID], given the holders and mount
    points as they are read after the two sorts. *)
Definition deviceMap (d : Device) (nodeID : string)
    (holders mountPoints : list string) : gmap string string :=
  list_to_map
    [ ("node", nodeID);
      ("name", Name d);
      ("majorminor", MajorMinor d);
      ("size", Sprintf_uint64 (Size d));
      ("hidden", Sprintf_bool (Hidden d));
      ("removable", Sprintf_bool (Removable d));
      ("readonly", Sprintf_bool (ReadOnly d));
      ("partitioned", Sprintf_bool (Partitioned d));
      ("holders", Join holders ",");
      ("mountpoints", Join mountPoints ",");
      ("swapon", Sprintf_bool (SwapOn d));
      ("cdrom", Sprintf_bool (CDROM d));
      ("dmname", DMName d);
      ("udevdata", Join (toSlice (udevData d) "=") ";") ]%string.

(** The text that is hashed. *)
Definition stringToHash (d : Device) (nodeID : string)
    (holders mountPoints : list string) : string :=
  Join (toSlice (deviceMap d nodeID holders mountPoints) ":") (String "010" "").

(** [func (d Device) ID(nodeID) string]. The receiver is a copy of the
    caller's [Device], but its slices refer to the caller's arrays: the
    two sorts act on the store, which is returned with the fingerprint. *)
Definition ID (d : Device) (nodeID : string) (h : store) : string * store :=
  let h1 := sort_Strings (Holders d) h in
  let h2 := sort_Strings (MountPoints d) h1 in
  let text :=
    stringToHash d nodeID (elems h2 (Holders d)) (elems h2 (MountPoints d)) in
  let digest := Sum256 (list_byte_of_string text) in
  (MajorMinor d +:+ "$" +:+ EncodeToString digest, h2).

(** The text that [ID] hashes for the snapshot [d] in the store [h], and
    the encoded digest of a text. *)
Definition hashedText (d : Device) (nodeID : string) (h : store) : string :=
  stringToHash d nodeID (sorted (elems h (Holders d)))
    (sorted (elems h (MountPoints d))).

Definition encodedDigest (text : string) : string :=
  EncodeToString (Sum256 (list_byte_of_string text)).

End Identity.

(** Snapshots that differ from [d] in one attribute. *)
Definition withSize (d : Device) (size : N) : Device :=
  mkDevice (Name d) (MajorMinor d) size (Hidden d) (Removable d)
    (ReadOnly d) (Partitioned d) (Holders d) (MountPoints d) (SwapOn d)
    (CDROM d) (DMName d) (udevData d).

Definition withLists (d : Device) (holders mountPoints : slice) : Device :=
  mkDevice (Name d) (MajorMinor d) (Size d) (Hidden d) (Removable d)
    (ReadOnly d) (Partitioned d) holders mountPoints (SwapOn d)
    (CDROM d) (DMName d) (udevData d).

Definition withUdevData (d : Device) (data : gmap string string) : Device :=
  mkDevice (Name d) (MajorMinor d) (Size d) (Hidden d) (Removable d)
    (ReadOnly d) (Partitioned d) (Holders d) (MountPoints d) (SwapOn d)
    (CDROM d) (DMName d) data.

Inductive flag : Type :=
| flagHidden | flagRemovable | flagReadOnly | flagPartitioned
| flagSwapOn | flagCDROM.

Definition flagOf (f : flag) (d : Device) : bool :=
  match f with
  | flagHidden => Hidden d
  | flagRemovable => Removable d
  | flagReadOnly => ReadOnly d
  | flagPartitioned => Partitioned d
  | flagSwapOn => SwapOn d
  | flagCDROM => CDROM d
  end.

Definition withFlag (f : flag) (b : bool) (d : Device) : Device :=
  match f with
  | flagHidden =>
      mkDevice (Name d) (MajorMinor d) (Size d) b (Removable d)
        (ReadOnly d) (Partitioned d) (Holders d) (MountPoints d) (SwapOn d)
        (CDROM d) (DMName d) (udevData d)
  | flagRemovable =>
      mkDevice (Name d) (MajorMinor d) (Size d) (Hidden d) b
        (ReadOnly d) (Partitioned d) (Holders d) (MountPoints d) (SwapOn d)
        (CDROM d) (DMName d) (udevData d)
  | flagReadOnly =>
      mkDevice (Name d) (MajorMinor d) (Size d) (Hidden d) (Removable d)
        b (Partitioned d) (Holders d) (MountPoints d) (SwapOn d)
        (CDROM d) (DMName d) (udevData d)
  | flagPartitioned =>
      mkDevice (Name d) (MajorMinor d) (Size d) (Hidden d) (Removable d)
        (ReadOnly d) b (Holders d) (MountPoints d) (SwapOn d)
        (CDROM d) (DMName d) (udevData d)
  | flagSwapOn =>
      mkDevice (Name d) (MajorMinor d) (Size d) (Hidden d) (Removable d)
        (ReadOnly d) (Partitioned d) (Holders d) (MountPoints d) b
        (CDROM d) (DMName d) (udevData d)
  | flagCDROM =>
      mkDevice (Name d) (MajorMinor d) (Size d) (Hidden d) (Removable d)
        (ReadOnly d) (Partitioned d) (Holders d) (MountPoints d) (SwapOn d)
        b (DMName d) (udevData d)
  end.

(** [func (d Device) Make() string]: reads [DMName] and [udevData] only,
    and has no access to the arrays of the slices. *)
Definition Make (d : Device) : string :=
  let tokens := [] in
  let tokens :=
    if negb (String.eqb (DMName d) "") then tokens ++ [DMName d] else tokens in
  let vendor := default ""%string (udevData d !! "E:ID_VENDOR"%string) in
  let tokens :=
    if negb (String.eqb vendor "") then tokens ++ [vendor] else tokens in
  let model := default ""%string (udevData d !! "E:ID_MODEL"%string) in
  let tokens :=
    if negb (String.eqb model "") then tokens ++ [model] else tokens in
  let tokens :=
    match udevData d !! "E:ID_PART_ENTRY_NUMBER"%string with
    | Some number => tokens ++ ["(Part " +:+ number +:+ ")"]%string
    | None => tokens
    end in
  Join tokens " ".

(** Two stores that hold the same elements in each array, up to order. *)
Definition store_perm (h1 h2 : store) : Prop :=
  ∀ sl, elems h2 sl ≡ₚ elems h1 sl.

End Device.

(** ** The initialization handler (package initrequest) *)

Module InitRequest.
Import Go.

(** *** Errors *)

(** The reason that [apierrors.IsNotFound] and [apierrors.IsConflict]
    look for in an error and in the errors that it wraps. *)
Inductive StatusReason : Type :=
| StatusReasonUnknown
| StatusReasonNotFound
| StatusReasonConflict.

(** A Go [error] value: its message ([err.Error()]) and its reason. *)
Record error : Type := mkError {
  message : string;
  reason : StatusReason;
}.

(** [fmt.Errorf] with a format that has no [%w] verb. *)
Definition Errorf (msg : string) : error := mkError msg StatusReasonUnknown.

(** [fmt.Errorf(prefix + "%w", err)]: wraps [err]. *)
Definition Errorf_w (prefix : string) (err : error) : error :=
  mkError (prefix +:+ message err) (reason err).

(** [fmt.Errorf("%w; %v", err, uerr)]: wraps [err], prints [uerr]. *)
Definition Errorf_w_v (err uerr : error) : error :=
  mkError (message err +:+ "; " +:+ message uerr) (reason err).

Definition IsNotFound (err : error) : bool :=
  match reason err with StatusReasonNotFound => true | _ => false end.

Definition IsConflict (err : error) : bool :=
  match reason err with StatusReasonConflict => true | _ => false end.

(** *** Cluster records *)

Inductive DriveStatusValue : Type :=
| DriveStatusAvailable | DriveStatusReady | DriveStatusInUse
| DriveStatusUnavailable | DriveStatusTerminating.

Inductive AccessTier : Type := AccessTierDefault.

(** The constructor [types.NewDrive] is declared outside the files at
    hand: a drive is the record of the arguments that [initDevice] passes
    to it. *)
Record Drive : Type := NewDrive {
  Drive_ID : string;
  Drive_TotalCapacity : Z;            (* int64 *)
  Drive_FreeCapacity : Z;             (* int64 *)
  Drive_FSUUID : string;
  Drive_Status : DriveStatusValue;
  Drive_Make : string;
  Drive_Topology : gmap string string;
  Drive_NodeID : string;
  Drive_Name : string;
  Drive_AccessTier : AccessTier;
}.

(** [types.InitDevice]. *)
Record InitDevice : Type := mkInitDevice {
  InitDevice_Name : string;
  InitDevice_MajorMinor : string;
  InitDevice_ID : string;
  InitDevice_Force : bool;
}.

(** [types.InitDeviceResult]. *)
Record InitDeviceResult : Type := mkInitDeviceResult {
  InitDeviceResult_Name : string;
  InitDeviceResult_Error : string;
}.

(** [types.InitResult]. *)
Record InitResult : Type := mkInitResult {
  InitResult_Completed : bool;
  InitResult_Devices : list InitDeviceResult;
  InitResult_Error : string;
}.

(** [types.InitRequest]: the response map may be the nil map ([None]). *)
Record InitRequestT : Type := mkInitRequest {
  InitRequest_Name : string;
  Spec_Response : option (gmap string InitResult);
  Status_Request : gmap string (list InitDevice);
}.

Inductive EventType : Type := AddEvent | UpdateEvent | DeleteEvent | SyncEvent.

(** [listener.EventArgs], with the object already seen as an
    [*types.InitRequest]. *)
Record EventArgs : Type := mkEventArgs {
  Event : EventType;
  Object : InitRequestT;
}.

(** *** Calls to the outside world *)

(** The calls that leave the handler, in the order they are made. The
    events of the pipeline that [initDevices] starts for slot [i] are
    grouped under [Goroutine i]. *)
#[warnings="-register-all"]
Inductive event : Type :=
| CallGetDevices (majorMinor : list string)
| CallGetMounts
| CallUUIDNew
| CallMakeFS (device fsuuid : string) (force reflink : bool)
| CallMount (device fsuuid : string)
| CallUnmount (fsuuid : string)
| CallSymlink (fsuuid : string)
| CallMakeMetaDir (fsuuid : string)
| CallWriteFile (fsuuid data : string)
| CallDriveCreate (drive : Drive)
| CallInitRequestGet (name : string)
| CallInitRequestUpdate (initRequest : InitRequestT)
| Goroutine (i : nat) (events : list event).

Section Handler.

(** The state of the host and of the cluster. *)
Variable W : Type.

(** Library and package functions that are declared outside the files at
    hand. *)
Variable Sum256 : list byte → list byte.
Variable EncodeToString : list byte → string.
Variable AddDevPrefix : string → string.
Variable uuid_New : W → string * W.
Variable DriveClient_Create : Drive → W → option error * W.
Variable InitRequestClient_Get : string → W → (error + InitRequestT) * W.
Variable InitRequestClient_Update : InitRequestT → W → option error * W.

(** A [utils.StringSet] is represented by the slice that its [ToSlice]
    method returns. *)
Definition StringSet : Type := list string.

(** [type initRequestEventHandler struct]: the fields that the modelled
    methods read. The mutex serialises the calls of [Handle]; it has no
    part in a single call. *)
Record initRequestEventHandler : Type := mkHandler {
  nodeID : string;
  reflink : bool;
  topology : gmap string string;
  getDevices :
    list string → W → Device.store →
    (error + list Device.Device) * W * Device.store;
  getMounts :
    W → (error + gmap string StringSet * gmap string StringSet) * W;
  makeFS :
    string → string → bool → bool → W →
    (string * string * Z * Z * option error) * W;
  mount : string → string → W → option error * W;
  unmount : string → W → option error * W;
  symlink : string → W → option error * W;
  makeMetaDir : string → W → option error * W;
  writeFile : string → string → W → option error * W;
}.

(** The state that a call threads through: the outside world and the
    backing arrays of the device slices. *)
Record state : Type := mkState {
  world : W;
  arrays : Device.store;
}.

(** A computation returns a value, the next state and the calls it made. *)
Definition prog (A : Type) : Type := state → A * state * list event.

Definition ret {A} (a : A) : prog A := fun s => (a, s, []).

Definition bind {A B} (m : prog A) (k : A → prog B) : prog B :=
  fun s =>
    let '(a, s1, t1) := m s in
    let '(b, s2, t2) := k a s1 in
    (b, s2, t1 ++ t2).

#[local] Instance prog_bind : MBind prog := fun A B k m => bind m k.
#[local] Instance prog_ret : MRet prog := fun A a => ret a.

(** A call that acts on the outside world only. *)
Definition call {A} (ev : event) (op : W → A * W) : prog A :=
  fun s =>
    let '(a, w) := op (world s) in
    (a, mkState w (arrays s), [ev]).

(** [handler.getDevices(majorMinor...)]: also allocates the arrays of the
    devices it returns. *)
Definition callGetDevices (handler : initRequestEventHandler)
    (majorMinor : list string) : prog (error + list Device.Device) :=
  fun s =>
    let '(r, w, h) := getDevices handler majorMinor (world s) (arrays s) in
    (r, mkState w h, [CallGetDevices majorMinor]).

(** [device.ID(nodeID)]: sorts the device's lists in the store. *)
Definition deviceID (device : Device.Device) (node : string) : prog string :=
  fun s =>
    let '(id, h) := Device.ID Sum256 EncodeToString device node (arrays s) in
    (id, mkState (world s) h, []).

(** [go func() { ... }()] for slot [i], run to its end at the place where
    it is started: the pipelines write to their own result slot only, so
    this is one of the schedules of the source. *)
Definition goroutine {A} (i : nat) (m : prog A) : prog A :=
  fun s => let '(a, s', t) := m s in (a, s', [Goroutine i t]).

(** *** [initDevice] *)

(** [fmt.Sprintf("%v", mountPoints)] for a [[]string]. *)
Definition Sprintf_strings (l : list string) : string :=
  "[" +:+ Device.Join l " " +:+ "]".

Definition AppName : string := "directpv".
Definition LatestAPIVersion : string := "v1beta1".

(** The text of the metadata file. *)
Definition metaFileData (fsuuid : string) : string :=
  "APP_NAME=" +:+ AppName +:+ String "010" "" +:+
  "APP_VERSION=" +:+ LatestAPIVersion +:+ String "010" "" +:+
  "FSUUID=" +:+ fsuuid +:+ String "010" "".

(** The drive that [initDevice] submits. *)
Definition driveOf (handler : initRequestEventHandler)
    (device : Device.Device) (fsuuid : string)
    (totalCapacity freeCapacity : Z) : Drive :=
  NewDrive fsuuid (int64 totalCapacity) (int64 freeCapacity) fsuuid
    DriveStatusReady (Device.Make device) (topology handler)
    (nodeID handler) (Device.Name device) AccessTierDefault.

(** The statements of [initDevice] after the [defer] statement. The
    first component is the value of the [return] statement that ends the
    run, the second is the value that the local variable [err] holds at
    that point. *)
Definition initDevice_stages (handler : initRequestEventHandler)
    (device : Device.Device) (fsuuid : string)
    (totalCapacity freeCapacity : Z) : prog (option error * option error) :=
  err ← call (CallSymlink fsuuid) (symlink handler fsuuid);
  match err with
  | Some e => mret (Some e, Some e)
  | None =>
  err ← call (CallMakeMetaDir fsuuid) (makeMetaDir handler fsuuid);
  match err with
  | Some e => mret (Some e, Some e)
  | None =>
  let data := metaFileData fsuuid in
  err ← call (CallWriteFile fsuuid data) (writeFile handler fsuuid data);
  match err with
  | Some e => mret (Some e, Some e)
  | None =>
  let drive := driveOf handler device fsuuid totalCapacity freeCapacity in
  err ← call (CallDriveCreate drive) (DriveClient_Create drive);
  match err with
  | Some e => mret (Some (Errorf_w "unable to create Drive CRD; " e), Some e)
  | None => mret (None, None)
  end end end end.

(** The deferred function: it reads the local variable [err] and, when
    the unmount fails, assigns the joined error to it. The result is the
    value of [err] afterwards. *)
Definition initDevice_deferred (handler : initRequestEventHandler)
    (fsuuid : string) (err : option error) : prog (option error) :=
  match err with
  | None => mret None
  | Some e =>
      uerr ← call (CallUnmount fsuuid) (unmount handler fsuuid);
      match uerr with
      | Some ue => mret (Some (Errorf_w_v e ue))
      | None => mret (Some e)
      end
  end.

(** The mount points that [initDevice] collects for a major:minor from
    the two maps of [getMounts]. *)
Definition mountPointsOf (deviceMap majorMinorMap : gmap string StringSet)
    (majorMinor : string) : list string :=
  match majorMinorMap !! majorMinor with
  | Some devices =>
      foldl (fun mountPoints name =>
               mountPoints ++ default [] (deviceMap !! name)) [] devices
  | None => []
  end.

(** [func (handler) initDevice(device, force, reflink) error]. The result
    of the function has no name: a [return] statement stores its value as
    the result before the deferred function runs, and the deferred
    function assigns to the local variable [err], not to the result. *)
Definition initDevice (handler : initRequestEventHandler)
    (device : Device.Device) (force reflink : bool) : prog (option error) :=
  let devPath := AddDevPrefix (Device.Name device) in
  mounts ← call CallGetMounts (getMounts handler);
  match mounts with
  | inl err => mret (Some err)
  | inr (deviceMap, majorMinorMap) =>
  let mountPoints :=
    mountPointsOf deviceMap majorMinorMap (Device.MajorMinor device) in
  if negb (length mountPoints =? 0)%nat then
    mret (Some (Errorf ("device " +:+ devPath +:+ " mounted at "
                          +:+ Sprintf_strings mountPoints)))
  else
  fsuuid ← call CallUUIDNew uuid_New;
  '(_, _, totalCapacity, freeCapacity, err) ←
    call (CallMakeFS devPath fsuuid force reflink)
         (makeFS handler devPath fsuuid force reflink);
  match err with
  | Some e => mret (Some e)
  | None =>
  err ← call (CallMount devPath fsuuid) (mount handler devPath fsuuid);
  match err with
  | Some e => mret (Some e)
  | None =>
  '(result, err) ←
    initDevice_stages handler device fsuuid totalCapacity freeCapacity;
  _ ← initDevice_deferred handler fsuuid err;
  mret result
  end end end.

(** *** [initDevices] *)

Definition setName (name : string) (r : InitDeviceResult) : InitDeviceResult :=
  mkInitDeviceResult name (InitDeviceResult_Error r).

Definition setError (err : string) (r : InitDeviceResult) : InitDeviceResult :=
  mkInitDeviceResult (InitDeviceResult_Name r) err.

(** The second loop of [initDevices], at index [i], with the requests
    from [i] on still to visit. *)
Fixpoint initDevicesLoop (handler : initRequestEventHandler)
    (probedDevices : gmap string Device.Device) (i : nat)
    (rest : list InitDevice) (results : list InitDeviceResult)
  : prog (list InitDeviceResult) :=
  match rest with
  | [] => mret results
  | req :: rest' =>
      let results := alter (setName (InitDevice_Name req)) i results in
      match probedDevices !! InitDevice_MajorMinor req with
      | None =>
          initDevicesLoop handler probedDevices (S i) rest'
            (alter (setError "device not found") i results)
      | Some device =>
          id ← deviceID device (nodeID handler);
          if negb (String.eqb id (InitDevice_ID req)) then
            initDevicesLoop handler probedDevices (S i) rest'
              (alter (setError "device state changed") i results)
          else
            err ← goroutine i
                    (initDevice handler device (InitDevice_Force req)
                       (reflink handler));
            initDevicesLoop handler probedDevices (S i) rest'
              match err with
              | Some e => alter (setError (message e)) i results
              | None => results
              end
      end
  end.

(** The map [probedDevices]: a later device with the same major:minor
    replaces an earlier one. *)
Definition probedDevicesOf (devices : list Device.Device)
  : gmap string Device.Device :=
  foldl (fun m device => <[Device.MajorMinor device := device]> m) ∅ devices.

(** [func (handler) initDevices(initDevices) (results, err)]. *)
Definition initDevices (handler : initRequestEventHandler)
    (initDevices : list InitDevice) : prog (error + list InitDeviceResult) :=
  let majorMinorList := InitDevice_MajorMinor <$> initDevices in
  devices ← callGetDevices handler majorMinorList;
  match devices with
  | inl err => mret (inl err)
  | inr devices =>
      let probedDevices := probedDevicesOf devices in
      let results :=
        replicate (length initDevices) (mkInitDeviceResult "" "") in
      results ← initDevicesLoop handler probedDevices 0 initDevices results;
      mret (inr results)
  end.

(** *** [Handle] *)

(** [retry.RetryOnConflict(retry.DefaultRetry, fn)] of client-go: [fn] is
    run until it succeeds, fails with an error that is not a conflict, or
    has been run [Steps] times; then the last conflict is returned. *)
Definition DefaultRetry_Steps : nat := 5.

Fixpoint RetryOnConflict (steps : nat) (fn : prog (result error unit))
    (lastErr : option error) : prog (result error unit) :=
  match steps with
  | O => mret (match lastErr with Some e => Error e | None => Value tt end)
  | S steps' =>
      r ← fn;
      match r with
      | Value _ => mret (Value tt)
      | Error e =>
          if IsConflict e then RetryOnConflict steps' fn (Some e)
          else mret (Error e)
      | Panic p => mret (Panic p)
      end
  end.

(** The function literal that [Handle] passes to [RetryOnConflict]. *)
Definition Handle_update (handler : initRequestEventHandler)
    (name : string) (initResult : InitResult) : prog (result error unit) :=
  r ← call (CallInitRequestGet name) (InitRequestClient_Get name);
  match r with
  | inl err => mret (if IsNotFound err then Value tt else Error err)
  | inr initRequest =>
      match Spec_Response initRequest with
      | None => mret (Panic NilMapAssignment)
      | Some response =>
          let initRequest :=
            mkInitRequest (InitRequest_Name initRequest)
              (Some (<[nodeID handler := initResult]> response))
              (Status_Request initRequest) in
          err ← call (CallInitRequestUpdate initRequest)
                     (InitRequestClient_Update initRequest);
          mret (match err with Some e => Error e | None => Value tt end)
      end
  end.

(** [func (handler) Handle(ctx, args) error]: [Value tt] stands for the
    [nil] error. *)
Definition Handle (handler : initRequestEventHandler) (args : EventArgs)
  : prog (result error unit) :=
  match Event args with
  | AddEvent | UpdateEvent | SyncEvent =>
      let initRequest := Object args in
      match Spec_Response initRequest ≫= (.!! nodeID handler) with
      | Some _ => mret (Value tt)       (* Already updated response. *)
      | None =>
          match Status_Request initRequest !! nodeID handler with
          | None => mret (Value tt)     (* No request for this node. *)
          | Some devices =>
              r ← initDevices handler devices;
              let initResult :=
                match r with
                | inr results => mkInitResult true results ""
                | inl err => mkInitResult true [] (message err)
                end in
              RetryOnConflict DefaultRetry_Steps
                (Handle_update handler (InitRequest_Name initRequest)
                   initResult)
                None
          end
      end
  | DeleteEvent => mret (Value tt)
  end.

(** What [initDevices] decides for the request [req] in slot [i] once the
    device [found] for it in the re-probe is known, with the fingerprints
    [idOf] of the re-probe: the content of the slot in [results] and the
    pipelines among the calls [t]. *)
Definition slotOutcome (handler : initRequestEventHandler)
    (idOf : Device.Device → string)
    (results : list InitDeviceResult) (t : list event)
    (i : nat) (req : InitDevice) (found : option Device.Device) : Prop :=
  match found with
  | None =>
      results !! i
        = Some (mkInitDeviceResult (InitDevice_Name req) "device not found") ∧
      ∀ evs, Goroutine i evs ∉ t
  | Some device =>
      if String.eqb (idOf device) (InitDevice_ID req) then
        ∃ si err si' evs,
          initDevice handler device (InitDevice_Force req) (reflink handler) si
            = (err, si', evs) ∧
          Goroutine i evs ∈ t ∧
          (∀ evs', Goroutine i evs' ∈ t → evs' = evs) ∧
          results !! i
            = Some (mkInitDeviceResult (InitDevice_Name req)
                      match err with Some e => message e | None => "" end)
      else
        results !! i
          = Some (mkInitDeviceResult (InitDevice_Name req)
                    "device state changed") ∧
        ∀ evs, Goroutine i evs ∉ t
  end.

(** What [initDevices] decides for the request [req] in slot [i], given
    the list [devices] that the re-probe returned: a request whose
    major:minor no device of the list has finds no device, and any other
    request finds the last device of the list that has its major:minor. *)
Definition slotDecided (handler : initRequestEventHandler)
    (devices : list Device.Device) (idOf : Device.Device → string)
    (results : list InitDeviceResult) (t : list event)
    (i : nat) (req : InitDevice) : Prop :=
  ((∀ device, device ∈ devices →
      Device.MajorMinor device ≠ InitDevice_MajorMinor req) →
   slotOutcome handler idOf results t i req None) ∧
  (∀ before device after,
     devices = before ++ device :: after →
     Device.MajorMinor device = InitDevice_MajorMinor req →
     (∀ later, later ∈ after →
        Device.MajorMinor later ≠ InitDevice_MajorMinor req) →
     slotOutcome handler idOf results t i req (Some device)).

End Handler.

Arguments nodeID {W} _.
Arguments reflink {W} _.
Arguments topology {W} _.
Arguments getDevices {W} _.
Arguments getMounts {W} _.
Arguments makeFS {W} _.
Arguments mount {W} _.
Arguments unmount {W} _.
Arguments symlink {W} _.
Arguments makeMetaDir {W} _.
Arguments writeFile {W} _.
Arguments mkState {W} _ _.
Arguments world {W} _.
Arguments arrays {W} _.
Arguments ret {W A} _.
Arguments bind {W A B} _ _.
Arguments call {W A} _ _.
Arguments callGetDevices {W} _ _.
Arguments deviceID {W} _ _ _ _.
Arguments goroutine {W A} _ _.
Arguments driveOf {W} _ _ _ _ _.
Arguments initDevice_stages {W} _ _ _ _ _ _.
Arguments initDevice_deferred {W} _ _ _.
Arguments initDevice {W} _ _ _ _ _ _ _.
Arguments initDevicesLoop {W} _ _ _ _ _ _ _ _ _ _.
Arguments initDevices {W} _ _ _ _ _ _ _.
Arguments RetryOnConflict {W} _ _ _.
Arguments Handle_update {W} _ _ _ _ _.
Arguments Handle {W} _ _ _ _ _ _ _ _ _.
Arguments slotOutcome {W} _ _ _ _ _ _ _ _ _ _.
Arguments slotDecided {W} _ _ _ _ _ _ _ _ _ _.

(** *** A sample host *)

(** A small world to run the handler in: the state is the list of the
    mounted filesystems; formatting and labeling succeed or fail as the
    handler is told. *)
Definition sampleWorld : Type := list string.

Definition sampleUUID : sampleWorld → string * sampleWorld :=
  fun w => ("6f1a"%string, w).

Definition sampleCreate (failure : option error)
  : Drive → sampleWorld → option error * sampleWorld :=
  fun drive w => (failure, w).

Definition sampleDevice : Device.Device :=
  Device.mkDevice "sdb" "8:16" 1073741824 false false false false
    (Device.Slice 0%nat) Device.nilSlice false false "" ∅.

Definition sampleArrays : Device.store := {[ 0%nat := [] ]}.

Definition sampleHandler (symlinkFailure unmountFailure : option error)
  : initRequestEventHandler sampleWorld :=
  mkHandler sampleWorld "node-1" false ∅
    (fun majorMinor w h =>
       (inr (if bool_decide ("8:16"%string ∈ majorMinor)
             then [sampleDevice] else []), w, h))
    (fun w => (inr (∅, ∅), w))
    (fun device fsuuid force reflink w =>
       ((fsuuid, "DIRECTPV"%string, 1073741824, 1063741824, None), w))
    (fun device fsuuid w => (None, fsuuid :: w))
    (fun fsuuid w =>
       match unmountFailure with
       | Some e => (Some e, w)
       | None => (None, filter (fun m => m ≠ fsuuid) w)
       end)
    (fun fsuuid w => (symlinkFailure, w))
    (fun fsuuid w => (None, w))
    (fun fsuuid data w => (None, w)).

Definition sampleAddDevPrefix (name : string) : string := "/dev/" +:+ name.

Definition sampleState : state sampleWorld := mkState [] sampleArrays.

(** A sample digest and encoding to evaluate fingerprints with. *)
Definition sampleSum256 (b : list byte) : list byte := b.
Definition sampleEncode : list byte → string := string_of_list_byte.

Definition sampleRequests : list InitDevice :=
  [ mkInitDevice "sdb" "8:16" "8:16$stale" false;
    mkInitDevice "sdx" "9:99" "9:99$any" false;
    mkInitDevice "sdb" "8:16"
      (Device.ID sampleSum256 sampleEncode sampleDevice "node-1"
         sampleArrays).1 true ].

End InitRequest.

(** ** The finalizer ledger of the repair commands (package main) *)

Module Ledger.
Import Go.

Inductive DriveStatusValue : Type :=
| DriveStatusInUse | DriveStatusAvailable | DriveStatusUnavailable
| DriveStatusReady | DriveStatusTerminating | DriveStatusReleased.

(** The fields of [directcsi.DirectCSIDrive] that the two functions read
    or write. *)
Record DirectCSIDrive : Type := mkDrive {
  Name : string;
  Finalizers : list string;
  DriveStatus : DriveStatusValue;
  TotalCapacity : Z;        (* int64 *)
  FreeCapacity : Z;         (* int64 *)
  AllocatedCapacity : Z;    (* int64 *)
}.

Definition SetFinalizers (drive : DirectCSIDrive) (finalizers : list string)
  : DirectCSIDrive :=
  mkDrive (Name drive) finalizers (DriveStatus drive) (TotalCapacity drive)
    (FreeCapacity drive) (AllocatedCapacity drive).

Definition setDriveStatus (drive : DirectCSIDrive) (status : DriveStatusValue)
  : DirectCSIDrive :=
  mkDrive (Name drive) (Finalizers drive) status (TotalCapacity drive)
    (FreeCapacity drive) (AllocatedCapacity drive).

Definition setCapacities (drive : DirectCSIDrive) (free allocated : Z)
  : DirectCSIDrive :=
  mkDrive (Name drive) (Finalizers drive) (DriveStatus drive)
    (TotalCapacity drive) free allocated.

(** The calls to the drive client. *)
Inductive event : Type :=
| CallDriveGet (driveName : string)
| CallDriveUpdate (drive : DirectCSIDrive).

(** [func excludeFinalizer(finalizers, finalizer) (result, found)]: the
    loop with its two named results as accumulators. *)
Definition excludeFinalizer (finalizers : list string) (finalizer : string)
  : list string * bool :=
  foldl (fun '(result, found) f =>
           if negb (String.eqb f finalizer) then (result ++ [f], found)
           else (result, true))
        ([], false) finalizers.

Section Ledger.

(** The group name: [consts.GroupName]; the constants of package
    [directcsi] are built from its group name in the same way. *)
Variable GroupName : string.

Definition DirectCSIDriveFinalizerDataProtection : string :=
  GroupName +:+ "/data-protection".

Definition DirectCSIDriveFinalizerPrefix : string :=
  GroupName +:+ ".volume/".

(** The cluster and the drive client. *)
Variable W : Type.
Variable error : Type.
Variable DriveInterface_Get : string → W → (error + DirectCSIDrive) * W.
Variable DriveInterface_Update : DirectCSIDrive → W → option error * W.

(** The status step shared by both functions:
    [if len(finalizers) == 1 { if finalizers[0] == ...DataProtection {
       drive.Status.DriveStatus = directcsi.DriveStatusReady } }]. *)
Definition readyIfOnlyProtected (finalizers : list string)
    (drive : DirectCSIDrive) : DirectCSIDrive :=
  if (length finalizers =? 1)%nat then
    match finalizers !! 0%nat with
    | Some f =>
        if String.eqb f DirectCSIDriveFinalizerDataProtection
        then setDriveStatus drive DriveStatusReady
        else drive
    | None => drive
    end
  else drive.

(** [func dummyReleaseVolume(ctx, driveName, volumeName, capacity) error]:
    the error returned, the cluster afterwards, and the calls made. *)
Definition dummyReleaseVolume (driveName volumeName : string) (capacity : Z)
    (w : W) : option error * W * list event :=
  let '(r, w1) := DriveInterface_Get driveName w in
  match r with
  | inl err => (Some err, w1, [CallDriveGet driveName])
  | inr drive =>
      let '(finalizers, found) :=
        excludeFinalizer (Finalizers drive)
          (DirectCSIDriveFinalizerPrefix +:+ volumeName) in
      if found then
        let drive := readyIfOnlyProtected finalizers drive in
        let drive := SetFinalizers drive finalizers in
        let free := int64 (FreeCapacity drive + capacity) in
        let drive :=
          setCapacities drive free (int64 (TotalCapacity drive - free)) in
        let '(err, w2) := DriveInterface_Update drive w1 in
        (err, w2, [CallDriveGet driveName; CallDriveUpdate drive])
      else (None, w1, [CallDriveGet driveName])
  end.

(** The function literal returned by [setValidFinazers(ctx, driveName,
    finalizers)]. The error of [Get] is not looked at: after a failed
    [Get] the drive is the nil pointer and [SetFinalizers] panics. *)
Definition setValidFinazers (driveName : string) (finalizers : list string)
    (w : W) : result error unit * W * list event :=
  let '(r, w1) := DriveInterface_Get driveName w in
  match r with
  | inl _ => (Panic NilPointerDereference, w1, [CallDriveGet driveName])
  | inr drive =>
      let drive := SetFinalizers drive finalizers in
      let drive := readyIfOnlyProtected finalizers drive in
      let '(err, w2) := DriveInterface_Update drive w1 in
      (match err with Some e => Error e | None => Value tt end, w2,
       [CallDriveGet driveName; CallDriveUpdate drive])
  end.

End Ledger.

(** *** A sample cluster *)

(** The drives of a cluster by name; [Get] fails for a name that is not
    there, [Update] stores the drive. *)
Definition sampleGet (driveName : string) (w : gmap string DirectCSIDrive)
  : (string + DirectCSIDrive) * gmap string DirectCSIDrive :=
  match w !! driveName with
  | Some drive => (inr drive, w)
  | None => (inl "not found"%string, w)
  end.

Definition sampleUpdate (drive : DirectCSIDrive)
    (w : gmap string DirectCSIDrive)
  : option string * gmap string DirectCSIDrive :=
  (None, <[Name drive := drive]> w).

Definition sampleGroup : string := "directpv.min.io".

Definition sampleDrive : DirectCSIDrive :=
  mkDrive "drive-1"
    [ "directpv.min.io/data-protection"; "directpv.min.io.volume/vol-1" ]%string
    DriveStatusInUse 1000 600 400.

Definition sampleCluster : gmap string DirectCSIDrive :=
  {[ "drive-1"%string := sampleDrive ]}.

End Ledger.

(** ** Payloads of hotplug events *)

Module UeventPayload.
Import Go Uevent.

(** The header of a message that [parse] accepts, with its payload-offset
    byte [b]. *)
Definition validHeader (libudev : list byte) (libudevMagic : Z)
    (msg : list byte) (b : byte) : Prop :=
  (HasPrefix msg libudev = true) ∧
  (@BigEndian_Uint32 parseError (drop 8 msg) = Value libudevMagic) ∧
  (msg !! 16%nat = Some b) ∧
  (17 ≤ byteZ b ≤ Z.of_nat (length msg)).

(** The fields of a payload as the kernel writes them: a bare key, or a
    key and a value around [=]; each field is followed by a NUL byte. *)
Inductive field : Type :=
| Bare (key : list byte)
| KeyValue (key value : list byte).

Definition fieldKey (f : field) : list byte :=
  match f with Bare key => key | KeyValue key _ => key end.

Definition fieldValue (f : field) : list byte :=
  match f with Bare _ => [] | KeyValue _ value => value end.

Definition encodeField (f : field) : list byte :=
  match f with
  | Bare key => key
  | KeyValue key value => key ++ x3d :: value
  end.

Fixpoint encodePayload (fields : list field) : list byte :=
  match fields with
  | [] => []
  | f :: fields' => encodeField f ++ fieldDelimiter :: encodePayload fields'
  end.

(** A field that can be told apart in a payload: no NUL byte in it, no
    [=] in its key, and not empty. *)
Definition wellFormedField (f : field) : Prop :=
  (fieldDelimiter ∉ encodeField f) ∧ (x3d ∉ fieldKey f) ∧ (encodeField f ≠ []).

(** The event map after the field [f] is set. *)
Definition setField (event : gmap string string) (f : field)
  : gmap string string :=
  <[string_of_list_byte (fieldKey f) := string_of_list_byte (fieldValue f)]>
    event.

End UeventPayload.

(** ** Eligibility and probing of devices (package device) *)

Module DeviceProbe.
Import Go Device.

(** [const minSupportedDeviceSize = 512 * 1024 * 1024]. *)
Definition minSupportedDeviceSize : N := 512 * 1024 * 1024.

(** [consts.AppPrettyName]. *)
Definition AppPrettyName : string := "DirectPV".

(** [func (d Device) FSType() string] and [FSUUID]: a missing key of a Go
    map reads as the empty string. *)
Definition FSType (d : Device) : string :=
  default ""%string (udevData d !! "E:ID_FS_TYPE"%string).

Definition FSUUID (d : Device) : string :=
  default ""%string (udevData d !! "E:ID_FS_UUID"%string).

(** [if cond { reasons = append(reasons, reason) }]. *)
Definition appendIf (cond : bool) (reason : string) (reasons : list string)
  : list string :=
  if cond then reasons ++ [reason] else reasons.

Section Denied.

(** The cluster that the callback [findDriveByFSUUID] looks into. *)
Variable W : Type.

(** The reasons that [deniedReason] collects before the lookup. *)
Definition ownReasons (d : Device) (h : store) : list string :=
  let reasons := [] in
  let reasons :=
    appendIf (Size d <? minSupportedDeviceSize)%N "Too small" reasons in
  let reasons := appendIf (Hidden d) "Hidden" reasons in
  let reasons := appendIf (ReadOnly d) "Read only" reasons in
  let reasons := appendIf (Partitioned d) "Partitioned" reasons in
  let reasons :=
    appendIf (negb (length (elems h (Holders d)) =? 0)%nat)
      "Held by other device" reasons in
  let reasons :=
    appendIf (negb (length (elems h (MountPoints d)) =? 0)%nat)
      "Mounted" reasons in
  let reasons := appendIf (SwapOn d) "Swap" reasons in
  appendIf (CDROM d) "CDROM" reasons.

(** [func (d Device) deniedReason(findDriveByFSUUID func(string) error)
    string]: the reason and the cluster after the lookup, if one is made. *)
Definition deniedReason (d : Device) (h : store)
    (findDriveByFSUUID : string → W → option InitRequest.error * W) (w : W)
  : string * W :=
  let reasons := ownReasons d h in
  let '(reasons, w) :=
    if String.eqb (FSType d) "xfs" && negb (String.eqb (FSUUID d) "") then
      let '(err, w1) := findDriveByFSUUID (FSUUID d) w in
      match err with
      | Some e =>
          (appendIf (negb (InitRequest.IsNotFound e))
             ("internal error; " +:+ InitRequest.message e) reasons, w1)
      | None => (reasons ++ ["Used by " +:+ AppPrettyName]%string, w1)
      end
    else (reasons, w) in
  let reason :=
    if negb (length reasons =? 0)%nat then Join reasons "; " else ""%string in
  (reason, w).

End Denied.

Arguments deniedReason {W} _ _ _ _.

(** [type ProbedDevice struct]. *)
Record ProbedDevice : Type := mkProbedDevice {
  ProbedDevice_Device : Device;
  ProbedDevice_FSUUID : string;
  ProbedDevice_Label : string;
  ProbedDevice_TotalCapacity : Z;     (* int64 *)
  ProbedDevice_FreeCapacity : Z;      (* int64 *)
}.

Section ProbeDeviceMap.

(** The host, and the two probes that are declared outside the files at
    hand: [Probe] lists the block devices and allocates the arrays of
    their lists, [xfs.Probe] reads the superblock of a device. *)
Variable W : Type.
Variable error : Type.
Variable Probe : W → store → (error + list Device) * W * store.
Variable xfs_Probe : string → W → (string * string * N * N * option error) * W.
Variable AddDevPrefix : string → string.

(** The test that makes the loop of [ProbeDeviceMap] pass over a
    device. *)
Definition passedOver (h : store) (dev : Device) : bool :=
  Hidden dev || Partitioned dev
  || negb (length (elems h (Holders dev)) =? 0)%nat
  || SwapOn dev || CDROM dev || (Size dev =? 0)%N.

(** The loop of [ProbeDeviceMap]; a failed [xfs.Probe] is logged at most,
    and the device is passed over. *)
Fixpoint probeLoop (h : store) (devices : list Device)
    (deviceMap : gmap string (list ProbedDevice)) (w : W)
  : gmap string (list ProbedDevice) * W :=
  match devices with
  | [] => (deviceMap, w)
  | dev :: rest =>
      if passedOver h dev then probeLoop h rest deviceMap w
      else
        let '(fsuuid, label, totalCapacity, freeCapacity, err, w1) :=
          xfs_Probe (AddDevPrefix (Name dev)) w in
        match err with
        | Some _ => probeLoop h rest deviceMap w1
        | None =>
            let probed :=
              mkProbedDevice dev fsuuid label
                (int64 (Z.of_N totalCapacity)) (int64 (Z.of_N freeCapacity)) in
            probeLoop h rest
              (<[fsuuid := default [] (deviceMap !! fsuuid) ++ [probed]]>
                 deviceMap) w1
        end
  end.

(** [func ProbeDeviceMap() (map[string][]ProbedDevice, error)]. *)
Definition ProbeDeviceMap (w : W) (h : store)
  : (error + gmap string (list ProbedDevice)) * W * store :=
  let '(r, w1, h1) := Probe w h in
  match r with
  | inl err => (inl err, w1, h1)
  | inr devices =>
      let '(deviceMap, w2) := probeLoop h1 devices ∅ w1 in
      (inr deviceMap, w2, h1)
  end.

End ProbeDeviceMap.

Arguments ProbeDeviceMap {W error} _ _ _ _ _.
Arguments probeLoop {W error} _ _ _ _ _ _.

(** A sample host: the devices are listed as given, and a device has an
    XFS file system when its name is a key of the state. *)
Definition sampleProbe (devices : list Device)
    (w : gmap string string) (h : store)
  : (string + list Device) * gmap string string * store :=
  (inr devices, w, h).

Definition sampleXFSProbe (device : string) (w : gmap string string)
  : (string * string * N * N * option string) * gmap string string :=
  match w !! device with
  | Some fsuuid => ((fsuuid, "DIRECTPV"%string, 1024%N, 512%N, None), w)
  | None => ((""%string, ""%string, 0%N, 0%N, Some "no XFS"%string), w)
  end.

End DeviceProbe.

(** ** The repair commands: volumes and capacities (package main) *)

Module Repair.
Import Go Ledger.

(** *** Strings *)

(** [strings.HasPrefix], [strings.TrimPrefix], [strings.HasSuffix] and
    [strings.TrimSuffix], as the Go library defines them with slices of
    the string. *)
Definition HasPrefix (s prefix : string) : bool :=
  (String.length prefix <=? String.length s)%nat
  && String.eqb (substring 0 (String.length prefix) s) prefix.

Definition TrimPrefix (s prefix : string) : string :=
  if HasPrefix s prefix
  then substring (String.length prefix)
         (String.length s - String.length prefix) s
  else s.

Definition HasSuffix (s suffix : string) : bool :=
  (String.length suffix <=? String.length s)%nat
  && String.eqb
       (substring (String.length s - String.length suffix)
          (String.length suffix) s) suffix.

Definition TrimSuffix (s suffix : string) : string :=
  if HasSuffix s suffix
  then substring 0 (String.length s - String.length suffix) s
  else s.

(** [func getFSUUIDFromHostPath(hostPath, volumeName string) string]. *)
Definition getFSUUIDFromHostPath (hostPath volumeName : string) : string :=
  let trimmedStr := TrimPrefix hostPath "/var/lib/direct-csi/mnt/" in
  let fsuuid := TrimSuffix trimmedStr ("/" +:+ volumeName) in
  fsuuid.

(** *** Cluster records *)

(** The fields of [directcsi.DirectCSIVolume] that the functions read or
    write. *)
Record DirectCSIVolume : Type := mkVolume {
  Volume_Name : string;
  Volume_Finalizers : list string;
  Volume_Drive : string;              (* Status.Drive *)
  Volume_TotalCapacity : Z;           (* Status.TotalCapacity, int64 *)
}.

Definition Volume_SetFinalizers (volume : DirectCSIVolume)
    (finalizers : list string) : DirectCSIVolume :=
  mkVolume (Volume_Name volume) finalizers (Volume_Drive volume)
    (Volume_TotalCapacity volume).

(** [corev1.PersistentVolumePhase], a string type with five named
    values. *)
Inductive PersistentVolumePhase : Type :=
| VolumePending | VolumeAvailable | VolumeBound
| VolumePhaseOther (phase : string)   (* any other text *)
| VolumeReleased | VolumeFailed.

(** The fields of [corev1.PersistentVolume] that [isStaleVolume] reads;
    the storage is [pv.Spec.Capacity.Storage().Value()]. *)
Record PersistentVolume : Type := mkPersistentVolume {
  PV_Name : string;
  PV_Phase : PersistentVolumePhase;
  PV_Storage : Z;                     (* int64 *)
}.

(** The calls to the cluster; the calls of the functions of [Ledger] are
    passed on as they are. *)
Inductive event : Type :=
| DriveCall (ev : Ledger.event)
| CallVolumeGet (volumeName : string)
| CallVolumeUpdate (volume : DirectCSIVolume)
| CallPersistentVolumeGet (name : string).

Section Repair.

Variable GroupName : string.

Local Abbreviation DirectCSIDriveFinalizerPrefix :=
  (Ledger.DirectCSIDriveFinalizerPrefix GroupName).

(** The constant [directcsi.DirectCSIVolumeFinalizerPurgeProtection] and
    the helper [matcher.StringIn] are declared outside the files at
    hand. *)
Variable DirectCSIVolumeFinalizerPurgeProtection : string.
Variable StringIn : list string → string → bool.

(** The cluster and its clients; [apierrors.IsNotFound] and [fmt.Errorf]
    on the errors of the cluster. *)
Variable W : Type.
Variable error : Type.
Variable IsNotFound : error → bool.
Variable Errorf : string → error.
Variable DriveInterface_Get : string → W → (error + DirectCSIDrive) * W.
Variable DriveInterface_Update : DirectCSIDrive → W → option error * W.
Variable VolumeInterface_Get : string → W → (error + DirectCSIVolume) * W.
Variable VolumeInterface_Update : DirectCSIVolume → W → option error * W.
Variable PersistentVolumes_Get : string → W → (error + PersistentVolume) * W.

(** *** Capacities of the volumes of a drive *)

(** The loop of [getAllocatedCapacityFromVolumes] over the finalizers
    still to visit, with the sum so far. *)
Fixpoint allocatedCapacityLoop (finalizers : list string)
    (totalVolumeCapacityOnTheDrive : Z) (w : W)
  : (Z * option error) * W * list event :=
  match finalizers with
  | [] => ((totalVolumeCapacityOnTheDrive, None), w, [])
  | finalizer :: rest =>
      if negb (HasPrefix finalizer DirectCSIDriveFinalizerPrefix) then
        allocatedCapacityLoop rest totalVolumeCapacityOnTheDrive w
      else
        let volumeNameFromFinalizer :=
          TrimPrefix finalizer DirectCSIDriveFinalizerPrefix in
        let '(r, w1) := VolumeInterface_Get volumeNameFromFinalizer w in
        match r with
        | inl err =>
            if negb (IsNotFound err) then
              ((totalVolumeCapacityOnTheDrive, Some err), w1,
               [CallVolumeGet volumeNameFromFinalizer])
            else
              let '(x, w2, t) :=
                allocatedCapacityLoop rest totalVolumeCapacityOnTheDrive w1 in
              (x, w2, CallVolumeGet volumeNameFromFinalizer :: t)
        | inr volume =>
            let '(x, w2, t) :=
              allocatedCapacityLoop rest
                (int64 (totalVolumeCapacityOnTheDrive
                        + Volume_TotalCapacity volume)) w1 in
            (x, w2, CallVolumeGet volumeNameFromFinalizer :: t)
        end
  end.

(** [func getAllocatedCapacityFromVolumes(ctx, drive) (int64, error)]. *)
Definition getAllocatedCapacityFromVolumes (drive : DirectCSIDrive) (w : W)
  : (Z * option error) * W * list event :=
  allocatedCapacityLoop (Finalizers drive) 0 w.

(** The capacity that a finalizer stands for in the cluster [w]: that of
    the volume it names, and zero when it names no volume or the lookup
    of the volume fails. *)
Definition capacityOfFinalizer (w : W) (finalizer : string) : Z :=
  if HasPrefix finalizer DirectCSIDriveFinalizerPrefix then
    match (VolumeInterface_Get
             (TrimPrefix finalizer DirectCSIDriveFinalizerPrefix) w).1 with
    | inr volume => Volume_TotalCapacity volume
    | inl _ => 0
    end
  else 0.

(** The loop of [getVolumeSizeFromDrive]: as above, but the finalizer of
    [volumeName] is passed over; a failed lookup ends the function with
    [volumeSize], which is still zero. *)
Fixpoint volumeSizeLoop (volumeName : string) (finalizers : list string)
    (totalVolumeCapacityOnTheDrive : Z) (w : W)
  : (Z + error) * W * list event :=
  match finalizers with
  | [] => (inl totalVolumeCapacityOnTheDrive, w, [])
  | finalizer :: rest =>
      if negb (HasPrefix finalizer DirectCSIDriveFinalizerPrefix) then
        volumeSizeLoop volumeName rest totalVolumeCapacityOnTheDrive w
      else
        let volumeNameFromFinalizer :=
          TrimPrefix finalizer DirectCSIDriveFinalizerPrefix in
        if String.eqb volumeNameFromFinalizer volumeName then
          volumeSizeLoop volumeName rest totalVolumeCapacityOnTheDrive w
        else
          let '(r, w1) := VolumeInterface_Get volumeNameFromFinalizer w in
          match r with
          | inl err =>
              if negb (IsNotFound err) then
                (inr err, w1, [CallVolumeGet volumeNameFromFinalizer])
              else
                let '(x, w2, t) :=
                  volumeSizeLoop volumeName rest
                    totalVolumeCapacityOnTheDrive w1 in
                (x, w2, CallVolumeGet volumeNameFromFinalizer :: t)
          | inr volume =>
              let '(x, w2, t) :=
                volumeSizeLoop volumeName rest
                  (int64 (totalVolumeCapacityOnTheDrive
                          + Volume_TotalCapacity volume)) w1 in
              (x, w2, CallVolumeGet volumeNameFromFinalizer :: t)
          end
  end.

(** [func getVolumeSizeFromDrive(ctx, drive, volumeName) (int64, error)]:
    the function writes to the drive that its pointer argument refers to;
    the drive afterwards is returned with the results. *)
Definition getVolumeSizeFromDrive (drive : DirectCSIDrive)
    (volumeName : string) (w : W)
  : (Z * option error * DirectCSIDrive) * W * list event :=
  let '(r, w1, t) := volumeSizeLoop volumeName (Finalizers drive) 0 w in
  match r with
  | inr err => ((0, Some err, drive), w1, t)
  | inl totalVolumeCapacityOnTheDrive =>
      if AllocatedCapacity drive >? totalVolumeCapacityOnTheDrive then
        let volumeSize :=
          int64 (AllocatedCapacity drive - totalVolumeCapacityOnTheDrive) in
        ((volumeSize, None,
          setCapacities drive (FreeCapacity drive)
            totalVolumeCapacityOnTheDrive), w1, t)
      else ((0, None, drive), w1, t)
  end.

(** [func isStaleVolume(ctx, volumeName) (bool, int64, error)]. *)
Definition isStaleVolume (volumeName : string) (w : W)
  : (bool * Z * option error) * W * list event :=
  let volumeCapacity := 0 in
  let '(r, w1) := VolumeInterface_Get volumeName w in
  match r with
  | inr _ => ((false, volumeCapacity, None), w1, [CallVolumeGet volumeName])
  | inl err =>
      if negb (IsNotFound err) then
        ((false, volumeCapacity, Some err), w1, [CallVolumeGet volumeName])
      else
        let '(r, w2) := PersistentVolumes_Get volumeName w1 in
        let t := [CallVolumeGet volumeName;
                  CallPersistentVolumeGet volumeName] in
        match r with
        | inl err =>
            if IsNotFound err then ((true, volumeCapacity, None), w2, t)
            else ((false, volumeCapacity, Some err), w2, t)
        | inr pv =>
            match PV_Phase pv with
            | VolumeReleased | VolumeFailed =>
                ((true, PV_Storage pv, None), w2, t)
            | _ => ((false, volumeCapacity, None), w2, t)
            end
        end
  end.

(** *** Finalizers without a volume *)

(** The loop of [hasUnexpectedFinalizers]. *)
Fixpoint hasUnexpectedLoop (driveName : string) (finalizers : list string)
    (w : W) : (bool * option error) * W * list event :=
  match finalizers with
  | [] => ((false, None), w, [])
  | finalizer :: rest =>
      if negb (HasPrefix finalizer DirectCSIDriveFinalizerPrefix) then
        hasUnexpectedLoop driveName rest w
      else
        let volumeNameFromFinalizer :=
          TrimPrefix finalizer DirectCSIDriveFinalizerPrefix in
        let '(r, w1) := VolumeInterface_Get volumeNameFromFinalizer w in
        let ev := CallVolumeGet volumeNameFromFinalizer in
        match r with
        | inl err =>
            if IsNotFound err then ((true, None), w1, [ev])
            else ((true, Some err), w1, [ev])
        | inr volume =>
            if negb (String.eqb (Volume_Drive volume) driveName) then
              ((true, None), w1, [ev])
            else
              let '(x, w2, t) := hasUnexpectedLoop driveName rest w1 in
              (x, w2, ev :: t)
        end
  end.

(** [func hasUnexpectedFinalizers(ctx, driveName) (bool, error)]. *)
Definition hasUnexpectedFinalizers (driveName : string) (w : W)
  : (bool * option error) * W * list event :=
  let '(r, w1) := DriveInterface_Get driveName w in
  let ev := DriveCall (CallDriveGet driveName) in
  match r with
  | inl err => ((true, Some err), w1, [ev])
  | inr drive =>
      let '(x, w2, t) := hasUnexpectedLoop (Name drive) (Finalizers drive) w1 in
      (x, w2, ev :: t)
  end.

(** The loop of [removeUnexpectedFinalizers] that collects
    [validFinalizers]. *)
Fixpoint validFinalizersLoop (driveName : string) (finalizers : list string)
    (validFinalizers : list string) (w : W)
  : (error + list string) * W * list event :=
  match finalizers with
  | [] => (inr validFinalizers, w, [])
  | finalizer :: rest =>
      if negb (HasPrefix finalizer DirectCSIDriveFinalizerPrefix) then
        validFinalizersLoop driveName rest (validFinalizers ++ [finalizer]) w
      else
        let volumeNameFromFinalizer :=
          TrimPrefix finalizer DirectCSIDriveFinalizerPrefix in
        let '(r, w1) := VolumeInterface_Get volumeNameFromFinalizer w in
        let ev := CallVolumeGet volumeNameFromFinalizer in
        match r with
        | inl err =>
            if IsNotFound err then
              let '(x, w2, t) :=
                validFinalizersLoop driveName rest validFinalizers w1 in
              (x, w2, ev :: t)
            else (inl err, w1, [ev])
        | inr volume =>
            let validFinalizers :=
              if String.eqb (Volume_Drive volume) driveName
              then validFinalizers ++ [finalizer] else validFinalizers in
            let '(x, w2, t) :=
              validFinalizersLoop driveName rest validFinalizers w1 in
            (x, w2, ev :: t)
        end
  end.

(** *** Releasing and moving a volume *)

(** The function literal returned by [dummyDelete(ctx, v)]; [v] is read
    for its name only. *)
Definition dummyDelete (v : DirectCSIVolume) (w : W)
  : option error * W * list event :=
  let '(r, w1) := VolumeInterface_Get (Volume_Name v) w in
  let ev := CallVolumeGet (Volume_Name v) in
  match r with
  | inl err => (Some err, w1, [ev])
  | inr volume =>
      let '(finalizers, _) :=
        excludeFinalizer (Volume_Finalizers volume)
          DirectCSIVolumeFinalizerPurgeProtection in
      if (0 <? length finalizers)%nat then
        (Some (Errorf
           "waiting for the volume to be released before cleaning up"),
         w1, [ev])
      else
        let '(err, w2, t) :=
          Ledger.dummyReleaseVolume GroupName W error DriveInterface_Get
            DriveInterface_Update (Volume_Drive volume) (Volume_Name volume)
            (Volume_TotalCapacity volume) w1 in
        match err with
        | Some e => (Some e, w2, ev :: (DriveCall <$> t))
        | None =>
            let volume := Volume_SetFinalizers volume finalizers in
            let '(err, w3) := VolumeInterface_Update volume w2 in
            (err, w3, ev :: (DriveCall <$> t) ++ [CallVolumeUpdate volume])
        end
  end.

(** [func fixDriveForVolume(ctx, volumeName, driveName, size) error]. *)
Definition fixDriveForVolume (volumeName driveName : string) (size : Z)
    (w : W) : option error * W * list event :=
  let '(r, w1) := DriveInterface_Get driveName w in
  let ev := DriveCall (CallDriveGet driveName) in
  match r with
  | inl err => (Some err, w1, [ev])
  | inr drive =>
      let drive := setDriveStatus drive DriveStatusInUse in
      let finalizer := DirectCSIDriveFinalizerPrefix +:+ volumeName in
      let drive :=
        if negb (StringIn (Finalizers drive) finalizer) then
          let drive :=
            setCapacities drive (int64 (FreeCapacity drive - size))
              (int64 (AllocatedCapacity drive + size)) in
          SetFinalizers drive (Finalizers drive ++ [finalizer])
        else drive in
      let '(err, w2) := DriveInterface_Update drive w1 in
      (err, w2, [ev; DriveCall (CallDriveUpdate drive)])
  end.

(** [func unsetExistingFinalizer(ctx, volumeName, driveName) error]. *)
Definition unsetExistingFinalizer (volumeName driveName : string) (w : W)
  : option error * W * list event :=
  let '(r, w1) := DriveInterface_Get driveName w in
  let ev := DriveCall (CallDriveGet driveName) in
  match r with
  | inl err => (Some err, w1, [ev])
  | inr drive =>
      let finalizer := DirectCSIDriveFinalizerPrefix +:+ volumeName in
      if StringIn (Finalizers drive) finalizer then
        let expectedFinalizers :=
          foldl (fun expectedFinalizers f =>
                   if negb (String.eqb f finalizer)
                   then expectedFinalizers ++ [f] else expectedFinalizers)
                [] (Finalizers drive) in
        let drive := SetFinalizers drive expectedFinalizers in
        let '(err, w2) := DriveInterface_Update drive w1 in
        (err, w2, [ev; DriveCall (CallDriveUpdate drive)])
      else (None, w1, [ev])
  end.

End Repair.

(** *** A sample cluster *)

(** Drives and volumes by name; an error is the text of its message, and
    a lookup fails with [not found] for a name that is not there. *)
Record sampleWorld : Type := mkSampleWorld {
  sampleDrives : gmap string DirectCSIDrive;
  sampleVolumes : gmap string DirectCSIVolume;
}.

Definition sampleIsNotFound (err : string) : bool :=
  String.eqb err "not found".

Definition sampleStringIn (l : list string) (x : string) : bool :=
  bool_decide (x ∈ l).

Definition samplePurgeProtection : string :=
  "directpv.min.io/purge-protection".

Definition sampleDriveGet (driveName : string) (w : sampleWorld)
  : (string + DirectCSIDrive) * sampleWorld :=
  match sampleDrives w !! driveName with
  | Some drive => (inr drive, w)
  | None => (inl "not found"%string, w)
  end.

Definition sampleDriveUpdate (drive : DirectCSIDrive) (w : sampleWorld)
  : option string * sampleWorld :=
  (None, mkSampleWorld (<[Name drive := drive]> (sampleDrives w))
           (sampleVolumes w)).

Definition sampleVolumeGet (volumeName : string) (w : sampleWorld)
  : (string + DirectCSIVolume) * sampleWorld :=
  match sampleVolumes w !! volumeName with
  | Some volume => (inr volume, w)
  | None => (inl "not found"%string, w)
  end.

Definition sampleVolumeUpdate (volume : DirectCSIVolume) (w : sampleWorld)
  : option string * sampleWorld :=
  (None, mkSampleWorld (sampleDrives w)
           (<[Volume_Name volume := volume]> (sampleVolumes w))).

(** [sampleDrive] of [Ledger] with its volume [vol-1], which still
    carries the purge protection. *)
Definition sampleCluster : sampleWorld :=
  mkSampleWorld
    {[ "drive-1"%string := Ledger.sampleDrive ]}
    {[ "vol-1"%string :=
         mkVolume "vol-1" ["directpv.min.io/purge-protection"%string]
           "drive-1" 400 ]}.

End Repair.

(** ** The init command (package main) *)

Module InitCommand.
Import InitRequest.

(** The fields of [InitConfig], of its nodes and of their drives that
    [toInitRequest] reads; the types are declared outside the files at
    hand. *)
Record DriveInfo : Type := mkDriveInfo {
  DriveInfo_ID : string;
  DriveInfo_Name : string;
  DriveInfo_MajorMinor : string;
  DriveInfo_FS : string;
}.

Record NodeInfo : Type := mkNodeInfo {
  NodeInfo_Name : string;
  NodeInfo_Drives : list DriveInfo;
}.

Record InitConfig : Type := mkInitConfig {
  Nodes : list NodeInfo;
}.

(** The element that the inner loop of [toInitRequest] appends. *)
Definition toInitDevice (device : DriveInfo) : InitDevice :=
  mkInitDevice (DriveInfo_Name device) (DriveInfo_MajorMinor device)
    (DriveInfo_ID device) (negb (String.eqb (DriveInfo_FS device) "")).

Section ToInitRequest.

(** The source of random names. *)
Variable W : Type.
Variable uuid_NewString : W → string * W.

(** [func toInitRequest(config *InitConfig) types.InitRequest]: the
    response map of the request is not set. *)
Definition toInitRequest (config : InitConfig) (w : W) : InitRequestT * W :=
  let request :=
    foldl (fun request node =>
             let initDevices :=
               foldl (fun initDevices device =>
                        initDevices ++ [toInitDevice device])
                     [] (NodeInfo_Drives node) in
             if (0 <? length initDevices)%nat
             then <[NodeInfo_Name node := initDevices]> request
             else request)
          (∅ : gmap string (list InitDevice)) (Nodes config) in
  let '(name, w1) := uuid_NewString w in
  (mkInitRequest name None request, w1).

End ToInitRequest.

Arguments toInitRequest {W} _ _ _.

(** A sample configuration: two drives on [node-1], none on [node-2]. *)
Definition sampleConfig : InitConfig :=
  mkInitConfig
    [ mkNodeInfo "node-1"
        [ mkDriveInfo "8:16$id" "sdb" "8:16" "";
          mkDriveInfo "8:32$id" "sdc" "8:32" "ext4" ];
      mkNodeInfo "node-2" [] ].

End InitCommand.

(** ** Device events of the listener (package uevent) *)

Module UeventListener.
Import Go Uevent.

Section ParseUEvent.

Variable libudev : list byte.
Variable libudevMagic : Z.

(** Declared outside the files at hand: the actions [Add], [Change] and
    [Remove] of type [action], a string type; the error
    [errNonDeviceEvent]; the library functions [strconv.Atoi],
    [filepath.Base] and [time.Now], and [sys.MapToUdevData] with its
    result type. *)
Variable Add Change Remove : string.
Variable AtoiError : Type.
Variable Atoi : string → AtoiError + Z.
Variable Base : string → string.
Variable UdevData UdevDataError : Type.
Variable MapToUdevData : gmap string string → UdevDataError + UdevData.
Variable W Time : Type.
Variable time_Now_UTC : W → Time * W.

(** The errors that [parseUEvent] returns. *)
Inductive ueventError : Type :=
| ParseError (err : parseError)
| ErrNonDeviceEvent
| ErrInvalidAction (eventAction : string)
    (* "invalid device action: %s" *)
| ErrInvalidPath (path : string)
    (* "invalid path: %s" *)
| ErrAtoi (err : AtoiError)
| ErrUdevData (err : UdevDataError).

(** [type deviceEvent struct]. *)
Record deviceEvent : Type := mkDeviceEvent {
  created : Time;
  action : string;
  udevData : UdevData;
  devPath : string;
  major : Z;
  minor : Z;
}.

(** [eventMap[key]]: a missing key reads as the empty string. *)
Definition valueOf (eventMap : gmap string string) (key : string) : string :=
  default ""%string (eventMap !! key).

(** [func (l *listener) parseUEvent(buf []byte)], which returns a device
    event or an error: the clock is read when the event is built. *)
Definition parseUEvent (buf : list byte) (w : W)
  : result ueventError deviceEvent * W :=
  match parse libudev libudevMagic buf with
  | Panic p => (Panic p, w)
  | Error err => (Error (ParseError err), w)
  | Value eventMap =>
      if negb (String.eqb (valueOf eventMap "SUBSYSTEM") "block") then
        (Error ErrNonDeviceEvent, w)
      else
      let eventAction := valueOf eventMap "ACTION" in
      if negb (String.eqb eventAction Add || String.eqb eventAction Change
               || String.eqb eventAction Remove) then
        (Error (ErrInvalidAction eventAction), w)
      else
      let path := valueOf eventMap "DEVPATH" in
      if String.eqb path "" then (Error (ErrInvalidPath path), w)
      else
      match Atoi (valueOf eventMap "MAJOR") with
      | inl err => (Error (ErrAtoi err), w)
      | inr major =>
      match Atoi (valueOf eventMap "MINOR") with
      | inl err => (Error (ErrAtoi err), w)
      | inr minor =>
      match MapToUdevData eventMap with
      | inl err => (Error (ErrUdevData err), w)
      | inr udevData =>
          let '(now, w1) := time_Now_UTC w in
          (Value (mkDeviceEvent now eventAction udevData
                    ("/dev/" +:+ Base path) major minor), w1)
      end end end
  end.

End ParseUEvent.

Arguments ParseError {AtoiError UdevDataError} _.
Arguments ErrNonDeviceEvent {AtoiError UdevDataError}.
Arguments ErrInvalidAction {AtoiError UdevDataError} _.
Arguments ErrInvalidPath {AtoiError UdevDataError} _.
Arguments ErrAtoi {AtoiError UdevDataError} _.
Arguments ErrUdevData {AtoiError UdevDataError} _.
Arguments created {UdevData Time} _.
Arguments action {UdevData Time} _.
Arguments udevData {UdevData Time} _.
Arguments devPath {UdevData Time} _.
Arguments major {UdevData Time} _.
Arguments minor {UdevData Time} _.

End UeventListener.

(** ** Listing initialization requests (package initrequest) *)

Module Lister.
Import InitRequest.

(** The loop of [List] over [lister.initRequestNames] for one item: the
    flag [found] and the names [values] that are kept. *)
Definition matchName (initRequestNames : list string) (itemName : string)
  : bool * list string :=
  foldl (fun '(found, values) name =>
           if String.eqb name itemName then (true, values)
           else (found, values ++ [name]))
        (false, []) initRequestNames.

Section List.

(** The consumer of the channel and the context: [send] tells whether
    the item was taken before the context was done. *)
Variable W : Type.
Variable send : InitRequestT → W → bool * W.

(** The loop of [List] over the items of one page, from the names that
    the lister holds: whether [List] goes on after the page, the names
    that the lister holds afterwards, and the items that were taken. *)
Fixpoint itemsLoop (initRequestNames : list string)
    (items : list InitRequestT) (w : W)
  : bool * list string * W * list InitRequestT :=
  match items with
  | [] => (true, initRequestNames, w, [])
  | item :: rest =>
      let '(found, values) :=
        matchName initRequestNames (InitRequest_Name item) in
      let initRequestNames := values in
      if (length initRequestNames =? 0)%nat || found then
        let '(ok, w1) := send item w in
        if negb ok then (false, initRequestNames, w1, [])
        else
          let '(goOn, names, w2, taken) :=
            itemsLoop initRequestNames rest w1 in
          (goOn, names, w2, item :: taken)
      else itemsLoop initRequestNames rest w
  end.

End List.

Arguments itemsLoop {W} _ _ _ _.

(** A consumer that takes every item and counts them. *)
Definition sampleSend (item : InitRequestT) (w : nat) : bool * nat :=
  (true, S w).

Definition sampleItem (name : string) : InitRequestT :=
  mkInitRequest name None ∅.

End Lister.

(** * Part II: the properties *)

(** ** The decoder *)

Module UeventFacts.
Import Go Uevent.

(** A well-formed event: header, payload offset 17, then the fields
    [A=1], a bare [B] and an empty field. *)
Example parse_sample_event :
  parse sampleSignature sampleMagic
    (sampleSignature ++ [xfe; xed; xca; xfe] ++ replicate 4 x00 ++ [x11]
       ++ [x41; x3d; x31; x00; x42; x00; x00])
  = Value (<["B"%string := ""%string]> (<["A"%string := "1"%string]> ∅)).
Proof. vm_compute. reflexivity. Qed.

(** *** Properties of the decoder *)

Lemma HasPrefix_length msg pre :
  HasPrefix msg pre = true → (length pre ≤ length msg)%nat.
Proof.
  revert msg; induction pre as [|p pre IH]; intros [|m msg]; simpl;
    try lia; try discriminate.
  destruct (Byte.eqb p m); [|discriminate].
  intros H; apply IH in H; lia.
Qed.

Lemma sliceFrom_le {E} msg low :
  (low ≤ length msg)%nat → @sliceFrom E msg low = Value (drop low msg).
Proof.
  intros H. unfold sliceFrom.
  destruct (Nat.leb_spec low (length msg)); [reflexivity|lia].
Qed.

Lemma BigEndian_Uint32_Value {E} b m :
  @BigEndian_Uint32 E b = Value m → (4 ≤ length b)%nat.
Proof.
  destruct b as [|? [|? [|? [|? ?]]]]; simpl; try discriminate; lia.
Qed.

Lemma BigEndian_Uint32_short {E} b :
  (length b < 4)%nat →
  @BigEndian_Uint32 E b = Panic (IndexOutOfRange 3 (Z.of_nat (length b))).
Proof.
  destruct b as [|? [|? [|? [|? ?]]]]; simpl; try reflexivity; lia.
Qed.

(** Every buffer that carries the signature but ends before the magic
    number is complete makes [parse] panic. *)
Lemma parse_panics_before_magic sig magic msg :
  HasPrefix msg sig = true → (length msg < 12)%nat →
  panics (parse sig magic msg).
Proof.
  intros Hsig Hlen. unfold parse. rewrite Hsig; simpl.
  unfold sliceFrom. destruct (8 <=? length msg)%nat eqn:H8; simpl; [|exact I].
  apply Nat.leb_le in H8.
  rewrite BigEndian_Uint32_short by (rewrite length_drop; lia).
  exact I.
Qed.

(** Every buffer that carries the signature and the right magic number but
    ends before byte 16 makes [parse] panic. *)
Lemma parse_panics_before_offset sig magic msg :
  HasPrefix msg sig = true →
  @BigEndian_Uint32 parseError (drop 8 msg) = Value magic →
  (length msg < 17)%nat →
  panics (parse sig magic msg).
Proof.
  intros Hsig Hmagic Hlen. unfold parse. rewrite Hsig; simpl.
  pose proof (BigEndian_Uint32_Value _ _ Hmagic) as H4.
  rewrite length_drop in H4.
  rewrite (sliceFrom_le msg 8) by lia.
  simpl. rewrite Hmagic; simpl. rewrite Z.eqb_refl; simpl.
  unfold index. rewrite (lookup_ge_None_2 msg 16) by lia. exact I.
Qed.

(** From 17 bytes on, [parse] returns: a map or one of its errors. *)
Lemma parse_returns_from_17 sig magic msg :
  (17 ≤ length msg)%nat → returns (parse sig magic msg).
Proof.
  intros Hlen. unfold parse.
  destruct (HasPrefix msg sig); simpl; [|exact I].
  rewrite (sliceFrom_le msg 8) by lia.
  simpl.
  destruct (drop 8 msg) as [|b0 [|b1 [|b2 [|b3 r]]]] eqn:Hd;
    try (apply (f_equal length) in Hd; rewrite length_drop in Hd; simpl in Hd; lia).
  simpl. destruct (_ =? magic); simpl; [|exact I].
  unfold index. destruct (msg !! 16%nat) as [b|] eqn:H16; simpl.
  2:{ apply lookup_ge_None_1 in H16. lia. }
  destruct (byteZ b <? 17) eqn:Hlo; [exact I|].
  destruct (byteZ b >? Z.of_nat (length msg)) eqn:Hhi; [exact I|].
  rewrite sliceFrom_le by lia. exact I.
Qed.

(** C2 (the code departs from the claim): a buffer that consists of the
    signature alone (8 bytes) makes [parse] panic inside
    [binary.BigEndian.Uint32], and a 16-byte buffer with the signature and
    the right magic number makes it panic at [msg[16]]; neither call
    returns a map or a format error. *)
Theorem parse_panics_on_short_buffer :
  parse sampleSignature sampleMagic sampleSignature
    = Panic (IndexOutOfRange 3 0) ∧
  parse sampleSignature sampleMagic
    (sampleSignature ++ [xfe; xed; xca; xfe; x00; x00; x00; x00])
    = Panic (IndexOutOfRange 16 16).
Proof. split; vm_compute; reflexivity. Qed.

(** C10 (as stated, refuted): the 17-byte all-zero buffer has the magic
    number 0 at offset 8, which differs from the expected constant, and
    the payload-offset byte 0, which is not more than 16; [parse] reports
    neither the magic mismatch nor the offset error but the missing
    signature. *)
Lemma parse_zero_buffer_signature_error :
  let msg := replicate 17 x00 in
  @BigEndian_Uint32 parseError (drop 8 msg) = Value 0 ∧
  0 ≠ sampleMagic ∧
  byteZ <$> msg !! 16%nat = Some 0 ∧
  parse sampleSignature sampleMagic msg = Error ErrSignatureNotFound ∧
  parse sampleSignature sampleMagic msg
    ≠ Error (ErrMagicMismatch sampleMagic 0) ∧
  parse sampleSignature sampleMagic msg ≠ Error (ErrOffsetNotMoreThan17 0).
Proof. vm_compute. repeat split; discriminate. Qed.

(** C10 (amended): for every buffer that starts with the signature, a
    magic number at offset 8 that differs from the expected constant makes
    [parse] fail with the magic-mismatch error; and when the magic number
    is the expected one, a payload-offset byte of 16 or less makes it fail
    with the offset error. *)
Theorem parse_magic_then_offset_errors sig magic msg m :
  HasPrefix msg sig = true →
  @BigEndian_Uint32 parseError (drop 8 msg) = Value m →
  (m ≠ magic → parse sig magic msg = Error (ErrMagicMismatch magic m)) ∧
  (m = magic → ∀ b, msg !! 16%nat = Some b → byteZ b ≤ 16 →
     parse sig magic msg = Error (ErrOffsetNotMoreThan17 (byteZ b))).
Proof.
  intros Hsig Hm.
  pose proof (BigEndian_Uint32_Value _ _ Hm) as H4.
  rewrite length_drop in H4.
  assert (Hpre : parse sig magic msg =
    if negb (m =? magic) then Error (ErrMagicMismatch magic m)
    else b ← index msg 16;
         if byteZ b <? 17 then Error (ErrOffsetNotMoreThan17 (byteZ b))
         else if byteZ b >? Z.of_nat (length msg) then
           Error (ErrOffsetBeyondLength (byteZ b) (Z.of_nat (length msg)))
         else payload ← sliceFrom msg (Z.to_nat (byteZ b));
              Value (foldl addField ∅ (Split payload fieldDelimiter))).
  { unfold parse. rewrite Hsig; simpl.
    rewrite (sliceFrom_le msg 8) by lia.
    simpl. rewrite Hm. reflexivity. }
  rewrite Hpre. split.
  - intros Hne. apply Z.eqb_neq in Hne. rewrite Hne. reflexivity.
  - intros -> b Hb Hle. rewrite Z.eqb_refl; simpl.
    unfold index. rewrite Hb; simpl.
    replace (byteZ b <? 17) with true by (symmetry; apply Z.ltb_lt; lia).
    reflexivity.
Qed.

Lemma parse_magic_then_offset_errors_witness :
  parse sampleSignature sampleMagic
    (sampleSignature ++ [xfe; xed; xca; xff] ++ replicate 5 x00)
    = Error (ErrMagicMismatch sampleMagic 0xfeedcaff) ∧
  parse sampleSignature sampleMagic
    (sampleSignature ++ [xfe; xed; xca; xfe] ++ replicate 4 x00 ++ [x10])
    = Error (ErrOffsetNotMoreThan17 16).
Proof.
  split.
  - refine (proj1 (parse_magic_then_offset_errors sampleSignature sampleMagic
      (sampleSignature ++ [xfe; xed; xca; xff] ++ replicate 5 x00)
      0xfeedcaff _ _) _).
    + vm_compute; reflexivity.
    + vm_compute; reflexivity.
    + vm_compute; discriminate.
  - refine (proj2 (parse_magic_then_offset_errors sampleSignature sampleMagic
      (sampleSignature ++ [xfe; xed; xca; xfe] ++ replicate 4 x00 ++ [x10])
      sampleMagic _ _) _ x10 _ _).
    + vm_compute; reflexivity.
    + vm_compute; reflexivity.
    + reflexivity.
    + vm_compute; reflexivity.
    + vm_compute; discriminate.
Defined.

End UeventFacts.

(** ** The matcher *)

Module MatcherFacts.
Import Matcher.

Section MatcherFacts.

Context {DirectCSIDrive Device : Type}.
Variable validateNonHostInfo : DirectCSIDrive → Device → bool.
Variable validateHostInfo : DirectCSIDrive → Device → bool.

Local Abbreviation runMatcher :=
  (Matcher.runMatcher validateNonHostInfo validateHostInfo).

(** *** Properties of the matcher *)

Lemma matchLoop_none (fn : @matchFn DirectCSIDrive Device) device drives acc :
  (∀ d, d ∈ drives → (fn d device).1 = false) →
  matchLoop fn device drives acc = (acc, true).
Proof.
  revert acc; induction drives as [|d drives IH]; intros acc Hnone; simpl.
  - reflexivity.
  - pose proof (Hnone d (list_elem_of_here _ _)) as Hd.
    destruct (fn d device) as [m c]; simpl in Hd; subst m.
    apply IH. intros d' Hd'. apply Hnone. by apply list_elem_of_further.
Qed.

Lemma narrow_nil (chain : list (@matchFn DirectCSIDrive Device)) device : narrow chain [] device = [].
Proof. induction chain as [|fn chain IH]; simpl; [reflexivity|exact IH]. Qed.

Lemma narrow_none (chain : list (@matchFn DirectCSIDrive Device)) drives
    device :
  chain ≠ [] →
  (∀ fn d, fn ∈ chain → d ∈ drives → (fn d device).1 = false) →
  narrow chain drives device = [].
Proof.
  destruct chain as [|fn chain]; [congruence|]. intros _ Hnone. simpl.
  unfold match_. rewrite matchLoop_none.
  - simpl. apply narrow_nil.
  - intros d Hd. apply Hnone; [apply list_elem_of_here|exact Hd].
Qed.

Lemma matchers_never_match (fn : @matchFn DirectCSIDrive Device) d device :
  fn ∈ matchers → (fn d device).1 = false.
Proof.
  unfold matchers. intros H.
  repeat (apply elem_of_cons in H as [->|H]; [reflexivity|]).
  by apply not_elem_of_nil in H.
Qed.

Lemma getMatchingDrives_nil (drives : list DirectCSIDrive) (device : Device) :
  getMatchingDrives drives device = [].
Proof.
  unfold getMatchingDrives. apply narrow_none; [discriminate|].
  intros fn d Hfn _. by apply matchers_never_match.
Qed.

Lemma runMatcher_noMatch drives device :
  runMatcher drives device = (None, noMatch).
Proof. unfold runMatcher. by rewrite getMatchingDrives_nil. Qed.

End MatcherFacts.

(** C1 (as stated, refuted): with the two candidate drives [sda] and
    [sdb], the first criterion matches neither; [match] hands on the empty
    candidate list (not the two drives), so does the whole chain, and
    [runMatcher] answers "no match" (not "too many matches"). *)
Lemma match_zero_matches_drops_candidates :
  let drives := ["sda"; "sdb"]%string in
  (∀ d, d ∈ drives → (fsUUIDMatcher d tt).1 = false) ∧
  match_ drives tt fsUUIDMatcher = ([], true) ∧
  match_ drives tt fsUUIDMatcher ≠ (drives, true) ∧
  getMatchingDrives drives tt = [] ∧
  (∀ v1 v2, runMatcher v1 v2 drives tt = (None, noMatch)) ∧
  (∀ v1 v2, runMatcher v1 v2 drives tt ≠ (None, tooManyMatches)).
Proof.
  simpl. repeat split; try reflexivity; try discriminate.
Qed.

(** C1 (amended): for every device and every list of candidate drives,
    when a criterion matches none of the current candidates, [match]
    returns the empty candidate list together with the flag to continue,
    every later criterion of the chain then runs on the empty list and
    keeps it empty; with the criteria of the source, which match no drive,
    no candidate survives the chain and [runMatcher] returns "no match"
    (in particular for two candidate drives). *)
Theorem match_zero_matches_empties_candidates
    {DirectCSIDrive Device : Type} (v1 v2 : DirectCSIDrive → Device → bool)
    (drives : list DirectCSIDrive) (device : Device)
    (fn : matchFn) (chain : list matchFn) :
  (∀ d, d ∈ drives → (fn d device).1 = false) →
  match_ drives device fn = ([], true) ∧
  narrow (fn :: chain) drives device = narrow chain [] device ∧
  narrow chain [] device = [] ∧
  getMatchingDrives drives device = [] ∧
  runMatcher v1 v2 drives device = (None, noMatch).
Proof.
  intros Hnone.
  assert (Hm : match_ drives device fn = ([], true))
    by (by apply matchLoop_none).
  repeat split.
  - exact Hm.
  - simpl. by rewrite Hm.
  - apply narrow_nil.
  - apply getMatchingDrives_nil.
  - apply runMatcher_noMatch.
Qed.

Lemma match_zero_matches_empties_candidates_witness :
  match_ ["sda"; "sdb"]%string tt fsUUIDMatcher = ([], true) ∧
  narrow [fsUUIDMatcher; mountMatcher] ["sda"; "sdb"]%string tt
    = narrow [mountMatcher] [] tt ∧
  narrow [mountMatcher] ([] : list string) tt = [] ∧
  getMatchingDrives ["sda"; "sdb"]%string tt = [] ∧
  runMatcher (fun _ _ => true) (fun _ _ => true) ["sda"; "sdb"]%string tt
    = (None, noMatch).
Proof.
  apply (match_zero_matches_empties_candidates
           (fun _ _ => true) (fun _ _ => true)
           ["sda"; "sdb"]%string tt fsUUIDMatcher [mountMatcher]).
  intros d _. reflexivity.
Defined.

End MatcherFacts.

(** ** Device identity *)

Module DeviceFacts.
Import Device.

Lemma sorted_Sorted l : Sorted string_le (sorted l).
Proof. apply Sorted_merge_sort; apply _. Qed.

Lemma sorted_Permutation l : sorted l ≡ₚ l.
Proof. apply merge_sort_Permutation. Qed.

Lemma sorted_unique l1 l2 : l1 ≡ₚ l2 → sorted l1 = sorted l2.
Proof.
  intros Hp. apply (Sorted_unique string_le); try apply sorted_Sorted.
  by rewrite !sorted_Permutation.
Qed.

Lemma sorted_id l : Sorted string_le l → sorted l = l.
Proof.
  intros Hs. apply (Sorted_unique string_le);
    [apply sorted_Sorted|exact Hs|apply sorted_Permutation].
Qed.

Lemma sorted_idemp l : sorted (sorted l) = sorted l.
Proof. apply sorted_id, sorted_Sorted. Qed.

(** *** In-place sorting and the caller's snapshot *)

Lemma sorted_nil : sorted [] = [].
Proof. reflexivity. Qed.

Lemma elems_sort_Strings s s' h :
  elems (sort_Strings s h) s' =
  if decide (s = s') then sorted (elems h s') else elems h s'.
Proof.
  destruct s as [|p]; unfold sort_Strings.
  - case_decide; [subst; reflexivity|reflexivity].
  - destruct (h !! p) as [l|] eqn:Hp.
    + case_decide as Heq.
      * subst s'. unfold elems. by rewrite lookup_insert_eq, Hp.
      * destruct s' as [|p']; [reflexivity|]. unfold elems.
        rewrite lookup_insert_ne; [reflexivity|congruence].
    + case_decide; [subst s'; unfold elems; by rewrite Hp|reflexivity].
Qed.

Lemma ID_store S E d n h :
  (ID S E d n h).2 = sort_Strings (MountPoints d) (sort_Strings (Holders d) h).
Proof. reflexivity. Qed.

Lemma elems_ID S E d n h s :
  elems (ID S E d n h).2 s =
  if decide (s = Holders d ∨ s = MountPoints d) then sorted (elems h s)
  else elems h s.
Proof.
  rewrite ID_store, !elems_sort_Strings.
  repeat case_decide; subst; try reflexivity;
    try (exfalso; intuition congruence).
  apply sorted_idemp.
Qed.

(** C5 (as stated, refuted): a device whose holder list is [sdb, sda];
    after [ID] the caller's holder list reads [sda, sdb]. *)
Lemma ID_reorders_holders :
  let h : store := {[ 0%nat := ["sdb"; "sda"]%string ]} in
  let d := mkDevice "sdc" "8:32" 1024 false false false false
             (Slice 0%nat) nilSlice false false "" ∅ in
  elems h (Holders d) = ["sdb"; "sda"]%string ∧
  (∀ S E nodeID,
     elems (ID S E d nodeID h).2 (Holders d) = ["sda"; "sdb"]%string) ∧
  (∀ S E nodeID,
     elems (ID S E d nodeID h).2 (Holders d) ≠ elems h (Holders d)).
Proof.
  intros h d. split; [reflexivity|].
  split; intros S E nodeID; rewrite elems_ID; vm_compute;
    [reflexivity|discriminate].
Qed.

(** C5 (amended): computing the fingerprint keeps the elements of the
    holder and mount-point lists of the caller's snapshot but sorts both
    lists in place: afterwards each holds the increasing arrangement of
    its original elements (its original order only if that was already
    increasing), and every other array is untouched. [Make] reads no
    list. *)
Theorem ID_sorts_lists_in_place S E (d : Device) (nodeID : string) (h : store) :
  let h' := (ID S E d nodeID h).2 in
  (elems h' (Holders d) = sorted (elems h (Holders d)) ∧
   elems h' (Holders d) ≡ₚ elems h (Holders d) ∧
   Sorted string_le (elems h' (Holders d))) ∧
  (elems h' (MountPoints d) = sorted (elems h (MountPoints d)) ∧
   elems h' (MountPoints d) ≡ₚ elems h (MountPoints d) ∧
   Sorted string_le (elems h' (MountPoints d))) ∧
  (∀ s, s ≠ Holders d → s ≠ MountPoints d → elems h' s = elems h s) ∧
  (∀ s, Sorted string_le (elems h s) → elems h' s = elems h s).
Proof.
  intros h'; subst h'. repeat split.
  - rewrite elems_ID. case_decide; [reflexivity|exfalso; intuition congruence].
  - rewrite elems_ID. case_decide; [apply sorted_Permutation|reflexivity].
  - rewrite elems_ID. case_decide; [apply sorted_Sorted|exfalso; intuition congruence].
  - rewrite elems_ID. case_decide; [reflexivity|exfalso; intuition congruence].
  - rewrite elems_ID. case_decide; [apply sorted_Permutation|reflexivity].
  - rewrite elems_ID. case_decide; [apply sorted_Sorted|exfalso; intuition congruence].
  - intros s H1 H2. rewrite elems_ID. case_decide; [exfalso; intuition congruence|reflexivity].
  - intros s Hs. rewrite elems_ID. case_decide; [by apply sorted_id|reflexivity].
Qed.

(** *** The fingerprint as a function of the snapshot *)

Lemma string_app_length (a b : string) :
  String.length (a +:+ b) = (String.length a + String.length b)%nat.
Proof. induction a as [|x a IH]; simpl; [reflexivity|by rewrite IH]. Qed.

Lemma string_app_inj_r (a b s : string) : a +:+ s = b +:+ s → a = b.
Proof.
  revert b; induction a as [|x a IH]; intros [|y b] H; simpl in *.
  - reflexivity.
  - apply (f_equal String.length) in H. simpl in H.
    rewrite !string_app_length in H. simpl in H. lia.
  - apply (f_equal String.length) in H. simpl in H.
    rewrite !string_app_length in H. simpl in H. lia.
  - injection H as -> H. f_equal. by apply IH.
Qed.

(** Two joined lists that differ in one element differ. *)
Lemma Join_one_element_inj (l1 l2 : list string) (x y sep : string) :
  Join (l1 ++ x :: l2) sep = Join (l1 ++ y :: l2) sep → x = y.
Proof.
  unfold Join. induction l1 as [|a l1 IH]; simpl.
  - destruct l2 as [|b l2]; [done|]. apply string_app_inj_r.
  - destruct l1 as [|a' l1]; simpl in *.
    + intros H. apply (inj (String.app a)), (inj (String.app sep)) in H.
      by apply IH.
    + intros H. apply (inj (String.app a)), (inj (String.app sep)) in H.
      by apply IH.
Qed.

(** The lines of the hashed text, in the order of their keys. *)
Lemma toSlice_deviceMap_lines v1 v2 v3 v4 v5 v6 v7 v8 v9 v10 v11 v12 v13 v14 :
  toSlice (list_to_map
    [ ("node", v1); ("name", v2); ("majorminor", v3); ("size", v4);
      ("hidden", v5); ("removable", v6); ("readonly", v7);
      ("partitioned", v8); ("holders", v9); ("mountpoints", v10);
      ("swapon", v11); ("cdrom", v12); ("dmname", v13);
      ("udevdata", v14) ]%string) ":"
  = [ "cdrom:" +:+ v12; "dmname:" +:+ v13; "hidden:" +:+ v5;
      "holders:" +:+ v9; "majorminor:" +:+ v3; "mountpoints:" +:+ v10;
      "name:" +:+ v2; "node:" +:+ v1; "partitioned:" +:+ v8;
      "readonly:" +:+ v7; "removable:" +:+ v6; "size:" +:+ v4;
      "swapon:" +:+ v11; "udevdata:" +:+ v14 ]%string.
Proof. vm_compute. reflexivity. Qed.

Lemma stringToHash_lines d nodeID holders mountPoints :
  stringToHash d nodeID holders mountPoints =
  Join [ "cdrom:" +:+ Sprintf_bool (CDROM d);
         "dmname:" +:+ DMName d;
         "hidden:" +:+ Sprintf_bool (Hidden d);
         "holders:" +:+ Join holders ",";
         "majorminor:" +:+ MajorMinor d;
         "mountpoints:" +:+ Join mountPoints ",";
         "name:" +:+ Name d;
         "node:" +:+ nodeID;
         "partitioned:" +:+ Sprintf_bool (Partitioned d);
         "readonly:" +:+ Sprintf_bool (ReadOnly d);
         "removable:" +:+ Sprintf_bool (Removable d);
         "size:" +:+ Sprintf_uint64 (Size d);
         "swapon:" +:+ Sprintf_bool (SwapOn d);
         "udevdata:" +:+ Join (toSlice (udevData d) "=") ";" ]%string
       (String "010" "").
Proof.
  unfold stringToHash, deviceMap. by rewrite toSlice_deviceMap_lines.
Qed.

Lemma Sprintf_bool_inj b1 b2 : Sprintf_bool b1 = Sprintf_bool b2 → b1 = b2.
Proof. by destruct b1, b2. Qed.

Lemma Sprintf_uint64_inj n1 n2 : Sprintf_uint64 n1 = Sprintf_uint64 n2 → n1 = n2.
Proof. apply (inj pretty). Qed.

Lemma stringToHash_size_inj d nodeID holders mountPoints size :
  stringToHash (withSize d size) nodeID holders mountPoints
    = stringToHash d nodeID holders mountPoints →
  size = Size d.
Proof.
  rewrite !stringToHash_lines. simpl. intros H.
  apply (Join_one_element_inj
    [_; _; _; _; _; _; _; _; _; _; _] [_; _]) in H.
  apply (inj (String.app "size:")) in H. by apply Sprintf_uint64_inj.
Qed.

Lemma stringToHash_flag_inj d nodeID holders mountPoints f b :
  stringToHash (withFlag f b d) nodeID holders mountPoints
    = stringToHash d nodeID holders mountPoints →
  b = flagOf f d.
Proof.
  rewrite !stringToHash_lines. destruct f; simpl; intros H.
  - apply (Join_one_element_inj [_; _] [_; _; _; _; _; _; _; _; _; _; _]) in H.
    apply (inj (String.app "hidden:")) in H. by apply Sprintf_bool_inj.
  - apply (Join_one_element_inj [_; _; _; _; _; _; _; _; _; _] [_; _; _]) in H.
    apply (inj (String.app "removable:")) in H. by apply Sprintf_bool_inj.
  - apply (Join_one_element_inj [_; _; _; _; _; _; _; _; _] [_; _; _; _]) in H.
    apply (inj (String.app "readonly:")) in H. by apply Sprintf_bool_inj.
  - apply (Join_one_element_inj [_; _; _; _; _; _; _; _] [_; _; _; _; _]) in H.
    apply (inj (String.app "partitioned:")) in H. by apply Sprintf_bool_inj.
  - apply (Join_one_element_inj
      [_; _; _; _; _; _; _; _; _; _; _; _] [_]) in H.
    apply (inj (String.app "swapon:")) in H. by apply Sprintf_bool_inj.
  - apply (Join_one_element_inj
      [] [_; _; _; _; _; _; _; _; _; _; _; _; _]) in H.
    apply (inj (String.app "cdrom:")) in H. by apply Sprintf_bool_inj.
Qed.

Lemma stringToHash_holders_iff d nodeID holders holders' mountPoints :
  stringToHash d nodeID holders' mountPoints
    = stringToHash d nodeID holders mountPoints ↔
  Join holders' "," = Join holders ",".
Proof.
  rewrite !stringToHash_lines. split; [|by intros ->].
  intros H.
  apply (Join_one_element_inj [_; _; _] [_; _; _; _; _; _; _; _; _; _]) in H.
  by apply (inj (String.app "holders:")) in H.
Qed.

Lemma stringToHash_mountPoints_iff d nodeID holders mountPoints mountPoints' :
  stringToHash d nodeID holders mountPoints'
    = stringToHash d nodeID holders mountPoints ↔
  Join mountPoints' "," = Join mountPoints ",".
Proof.
  rewrite !stringToHash_lines. split; [|by intros ->].
  intros H.
  apply (Join_one_element_inj [_; _; _; _; _] [_; _; _; _; _; _; _; _]) in H.
  by apply (inj (String.app "mountpoints:")) in H.
Qed.

Lemma stringToHash_udevData_iff d nodeID holders mountPoints data :
  stringToHash (withUdevData d data) nodeID holders mountPoints
    = stringToHash d nodeID holders mountPoints ↔
  Join (toSlice data "=") ";" = Join (toSlice (udevData d) "=") ";".
Proof.
  rewrite !stringToHash_lines. simpl. split; [|by intros ->].
  intros H.
  apply (Join_one_element_inj
    [_; _; _; _; _; _; _; _; _; _; _; _; _] []) in H.
  by apply (inj (String.app "udevdata:")) in H.
Qed.

Lemma ID_fingerprint S E d nodeID h :
  (ID S E d nodeID h).1 =
  MajorMinor d +:+ "$" +:+ encodedDigest S E (hashedText d nodeID h).
Proof.
  unfold ID, hashedText, encodedDigest. cbn [fst].
  fold (sort_Strings (MountPoints d) (sort_Strings (Holders d) h)).
  rewrite <-(ID_store S E d nodeID h), !elems_ID.
  repeat case_decide; try reflexivity; exfalso; intuition congruence.
Qed.

Lemma hashedText_permutation d nodeID h holders mountPoints h' :
  elems h' holders ≡ₚ elems h (Holders d) →
  elems h' mountPoints ≡ₚ elems h (MountPoints d) →
  hashedText (withLists d holders mountPoints) nodeID h' = hashedText d nodeID h.
Proof.
  intros Hh Hm. unfold hashedText. cbn [withLists Holders MountPoints].
  rewrite (sorted_unique _ _ Hh), (sorted_unique _ _ Hm).
  by rewrite !stringToHash_lines.
Qed.

Lemma store_perm_refl h : store_perm h h.
Proof. by intros sl. Qed.

Lemma store_perm_trans h1 h2 h3 :
  store_perm h1 h2 → store_perm h2 h3 → store_perm h1 h3.
Proof. intros H12 H23 sl. etrans; [apply H23|apply H12]. Qed.

Lemma ID_store_perm S E d nodeID h : store_perm h (ID S E d nodeID h).2.
Proof.
  intros sl. rewrite elems_ID.
  case_decide; [apply sorted_Permutation|reflexivity].
Qed.

Lemma ID_value_store_perm S E d nodeID h1 h2 :
  store_perm h1 h2 → (ID S E d nodeID h2).1 = (ID S E d nodeID h1).1.
Proof.
  intros Hp. rewrite !ID_fingerprint. unfold hashedText.
  by rewrite (sorted_unique _ _ (Hp (Holders d))),
             (sorted_unique _ _ (Hp (MountPoints d))).
Qed.

(** C6 (as stated, refuted): one mount point named [/mnt/a,/mnt/b]
    and the two mount points [/mnt/a] and [/mnt/b] are different
    mount-point lists (not even rearrangements of each other), yet for
    every digest, encoding and node the two snapshots have the same
    fingerprint: both lists are joined to the same text. *)
Lemma ID_same_for_different_mount_points :
  let d := mkDevice "sdc" "8:32" 1024 false false false false
             nilSlice (Slice 0%nat) false false "" ∅ in
  let h1 : store := {[ 0%nat := ["/mnt/a,/mnt/b"]%string ]} in
  let h2 : store := {[ 0%nat := ["/mnt/a"; "/mnt/b"]%string ]} in
  elems h1 (MountPoints d) ≠ elems h2 (MountPoints d) ∧
  length (elems h1 (MountPoints d)) ≠ length (elems h2 (MountPoints d)) ∧
  ∀ S E nodeID, (ID S E d nodeID h1).1 = (ID S E d nodeID h2).1.
Proof.
  intros d h1 h2. split; [vm_compute; discriminate|].
  split; [vm_compute; discriminate|].
  intros S E nodeID. rewrite !ID_fingerprint.
  apply (f_equal (fun t => MajorMinor d +:+ "$" +:+ encodedDigest S E t)).
  unfold hashedText. apply stringToHash_mountPoints_iff.
  vm_compute. reflexivity.
Qed.

(** C6 (amended): for every snapshot and node, the fingerprint is
    unchanged under any rearrangement of the holder list and of the
    mount-point list. A change of the size alone or of one flag alone
    changes the text that is hashed; a change of the holders, of the mount
    points or of the raw metadata alone changes that text exactly when it
    changes their sorted, joined rendering. Two snapshots with the same
    major:minor have the same fingerprint exactly when the encoded digests
    of their texts coincide. *)
Theorem ID_fingerprint_dependence S E (d : Device) (nodeID : string) (h : store) :
  (∀ holders mountPoints h',
     elems h' holders ≡ₚ elems h (Holders d) →
     elems h' mountPoints ≡ₚ elems h (MountPoints d) →
     (ID S E (withLists d holders mountPoints) nodeID h').1
       = (ID S E d nodeID h).1) ∧
  (∀ size, size ≠ Size d →
     hashedText (withSize d size) nodeID h ≠ hashedText d nodeID h) ∧
  (∀ f b, b ≠ flagOf f d →
     hashedText (withFlag f b d) nodeID h ≠ hashedText d nodeID h) ∧
  (∀ h', elems h' (MountPoints d) = elems h (MountPoints d) →
     (hashedText d nodeID h' = hashedText d nodeID h ↔
      Join (sorted (elems h' (Holders d))) ","
        = Join (sorted (elems h (Holders d))) ",")) ∧
  (∀ h', elems h' (Holders d) = elems h (Holders d) →
     (hashedText d nodeID h' = hashedText d nodeID h ↔
      Join (sorted (elems h' (MountPoints d))) ","
        = Join (sorted (elems h (MountPoints d))) ",")) ∧
  (∀ data,
     hashedText (withUdevData d data) nodeID h = hashedText d nodeID h ↔
     Join (toSlice data "=") ";" = Join (toSlice (udevData d) "=") ";") ∧
  (∀ d' h', MajorMinor d' = MajorMinor d →
     ((ID S E d' nodeID h').1 = (ID S E d nodeID h).1 ↔
      encodedDigest S E (hashedText d' nodeID h')
        = encodedDigest S E (hashedText d nodeID h))).
Proof.
  split; [|split; [|split; [|split; [|split; [|split]]]]].
  - intros holders mountPoints h' Hh Hm. rewrite !ID_fingerprint.
    by rewrite (hashedText_permutation d nodeID h holders mountPoints h').
  - intros size Hne Heq. apply Hne. unfold hashedText in Heq.
    by apply stringToHash_size_inj in Heq.
  - intros f b Hne Heq. apply Hne. unfold hashedText in Heq.
    destruct f; by apply stringToHash_flag_inj in Heq.
  - intros h' Hm. unfold hashedText. rewrite Hm.
    apply stringToHash_holders_iff.
  - intros h' Hh. unfold hashedText. rewrite Hh.
    apply stringToHash_mountPoints_iff.
  - intros data. unfold hashedText. apply stringToHash_udevData_iff.
  - intros d' h' Hmm. rewrite !ID_fingerprint, Hmm. split.
    + intros Heq.
      by apply (inj (String.app _)), (inj (String.app _)) in Heq.
    + by intros ->.
Qed.

Lemma ID_fingerprint_dependence_witness :
  let S := fun b : list byte => b in
  let E := string_of_list_byte in
  let d := mkDevice "sdc" "8:32" 1024 false false false false
             (Slice 0%nat) nilSlice false false "" ∅ in
  let h : store :=
    {[ 0%nat := ["dm-1"; "dm-0"]%string; 1%nat := ["dm-0"; "dm-1"]%string ]} in
  (ID S E (withLists d (Slice 1%nat) nilSlice) "node-1" h).1
    = (ID S E d "node-1" h).1 ∧
  hashedText (withSize d 2048) "node-1" h ≠ hashedText d "node-1" h ∧
  hashedText (withFlag flagReadOnly true d) "node-1" h
    ≠ hashedText d "node-1" h.
Proof.
  intros S E d h.
  destruct (ID_fingerprint_dependence S E d "node-1" h)
    as (Hperm & Hsize & Hflag & _).
  split; [|split].
  - apply Hperm.
    + vm_compute. apply perm_swap.
    + vm_compute. apply perm_nil.
  - apply Hsize. vm_compute. discriminate.
  - apply Hflag. vm_compute. discriminate.
Defined.

Lemma ID_sorts_lists_in_place_witness :
  let S := fun b : list byte => b in
  let E := string_of_list_byte in
  let d := mkDevice "sdc" "8:32" 1024 false false false false
             (Slice 0%nat) (Slice 1%nat) false false "" ∅ in
  let h : store :=
    {[ 0%nat := ["dm-1"; "dm-0"]%string; 1%nat := ["/mnt"]%string;
       2%nat := ["z"; "a"]%string ]} in
  elems (ID S E d "node-1" h).2 (Holders d) = ["dm-0"; "dm-1"]%string ∧
  elems (ID S E d "node-1" h).2 (MountPoints d) = ["/mnt"]%string ∧
  elems (ID S E d "node-1" h).2 (Slice 2%nat) = ["z"; "a"]%string.
Proof.
  intros S E d h.
  destruct (ID_sorts_lists_in_place S E d "node-1" h)
    as ((Hh & _) & (_ & _) & Hother & Hsorted).
  split; [|split].
  - rewrite Hh. vm_compute. reflexivity.
  - rewrite (Hsorted (MountPoints d)); [reflexivity|].
    vm_compute. repeat constructor.
  - rewrite (Hother (Slice 2%nat)); [reflexivity|discriminate|discriminate].
Defined.

End DeviceFacts.

(** ** The initialization handler *)

Module InitRequestFacts.
Import Go InitRequest.

Section HandlerFacts.

Variable W : Type.
Variable Sum256 : list byte → list byte.
Variable EncodeToString : list byte → string.
Variable AddDevPrefix : string → string.
Variable uuid_New : W → string * W.
Variable DriveClient_Create : Drive → W → option error * W.
Variable InitRequestClient_Get : string → W → (error + InitRequestT) * W.
Variable InitRequestClient_Update : InitRequestT → W → option error * W.

Local Abbreviation initDevice_stages :=
  (InitRequest.initDevice_stages DriveClient_Create).
Local Abbreviation initDevice :=
  (InitRequest.initDevice AddDevPrefix uuid_New DriveClient_Create).
Local Abbreviation initDevicesLoop :=
  (InitRequest.initDevicesLoop Sum256 EncodeToString AddDevPrefix uuid_New
     DriveClient_Create).
Local Abbreviation initDevices :=
  (InitRequest.initDevices Sum256 EncodeToString AddDevPrefix uuid_New
     DriveClient_Create).
Local Abbreviation slotOutcome :=
  (InitRequest.slotOutcome AddDevPrefix uuid_New DriveClient_Create).
Local Abbreviation slotDecided :=
  (InitRequest.slotDecided AddDevPrefix uuid_New DriveClient_Create).
Local Abbreviation Handle :=
  (InitRequest.Handle Sum256 EncodeToString AddDevPrefix uuid_New
     DriveClient_Create InitRequestClient_Get InitRequestClient_Update).

(** *** Properties of [initDevice] *)

(** Unfolds one run of a computation down to the calls it makes. *)
Ltac unfold_prog :=
  unfold mbind, mret, prog_bind, prog_ret, bind, ret, call in *.

Lemma initDevice_deferred_None (handler : initRequestEventHandler W) fsuuid s :
  initDevice_deferred handler fsuuid None s = (None, s, []).
Proof. reflexivity. Qed.

Lemma initDevice_deferred_Some (handler : initRequestEventHandler W) fsuuid e
    s :
  initDevice_deferred handler fsuuid (Some e) s =
  let '(uerr, w) := unmount handler fsuuid (world s) in
  (Some (match uerr with Some ue => Errorf_w_v e ue | None => e end),
   mkState w (arrays s), [CallUnmount fsuuid]).
Proof.
  unfold initDevice_deferred. unfold_prog.
  destruct (unmount handler fsuuid (world s)) as [[ue|] w]; reflexivity.
Qed.

(** The run of [initDevice] once the device is formatted and mounted:
    the later stages, then the deferred function, and the value of the
    [return] statement as the result. *)
Lemma initDevice_after_mount handler device force reflink s
    deviceMap majorMinorMap w1 fsuuid w2 x y totalCapacity freeCapacity w3 w4 :
  let devPath := AddDevPrefix (Device.Name device) in
  getMounts handler (world s) = (inr (deviceMap, majorMinorMap), w1) →
  mountPointsOf deviceMap majorMinorMap (Device.MajorMinor device) = [] →
  uuid_New w1 = (fsuuid, w2) →
  makeFS handler devPath fsuuid force reflink w2
    = ((x, y, totalCapacity, freeCapacity, None), w3) →
  mount handler devPath fsuuid w3 = (None, w4) →
  initDevice handler device force reflink s =
  let '(r, s5, t5) :=
    initDevice_stages handler device fsuuid totalCapacity freeCapacity
      (mkState w4 (arrays s)) in
  let '(_, s6, t6) := initDevice_deferred handler fsuuid r.2 s5 in
  (r.1, s6,
   [CallGetMounts; CallUUIDNew; CallMakeFS devPath fsuuid force reflink;
    CallMount devPath fsuuid] ++ t5 ++ t6).
Proof.
  intros devPath Hmounts Hmm Huuid Hmkfs Hmount.
  unfold initDevice. fold devPath. unfold_prog.
  rewrite Hmounts. cbn [world arrays]. rewrite Hmm. cbn.
  rewrite Huuid. cbn. rewrite Hmkfs. cbn. rewrite Hmount. cbn.
  destruct (initDevice_stages _ _ _ _ _ _) as [[[result err] s5] t5].
  destruct (initDevice_deferred _ _ _ _) as [[e' s6] t6].
  cbn. by rewrite app_nil_r.
Qed.

(** The later stages end with [err = nil] exactly when they return
    [nil]. *)
Lemma initDevice_stages_result handler device fsuuid total free s :
  let r := (initDevice_stages handler device fsuuid total free s).1.1 in
  (r.1 = None ∧ r.2 = None) ∨ (is_Some r.1 ∧ is_Some r.2).
Proof.
  unfold initDevice_stages. unfold_prog.
  destruct (symlink handler fsuuid _) as [[e|] w1]; cbn; [right; eauto|].
  destruct (makeMetaDir handler fsuuid _) as [[e|] w2]; cbn; [right; eauto|].
  destruct (writeFile handler fsuuid _ _) as [[e|] w3]; cbn; [right; eauto|].
  destruct (DriveClient_Create _ _) as [[e|] w4]; cbn; [right; eauto|].
  left; eauto.
Qed.

(** Every failure at the register-metadata stage or later is followed by
    the unmount, as the last call; a success is followed by none. *)
Lemma initDevice_unmounts_on_late_failure handler device force reflink s
    deviceMap majorMinorMap w1 fsuuid w2 x y totalCapacity freeCapacity w3 w4 :
  let devPath := AddDevPrefix (Device.Name device) in
  getMounts handler (world s) = (inr (deviceMap, majorMinorMap), w1) →
  mountPointsOf deviceMap majorMinorMap (Device.MajorMinor device) = [] →
  uuid_New w1 = (fsuuid, w2) →
  makeFS handler devPath fsuuid force reflink w2
    = ((x, y, totalCapacity, freeCapacity, None), w3) →
  mount handler devPath fsuuid w3 = (None, w4) →
  let '(result, _, t) := initDevice handler device force reflink s in
  (is_Some result → last t = Some (CallUnmount fsuuid)) ∧
  (result = None → CallUnmount fsuuid ∉ t).
Proof.
  intros devPath Hmounts Hmm Huuid Hmkfs Hmount.
  rewrite (initDevice_after_mount _ _ _ _ _ _ _ _ _ _ _ _ _ _ _ _
             Hmounts Hmm Huuid Hmkfs Hmount).
  fold devPath.
  unfold initDevice_stages, initDevice_deferred. unfold_prog.
  cbn [world arrays].
  destruct (symlink handler fsuuid _) as [[e|] w5]; cbn.
  { destruct (unmount handler fsuuid w5) as [[ue|] w6]; cbn;
      (split; [reflexivity|discriminate]). }
  destruct (makeMetaDir handler fsuuid _) as [[e|] w6]; cbn.
  { destruct (unmount handler fsuuid w6) as [[ue|] w7]; cbn;
      (split; [reflexivity|discriminate]). }
  destruct (writeFile handler fsuuid _ _) as [[e|] w7]; cbn.
  { destruct (unmount handler fsuuid w7) as [[ue|] w8]; cbn;
      (split; [reflexivity|discriminate]). }
  destruct (DriveClient_Create _ _) as [[e|] w8]; cbn.
  { destruct (unmount handler fsuuid w8) as [[ue|] w9]; cbn;
      (split; [reflexivity|discriminate]). }
  split; [by intros [? ?]|]. intros _ Hin.
  repeat (apply elem_of_cons in Hin as [Hin|Hin]; [discriminate|]).
  by apply elem_of_nil in Hin.
Qed.

(** C4 (amended): when creating the Drive record fails after the device
    has been formatted, mounted and labeled, the compensating unmount is
    performed as the last call before [initDevice] returns, and the
    failure is surfaced (as "unable to create Drive CRD; ..."), whatever
    the unmount answers. The host is left as the unmount left it, and the
    arrays of the device lists as they were. *)
Theorem initDevice_unmounts_when_create_fails handler device force reflink s
    deviceMap majorMinorMap w1 fsuuid w2 x y totalCapacity freeCapacity
    w3 w4 w5 w6 w7 e w8 :
  let devPath := AddDevPrefix (Device.Name device) in
  let drive := driveOf handler device fsuuid totalCapacity freeCapacity in
  getMounts handler (world s) = (inr (deviceMap, majorMinorMap), w1) →
  mountPointsOf deviceMap majorMinorMap (Device.MajorMinor device) = [] →
  uuid_New w1 = (fsuuid, w2) →
  makeFS handler devPath fsuuid force reflink w2
    = ((x, y, totalCapacity, freeCapacity, None), w3) →
  mount handler devPath fsuuid w3 = (None, w4) →
  symlink handler fsuuid w4 = (None, w5) →
  makeMetaDir handler fsuuid w5 = (None, w6) →
  writeFile handler fsuuid (metaFileData fsuuid) w6 = (None, w7) →
  DriveClient_Create drive w7 = (Some e, w8) →
  let '(result, s', t) := initDevice handler device force reflink s in
  t = [CallGetMounts; CallUUIDNew; CallMakeFS devPath fsuuid force reflink;
       CallMount devPath fsuuid; CallSymlink fsuuid; CallMakeMetaDir fsuuid;
       CallWriteFile fsuuid (metaFileData fsuuid); CallDriveCreate drive;
       CallUnmount fsuuid] ∧
  world s' = (unmount handler fsuuid w8).2 ∧
  arrays s' = arrays s ∧
  is_Some result ∧
  result = Some (Errorf_w "unable to create Drive CRD; " e).
Proof.
  intros devPath drive Hmounts Hmm Huuid Hmkfs Hmount Hsym Hdir Hfile Hcreate.
  rewrite (initDevice_after_mount _ _ _ _ _ _ _ _ _ _ _ _ _ _ _ _
             Hmounts Hmm Huuid Hmkfs Hmount).
  fold devPath.
  unfold initDevice_stages, initDevice_deferred. unfold_prog.
  cbn [world arrays]. rewrite Hsym. cbn. rewrite Hdir. cbn.
  rewrite Hfile. cbn. fold drive. rewrite Hcreate. cbn.
  destruct (unmount handler fsuuid w8) as [[ue|] w9]; cbn; eauto 10.
Qed.

(** *** Properties of [initDevices] *)

Lemma call_arrays {A} ev (op : W → A * W) s :
  arrays (call ev op s).1.2 = arrays s.
Proof. unfold call. by destruct (op (world s)). Qed.

(** [initDevice] leaves the arrays of the device slices alone. *)
Lemma initDevice_arrays handler device force reflink s :
  arrays (initDevice handler device force reflink s).1.2 = arrays s.
Proof.
  unfold initDevice, initDevice_stages, initDevice_deferred. unfold_prog.
  destruct (getMounts handler (world s)) as [[err|[deviceMap majorMinorMap]] w1];
    cbn; [reflexivity|].
  destruct (negb _); cbn; [reflexivity|].
  destruct (uuid_New w1) as [fsuuid w2]; cbn.
  destruct (makeFS handler _ _ _ _ w2) as [[[[[x y] total] free] [e|]] w3];
    cbn; [reflexivity|].
  destruct (mount handler _ _ w3) as [[e|] w4]; cbn; [reflexivity|].
  destruct (symlink handler _ w4) as [[e|] w5]; cbn.
  { by destruct (unmount handler _ w5) as [[ue|] w6]. }
  destruct (makeMetaDir handler _ w5) as [[e|] w6]; cbn.
  { by destruct (unmount handler _ w6) as [[ue|] w7]. }
  destruct (writeFile handler _ _ w6) as [[e|] w7]; cbn.
  { by destruct (unmount handler _ w7) as [[ue|] w8]. }
  destruct (DriveClient_Create _ w7) as [[e|] w8]; cbn; [|reflexivity].
  by destruct (unmount handler _ w8) as [[ue|] w9].
Qed.

(** One turn of the loop of [initDevices], case by case. *)
Lemma initDevicesLoop_not_found handler probed i req rest results s :
  probed !! InitDevice_MajorMinor req = None →
  initDevicesLoop handler probed i (req :: rest) results s =
  initDevicesLoop handler probed (S i) rest
    (alter (setError "device not found") i
       (alter (setName (InitDevice_Name req)) i results)) s.
Proof. intros Hp. cbn [initDevicesLoop]. by rewrite Hp. Qed.

Lemma initDevicesLoop_changed handler probed i req rest results s device :
  probed !! InitDevice_MajorMinor req = Some device →
  (Device.ID Sum256 EncodeToString device (nodeID handler) (arrays s)).1
    ≠ InitDevice_ID req →
  initDevicesLoop handler probed i (req :: rest) results s =
  initDevicesLoop handler probed (S i) rest
    (alter (setError "device state changed") i
       (alter (setName (InitDevice_Name req)) i results))
    (mkState (world s)
       (Device.ID Sum256 EncodeToString device (nodeID handler) (arrays s)).2).
Proof.
  intros Hp Hne. cbn [initDevicesLoop]. rewrite Hp.
  unfold_prog. unfold deviceID.
  destruct (Device.ID _ _ _ _ _) as [id h] eqn:Hid. cbn in Hne |- *.
  apply String.eqb_neq in Hne. rewrite Hne. cbn.
  by destruct (initDevicesLoop _ _ _ _ _ _) as [[r s'] t].
Qed.

Lemma initDevicesLoop_launch handler probed i req rest results s device :
  probed !! InitDevice_MajorMinor req = Some device →
  (Device.ID Sum256 EncodeToString device (nodeID handler) (arrays s)).1
    = InitDevice_ID req →
  initDevicesLoop handler probed i (req :: rest) results s =
  let s1 :=
    mkState (world s)
      (Device.ID Sum256 EncodeToString device (nodeID handler) (arrays s)).2 in
  let '(err, s2, evs) :=
    initDevice handler device (InitDevice_Force req) (reflink handler) s1 in
  let '(r, s3, t) :=
    initDevicesLoop handler probed (S i) rest
      match err with
      | Some e =>
          alter (setError (message e)) i
            (alter (setName (InitDevice_Name req)) i results)
      | None => alter (setName (InitDevice_Name req)) i results
      end s2 in
  (r, s3, Goroutine i evs :: t).
Proof.
  intros Hp Heq. cbn [initDevicesLoop]. rewrite Hp.
  unfold_prog. unfold deviceID, goroutine.
  destruct (Device.ID _ _ _ _ _) as [id h] eqn:Hid. cbn in Heq |- *.
  apply String.eqb_eq in Heq. rewrite Heq. cbn.
  destruct (initDevice _ _ _ _ _) as [[err s2] evs].
  by destruct (initDevicesLoop _ _ _ _ _ _) as [[r s3] t].
Qed.

Lemma initDevicesLoop_spec handler probed h1 rest :
  ∀ i results s,
  Device.store_perm h1 (arrays s) →
  (∀ j, (i ≤ j < i + length rest)%nat →
        results !! j = Some (mkInitDeviceResult "" "")) →
  let idOf device :=
    (Device.ID Sum256 EncodeToString device (nodeID handler) h1).1 in
  let '(r, s', t) := initDevicesLoop handler probed i rest results s in
  length r = length results ∧
  (∀ j, (j < i)%nat → r !! j = results !! j) ∧
  (∀ ev, ev ∈ t → ∃ j evs, ev = Goroutine j evs ∧ (i ≤ j)%nat) ∧
  (∀ k req, rest !! k = Some req →
     slotOutcome handler idOf r t (i + k) req
       (probed !! InitDevice_MajorMinor req)).
Proof.
  induction rest as [|req rest IH]; intros i results s Hperm Hfresh idOf.
  { cbn. repeat split; try done. intros ev Hev. by apply elem_of_nil in Hev. }
  assert (Hi : results !! i = Some (mkInitDeviceResult "" ""))
    by (apply Hfresh; cbn; lia).
  assert (Hfresh' : ∀ f g j, (S i ≤ j < S i + length rest)%nat →
            alter f i (alter g i results) !! j
              = Some (mkInitDeviceResult "" "")).
  { intros f g j Hj. rewrite !list_lookup_alter_ne by lia.
    apply Hfresh. cbn. lia. }
  assert (Hfresh'' : ∀ g j, (S i ≤ j < S i + length rest)%nat →
            alter g i results !! j = Some (mkInitDeviceResult "" "")).
  { intros g j Hj. rewrite !list_lookup_alter_ne by lia.
    apply Hfresh. cbn. lia. }
  destruct (probed !! InitDevice_MajorMinor req) as [device|] eqn:Hp.
  2:{ (* device not found *)
    rewrite initDevicesLoop_not_found by done.
    specialize (IH (S i)
      (alter (setError "device not found") i
         (alter (setName (InitDevice_Name req)) i results))
      s Hperm (Hfresh' _ _)).
    cbn zeta in IH.
    destruct (initDevicesLoop _ _ _ _ _ _) as [[r s'] t].
    destruct IH as (Hlen & Hlow & Hev & Hslots).
    split; [by rewrite Hlen, !length_alter|].
    split; [intros j Hj; rewrite Hlow, !list_lookup_alter_ne by lia; done|].
    split.
    { intros ev Hin. destruct (Hev ev Hin) as (j & evs & -> & Hj).
      exists j, evs. split; [done|lia]. }
    intros [|k] req' Hk.
    - injection Hk as <-. rewrite Nat.add_0_r. unfold slotOutcome.
      rewrite Hp. split.
      + rewrite Hlow, !list_lookup_alter_eq, Hi by lia. reflexivity.
      + intros evs Hin. destruct (Hev _ Hin) as (j & evs' & Heq & Hj).
        injection Heq as -> _. lia.
    - replace (i + S k)%nat with (S i + k)%nat by lia. by apply Hslots. }
  pose proof (DeviceFacts.ID_value_store_perm Sum256 EncodeToString device
                (nodeID handler) h1 (arrays s) Hperm) as Hid.
  pose proof (DeviceFacts.ID_store_perm Sum256 EncodeToString device
                (nodeID handler) (arrays s)) as Hperm1.
  destruct (decide
    ((Device.ID Sum256 EncodeToString device (nodeID handler) (arrays s)).1
       = InitDevice_ID req)) as [Heq|Hne].
  2:{ (* device state changed *)
    rewrite (initDevicesLoop_changed _ _ _ _ _ _ _ device) by done.
    specialize (IH (S i)
      (alter (setError "device state changed") i
         (alter (setName (InitDevice_Name req)) i results))
      (mkState (world s)
         (Device.ID Sum256 EncodeToString device (nodeID handler)
            (arrays s)).2)
      (DeviceFacts.store_perm_trans _ _ _ Hperm Hperm1) (Hfresh' _ _)).
    cbn zeta in IH.
    destruct (initDevicesLoop _ _ _ _ _ _) as [[r s'] t].
    destruct IH as (Hlen & Hlow & Hev & Hslots).
    split; [by rewrite Hlen, !length_alter|].
    split; [intros j Hj; rewrite Hlow, !list_lookup_alter_ne by lia; done|].
    split.
    { intros ev Hin. destruct (Hev ev Hin) as (j & evs & -> & Hj).
      exists j, evs. split; [done|lia]. }
    intros [|k] req' Hk.
    - injection Hk as <-. rewrite Nat.add_0_r. unfold slotOutcome.
      rewrite Hp. subst idOf. cbn beta. rewrite <-Hid.
      apply String.eqb_neq in Hne. rewrite Hne. split.
      + rewrite Hlow, !list_lookup_alter_eq, Hi by lia. reflexivity.
      + intros evs Hin. destruct (Hev _ Hin) as (j & evs' & Heq' & Hj).
        injection Heq' as -> _. lia.
    - replace (i + S k)%nat with (S i + k)%nat by lia. by apply Hslots. }
  (* the pipeline is launched *)
  rewrite (initDevicesLoop_launch _ _ _ _ _ _ _ device) by done. cbn zeta.
  pose proof (initDevice_arrays handler device (InitDevice_Force req)
    (reflink handler)
    (mkState (world s)
       (Device.ID Sum256 EncodeToString device (nodeID handler)
          (arrays s)).2)) as Harr.
  destruct (initDevice _ _ _ _ _) as [[err s2] evs] eqn:Hrun.
  cbn in Harr.
  assert (Hperm2 : Device.store_perm h1 (arrays s2)).
  { rewrite Harr. exact (DeviceFacts.store_perm_trans _ _ _ Hperm Hperm1). }
  set (results' := match err with
                   | Some e => alter (setError (message e)) i
                                 (alter (setName (InitDevice_Name req)) i results)
                   | None => alter (setName (InitDevice_Name req)) i results
                   end).
  assert (Hfr : ∀ j, (S i ≤ j < S i + length rest)%nat →
            results' !! j = Some (mkInitDeviceResult "" "")).
  { intros j Hj. subst results'. destruct err; [by apply Hfresh'|by apply Hfresh'']. }
  assert (Hlen' : length results' = length results).
  { subst results'. destruct err; by rewrite !length_alter. }
  assert (Hlow' : ∀ j, (j < i)%nat → results' !! j = results !! j).
  { intros j Hj. subst results'.
    destruct err; by rewrite !list_lookup_alter_ne by lia. }
  assert (Hslot : results' !! i
            = Some (mkInitDeviceResult (InitDevice_Name req)
                      match err with Some e => message e | None => "" end)).
  { subst results'. destruct err; rewrite !list_lookup_alter_eq, Hi; done. }
  specialize (IH (S i) results' s2 Hperm2 Hfr). cbn zeta in IH.
  destruct (initDevicesLoop _ _ _ _ _ _) as [[r s'] t].
  destruct IH as (Hlen & Hlow & Hev & Hslots).
  split; [by rewrite Hlen|].
  split; [intros j Hj; rewrite Hlow, Hlow' by lia; done|].
  split.
  { intros ev Hin. apply elem_of_cons in Hin as [->|Hin].
    - exists i, evs. split; [done|lia].
    - destruct (Hev ev Hin) as (j & evs' & -> & Hj).
      exists j, evs'. split; [done|lia]. }
  intros [|k] req' Hk.
  - injection Hk as <-. rewrite Nat.add_0_r. unfold slotOutcome.
    rewrite Hp. subst idOf. cbn beta. rewrite <-Hid.
    apply String.eqb_eq in Heq. rewrite Heq.
    eexists _, err, s2, evs. split; [exact Hrun|].
    split; [apply list_elem_of_here|]. split.
    + intros evs' Hin. apply elem_of_cons in Hin as [Heq'|Hin].
      * by injection Heq' as ->.
      * destruct (Hev _ Hin) as (j & evs'' & Heq' & Hj).
        injection Heq' as -> _. lia.
    + rewrite Hlow by lia. exact Hslot.
  - replace (i + S k)%nat with (S i + k)%nat by lia.
    specialize (Hslots k req' Hk). unfold slotOutcome in Hslots |- *.
    destruct (probed !! InitDevice_MajorMinor req') as [device'|].
    + destruct (String.eqb _ _).
      * destruct Hslots as (si & err' & si' & evs' & Hr & Hin & Huniq & Hres).
        exists si, err', si', evs'. split; [done|].
        split; [by apply list_elem_of_further|]. split; [|done].
        intros evs'' Hin'. apply elem_of_cons in Hin' as [Heq'|Hin'].
        -- injection Heq' as Hik _. lia.
        -- by apply Huniq.
      * destruct Hslots as [Hres Hno]. split; [done|].
        intros evs' Hin. apply elem_of_cons in Hin as [Heq'|Hin].
        -- injection Heq' as Hik _. lia.
        -- by apply (Hno evs').
    + destruct Hslots as [Hres Hno]. split; [done|].
      intros evs' Hin. apply elem_of_cons in Hin as [Heq'|Hin].
      -- injection Heq' as Hik _. lia.
      -- by apply (Hno evs').
Qed.

(** The map [probedDevices] and the list it is made from. *)
Lemma probedDevices_skip (after : list Device.Device) (majorMinor : string) :
  ∀ m : gmap string Device.Device,
  (∀ later, later ∈ after → Device.MajorMinor later ≠ majorMinor) →
  foldl (fun m device => <[Device.MajorMinor device := device]> m) m after
    !! majorMinor
  = m !! majorMinor.
Proof.
  induction after as [|device after IH]; intros m Hafter; [done|].
  cbn [foldl]. rewrite IH.
  - apply lookup_insert_ne, Hafter, list_elem_of_here.
  - intros later Hin. by apply Hafter, list_elem_of_further.
Qed.

Lemma probedDevicesOf_absent (devices : list Device.Device)
    (majorMinor : string) :
  (∀ device, device ∈ devices → Device.MajorMinor device ≠ majorMinor) →
  probedDevicesOf devices !! majorMinor = None.
Proof.
  intros Habsent. unfold probedDevicesOf.
  by rewrite probedDevices_skip.
Qed.

Lemma probedDevicesOf_last (before after : list Device.Device)
    (device : Device.Device) :
  (∀ later, later ∈ after →
     Device.MajorMinor later ≠ Device.MajorMinor device) →
  probedDevicesOf (before ++ device :: after) !! Device.MajorMinor device
  = Some device.
Proof.
  intros Hafter. unfold probedDevicesOf.
  rewrite foldl_app. cbn [foldl].
  rewrite probedDevices_skip by done. apply lookup_insert_eq.
Qed.


(** *** Properties of [Handle] *)

(** C8: for every event whose InitRequest already holds a response for
    the handler's node, [Handle] returns [nil] at once: it makes no call
    (no probe, no initialization, no read or update of the request) and
    leaves the state as it found it. *)
Theorem Handle_already_processed handler args s (response : InitResult) :
  Spec_Response (Object args) ≫= (.!! nodeID handler) = Some response →
  Handle handler args s = (Value tt, s, []).
Proof.
  intros Hfound. unfold Handle.
  destruct (Event args); try reflexivity; by rewrite Hfound.
Qed.

End HandlerFacts.

(** C3 (the code departs from the claim): the symlink fails after a
    successful mount and the compensating unmount fails as well. The
    unmount is called last, but [initDevice] returns the symlink error
    alone: the unmount error is not appended to it. *)
Theorem initDevice_drops_unmount_error :
  let serr := Errorf "unable to create symlink" in
  let uerr := Errorf "unable to unmount" in
  initDevice sampleAddDevPrefix sampleUUID (sampleCreate None)
    (sampleHandler (Some serr) (Some uerr)) sampleDevice false false
    sampleState
  = (Some serr, mkState ["6f1a"%string] sampleArrays,
     [CallGetMounts; CallUUIDNew; CallMakeFS "/dev/sdb" "6f1a" false false;
      CallMount "/dev/sdb" "6f1a"; CallSymlink "6f1a"; CallUnmount "6f1a"]) ∧
  message serr ≠ message (Errorf_w_v serr uerr).
Proof. split; [vm_compute; reflexivity|vm_compute; discriminate]. Qed.

(** C4 (as stated, refuted): format, mount and the metadata stages
    succeed and creating the Drive record fails; the unmount is called
    and the filesystem is no longer mounted when [initDevice] returns. *)
Lemma initDevice_create_failure_unmounts :
  let cerr := mkError "already exists" StatusReasonConflict in
  let '(result, s', t) :=
    initDevice sampleAddDevPrefix sampleUUID
      (sampleCreate (Some cerr)) (sampleHandler None None)
      sampleDevice false false sampleState in
  result = Some (Errorf_w "unable to create Drive CRD; " cerr) ∧
  last t = Some (CallUnmount "6f1a") ∧
  CallMount "/dev/sdb" "6f1a" ∈ t ∧
  world s' = [].
Proof.
  vm_compute. repeat split.
  do 3 apply list_elem_of_further. apply list_elem_of_here.
Qed.

Lemma initDevice_unmounts_when_create_fails_witness :
  let cerr := mkError "already exists" StatusReasonConflict in
  let uerr := Errorf "unable to unmount" in
  (let '(result, s', t) :=
     initDevice sampleAddDevPrefix sampleUUID
       (sampleCreate (Some cerr)) (sampleHandler None None)
       sampleDevice false false sampleState in
   last t = Some (CallUnmount "6f1a") ∧
   world s' = [] ∧
   result = Some (Errorf_w "unable to create Drive CRD; " cerr)) ∧
  (let '(result, s', t) :=
     initDevice sampleAddDevPrefix sampleUUID
       (sampleCreate (Some cerr)) (sampleHandler None (Some uerr))
       sampleDevice false false sampleState in
   last t = Some (CallUnmount "6f1a") ∧
   world s' = ["6f1a"%string] ∧
   result = Some (Errorf_w "unable to create Drive CRD; " cerr)).
Proof.
  intros cerr uerr. split.
  - pose proof (initDevice_unmounts_when_create_fails sampleWorld
      sampleAddDevPrefix sampleUUID (sampleCreate (Some cerr))
      (sampleHandler None None) sampleDevice false false sampleState
      ∅ ∅ [] "6f1a"%string [] "6f1a"%string "DIRECTPV"%string
      1073741824 1063741824 [] ["6f1a"%string] ["6f1a"%string]
      ["6f1a"%string] ["6f1a"%string] cerr ["6f1a"%string]
      eq_refl eq_refl eq_refl eq_refl eq_refl eq_refl eq_refl eq_refl eq_refl)
      as H.
    destruct (initDevice _ _ _ _ _ _ _ _) as [[result s'] t].
    destruct H as (-> & Hw & _ & _ & Hres).
    split; [reflexivity|]. split; [rewrite Hw; reflexivity|].
    exact Hres.
  - pose proof (initDevice_unmounts_when_create_fails sampleWorld
      sampleAddDevPrefix sampleUUID (sampleCreate (Some cerr))
      (sampleHandler None (Some uerr)) sampleDevice false false sampleState
      ∅ ∅ [] "6f1a"%string [] "6f1a"%string "DIRECTPV"%string
      1073741824 1063741824 [] ["6f1a"%string] ["6f1a"%string]
      ["6f1a"%string] ["6f1a"%string] cerr ["6f1a"%string]
      eq_refl eq_refl eq_refl eq_refl eq_refl eq_refl eq_refl eq_refl eq_refl)
      as H.
    destruct (initDevice _ _ _ _ _ _ _ _) as [[result s'] t].
    destruct H as (-> & Hw & _ & _ & Hres).
    split; [reflexivity|]. split; [rewrite Hw; reflexivity|].
    exact Hres.
Defined.

Lemma Handle_already_processed_witness :
  let done := mkInitResult true [] "" in
  let request :=
    mkInitRequest "request-1" (Some {[ "node-1"%string := done ]})
      {[ "node-1"%string := [mkInitDevice "sdb" "8:16" "8:16$x" false] ]} in
  Handle (fun b => b) string_of_list_byte sampleAddDevPrefix
    sampleUUID (sampleCreate None)
    (fun name w => (inl (Errorf "unreachable"), w))
    (fun request w => (None, w))
    (sampleHandler None None) (mkEventArgs UpdateEvent request) sampleState
  = (Value tt, sampleState, []).
Proof.
  intros done request.
  apply (Handle_already_processed sampleWorld (fun b => b)
           string_of_list_byte sampleAddDevPrefix sampleUUID
           (sampleCreate None) _ _ (sampleHandler None None)
           (mkEventArgs UpdateEvent request) sampleState done).
  reflexivity.
Defined.

(** A batch of three requests on the sample host: the first names a
    stale fingerprint, the second a device that is not there, the third
    the current fingerprint; only the third starts a pipeline. *)
Example initDevices_sample_batch :
  let '(r, s', t) :=
    initDevices sampleSum256 sampleEncode sampleAddDevPrefix
      sampleUUID (sampleCreate None) (sampleHandler None None)
      sampleRequests sampleState in
  r = inr [ mkInitDeviceResult "sdb" "device state changed";
            mkInitDeviceResult "sdx" "device not found";
            mkInitDeviceResult "sdb" "" ] ∧
  world s' = ["6f1a"%string] ∧
  ∃ drive,
    t = [ CallGetDevices ["8:16"; "9:99"; "8:16"]%string;
          Goroutine 2
            [ CallGetMounts; CallUUIDNew;
              CallMakeFS "/dev/sdb" "6f1a" true false;
              CallMount "/dev/sdb" "6f1a"; CallSymlink "6f1a";
              CallMakeMetaDir "6f1a";
              CallWriteFile "6f1a" (metaFileData "6f1a");
              CallDriveCreate drive ] ].
Proof. vm_compute. repeat split. eexists. reflexivity. Qed.


End InitRequestFacts.

(** ** The finalizer ledger *)

Module LedgerFacts.
Import Go Ledger.

Section LedgerFacts.

Variable GroupName : string.
Variable W : Type.
Variable error : Type.
Variable DriveInterface_Get : string → W → (error + DirectCSIDrive) * W.
Variable DriveInterface_Update : DirectCSIDrive → W → option error * W.

Local Abbreviation DirectCSIDriveFinalizerDataProtection :=
  (Ledger.DirectCSIDriveFinalizerDataProtection GroupName).
Local Abbreviation DirectCSIDriveFinalizerPrefix :=
  (Ledger.DirectCSIDriveFinalizerPrefix GroupName).
Local Abbreviation readyIfOnlyProtected :=
  (Ledger.readyIfOnlyProtected GroupName).
Local Abbreviation dummyReleaseVolume :=
  (Ledger.dummyReleaseVolume GroupName W error DriveInterface_Get
     DriveInterface_Update).
Local Abbreviation setValidFinazers :=
  (Ledger.setValidFinazers GroupName W error DriveInterface_Get
     DriveInterface_Update).

(** *** Properties of the ledger *)

Lemma excludeFinalizer_foldl finalizers finalizer result found :
  foldl (fun '(result, found) f =>
           if negb (String.eqb f finalizer) then (result ++ [f], found)
           else (result, true))
        (result, found) finalizers
  = (result ++ filter (fun f => f ≠ finalizer) finalizers,
     found || bool_decide (finalizer ∈ finalizers)).
Proof.
  revert result found.
  induction finalizers as [|f l IH]; intros result found; cbn [foldl].
  - rewrite app_nil_r, orb_false_r. reflexivity.
  - destruct (String.eqb_spec f finalizer) as [->|Hne]; cbn [negb]; rewrite IH.
    + rewrite filter_cons_False by naive_solver.
      rewrite (bool_decide_eq_true_2 (finalizer ∈ finalizer :: l))
        by apply list_elem_of_here.
      by rewrite orb_true_r.
    + rewrite filter_cons_True by done. rewrite <-app_assoc. cbn. f_equal.
      f_equal. apply bool_decide_ext. rewrite elem_of_cons.
      split; [by right|]. intros [Heq|Hin]; [congruence|done].
Qed.

Lemma excludeFinalizer_spec finalizers finalizer :
  excludeFinalizer finalizers finalizer
  = (filter (fun f => f ≠ finalizer) finalizers,
     bool_decide (finalizer ∈ finalizers)).
Proof. unfold excludeFinalizer. by rewrite excludeFinalizer_foldl. Qed.

(** The data-protection token is no volume finalizer. *)
Lemma DataProtection_not_volume volumeName :
  DirectCSIDriveFinalizerDataProtection
    ≠ DirectCSIDriveFinalizerPrefix +:+ volumeName.
Proof.
  unfold DirectCSIDriveFinalizerDataProtection, DirectCSIDriveFinalizerPrefix.
  intros H.
  assert (Hassoc : ∀ a b c : string, (a +:+ b) +:+ c = a +:+ (b +:+ c)).
  { intros a b c. induction a as [|x a IHa]; [done|].
    change (String x ((a +:+ b) +:+ c) = String x (a +:+ (b +:+ c))).
    by rewrite IHa. }
  rewrite Hassoc in H. apply (inj (String.app GroupName)) in H.
  discriminate.
Qed.

Lemma readyIfOnlyProtected_Finalizers finalizers drive :
  Finalizers (readyIfOnlyProtected finalizers drive) = Finalizers drive.
Proof.
  unfold readyIfOnlyProtected.
  destruct (length finalizers =? 1)%nat; [|done].
  destruct (finalizers !! 0%nat); [|done]. by destruct (String.eqb _ _).
Qed.

Lemma readyIfOnlyProtected_only finalizers drive :
  finalizers = [DirectCSIDriveFinalizerDataProtection] →
  DriveStatus (readyIfOnlyProtected finalizers drive) = DriveStatusReady.
Proof.
  intros ->. unfold readyIfOnlyProtected. cbn. by rewrite String.eqb_refl.
Qed.

Lemma readyIfOnlyProtected_volume finalizers drive volumeName :
  DirectCSIDriveFinalizerPrefix +:+ volumeName ∈ finalizers →
  DriveStatus (readyIfOnlyProtected finalizers drive) = DriveStatus drive.
Proof.
  intros Hin. unfold readyIfOnlyProtected.
  destruct finalizers as [|f [|g l]]; cbn; try done.
  apply list_elem_of_singleton in Hin as <-.
  destruct (String.eqb_spec (DirectCSIDriveFinalizerPrefix +:+ volumeName)
              DirectCSIDriveFinalizerDataProtection) as [Heq|Hne]; [|done].
  by destruct (DataProtection_not_volume volumeName).
Qed.

(** C9: when [dummyReleaseVolume] removes a volume finalizer from a
    Drive, and when [setValidFinazers] sets the finalizers that the repair
    kept, the Drive of that name is submitted to the cluster with the
    remaining finalizers: the function returns what [Update] answers for
    it, and the cluster afterwards is the one that this [Update] leaves.
    If the only finalizer that remains is the data-protection token the
    status of the submitted Drive is Ready, and if a volume finalizer
    remains its status is the one it had. *)
Theorem repair_status_follows_remaining_finalizers
    (driveName volumeName : string) (capacity : Z) (kept : list string)
    (w w1 : W) (drive : DirectCSIDrive) :
  DriveInterface_Get driveName w = (inr drive, w1) →
  (let finalizer := DirectCSIDriveFinalizerPrefix +:+ volumeName in
   let remaining := filter (fun f => f ≠ finalizer) (Finalizers drive) in
   finalizer ∈ Finalizers drive →
   ∃ drive',
     dummyReleaseVolume driveName volumeName capacity w
       = ((DriveInterface_Update drive' w1).1,
          (DriveInterface_Update drive' w1).2,
          [CallDriveGet driveName; CallDriveUpdate drive']) ∧
     (dummyReleaseVolume driveName volumeName capacity w).2
       = [CallDriveGet driveName; CallDriveUpdate drive'] ∧
     Name drive' = Name drive ∧
     Finalizers drive' = remaining ∧
     (remaining = [DirectCSIDriveFinalizerDataProtection] →
      DriveStatus drive' = DriveStatusReady) ∧
     (∀ other, DirectCSIDriveFinalizerPrefix +:+ other ∈ remaining →
      DriveStatus drive' = DriveStatus drive)) ∧
  (∃ drive',
     setValidFinazers driveName kept w
       = (match (DriveInterface_Update drive' w1).1 with
          | Some e => Error e
          | None => Value tt
          end,
          (DriveInterface_Update drive' w1).2,
          [CallDriveGet driveName; CallDriveUpdate drive']) ∧
     (setValidFinazers driveName kept w).2
       = [CallDriveGet driveName; CallDriveUpdate drive'] ∧
     Name drive' = Name drive ∧
     Finalizers drive' = kept ∧
     (kept = [DirectCSIDriveFinalizerDataProtection] →
      DriveStatus drive' = DriveStatusReady) ∧
     (∀ other, DirectCSIDriveFinalizerPrefix +:+ other ∈ kept →
      DriveStatus drive' = DriveStatus drive)).
Proof.
  assert (HName : ∀ finalizers d,
    Name (readyIfOnlyProtected finalizers d) = Name d).
  { intros finalizers d. unfold readyIfOnlyProtected.
    destruct (length finalizers =? 1)%nat; [|done].
    destruct (finalizers !! 0%nat); [|done]. by destruct (String.eqb _ _). }
  intros Hget. split.
  - intros finalizer remaining Hin.
    unfold dummyReleaseVolume. rewrite Hget, excludeFinalizer_spec.
    fold finalizer. rewrite (bool_decide_eq_true_2 _ Hin). fold remaining.
    destruct (DriveInterface_Update _ w1) as [err w2] eqn:Hupd.
    eexists. split; [by rewrite Hupd|]. split; [reflexivity|]. cbn.
    split; [apply HName|].
    split; [reflexivity|]. split.
    + intros Hrem. by apply readyIfOnlyProtected_only.
    + intros other Hother. by apply (readyIfOnlyProtected_volume _ _ other).
  - unfold setValidFinazers. rewrite Hget.
    destruct (DriveInterface_Update _ w1) as [err w2] eqn:Hupd.
    eexists. split; [by rewrite Hupd|]. split; [reflexivity|].
    split; [by rewrite HName|].
    split; [by rewrite readyIfOnlyProtected_Finalizers|]. split.
    + intros Hrem. by apply readyIfOnlyProtected_only.
    + intros other Hother.
      by rewrite (readyIfOnlyProtected_volume _ _ other).
Qed.

End LedgerFacts.


(** Releasing the last volume of the sample drive: the drive is updated
    with the data-protection token alone, status Ready, and the capacity
    of the volume returned to the free capacity. *)
Example dummyReleaseVolume_sample :
  dummyReleaseVolume sampleGroup _ _ sampleGet sampleUpdate
    "drive-1" "vol-1" 400 sampleCluster
  = (None,
     {[ "drive-1"%string :=
          mkDrive "drive-1" ["directpv.min.io/data-protection"%string]
            DriveStatusReady 1000 1000 0 ]},
     [ CallDriveGet "drive-1";
       CallDriveUpdate
         (mkDrive "drive-1" ["directpv.min.io/data-protection"%string]
            DriveStatusReady 1000 1000 0) ]).
Proof. vm_compute. reflexivity. Qed.

Lemma repair_status_follows_remaining_finalizers_witness :
  (∃ drive',
     dummyReleaseVolume sampleGroup _ _ sampleGet sampleUpdate
       "drive-1" "vol-1" 400 sampleCluster
       = (None, <["drive-1"%string := drive']> sampleCluster,
          [CallDriveGet "drive-1"; CallDriveUpdate drive']) ∧
     DriveStatus drive' = DriveStatusReady) ∧
  (∃ drive',
     setValidFinazers sampleGroup _ _ sampleGet sampleUpdate "drive-1"
       [ "directpv.min.io/data-protection";
         "directpv.min.io.volume/vol-2" ]%string sampleCluster
       = (Value tt, <["drive-1"%string := drive']> sampleCluster,
          [CallDriveGet "drive-1"; CallDriveUpdate drive']) ∧
     DriveStatus drive' = DriveStatusInUse).
Proof.
  destruct (repair_status_follows_remaining_finalizers sampleGroup _ _
              sampleGet sampleUpdate "drive-1" "vol-1" 400
              [ "directpv.min.io/data-protection";
                "directpv.min.io.volume/vol-2" ]%string
              sampleCluster sampleCluster sampleDrive eq_refl)
    as [Hrelease Hset].
  split.
  - destruct Hrelease as (drive' & Hrun & _ & HName & _ & Hready & _).
    + vm_compute. apply list_elem_of_further, list_elem_of_here.
    + exists drive'. split.
      * rewrite Hrun. unfold sampleUpdate. cbn [fst snd].
        by rewrite HName.
      * apply Hready. vm_compute. reflexivity.
  - destruct Hset as (drive' & Hrun & _ & HName & _ & _ & Hkeep).
    exists drive'. split.
    + rewrite Hrun. unfold sampleUpdate. cbn [fst snd].
      by rewrite HName.
    + apply (Hkeep "vol-2"%string). vm_compute.
      apply list_elem_of_further, list_elem_of_here.
Defined.

End LedgerFacts.

(** ** The decoder and its payload *)

Module UeventPayloadFacts.
Import Go Uevent UeventPayload.

Lemma parse_valid_header sig magic msg b :
  validHeader sig magic msg b →
  parse sig magic msg =
  Value (foldl addField ∅
           (Split (drop (Z.to_nat (byteZ b)) msg) fieldDelimiter)).
Proof.
  intros (Hsig & Hmagic & Hb & Hlo & Hhi). unfold parse.
  rewrite Hsig. cbn [negb].
  pose proof (UeventFacts.BigEndian_Uint32_Value _ _ Hmagic) as H4.
  rewrite length_drop in H4.
  rewrite (UeventFacts.sliceFrom_le msg 8) by lia. cbn.
  rewrite Hmagic. cbn. rewrite Z.eqb_refl. cbn.
  unfold index. rewrite Hb. cbn.
  destruct (Z.ltb_spec (byteZ b) 17); [lia|].
  destruct (byteZ b >? Z.of_nat (length msg)) eqn:Hgt; [lia|].
  rewrite UeventFacts.sliceFrom_le by lia. reflexivity.
Qed.

Lemma parse_Value_header sig magic msg (m : gmap string string) :
  parse sig magic msg = Value m →
  ∃ b, validHeader sig magic msg b ∧
       m = foldl addField ∅
             (Split (drop (Z.to_nat (byteZ b)) msg) fieldDelimiter).
Proof.
  unfold parse. intros H.
  destruct (HasPrefix msg sig) eqn:Hsig; cbn in H; [|discriminate].
  unfold mbind, result_bind, sliceFrom in H.
  destruct (8 <=? length msg)%nat eqn:H8; cbn in H; [|discriminate].
  destruct (@BigEndian_Uint32 parseError (drop 8 msg)) as [m'| |] eqn:Hm;
    cbn in H; try discriminate.
  destruct (Z.eqb_spec m' magic) as [->|]; cbn in H; [|discriminate].
  unfold index in H.
  destruct (msg !! 16%nat) as [b|] eqn:Hb; cbn in H; [|discriminate].
  destruct (byteZ b <? 17) eqn:Hlt; [discriminate|].
  destruct (byteZ b >? Z.of_nat (length msg)) eqn:Hgt; [discriminate|].
  apply Z.ltb_ge in Hlt.
  exists b. assert (Hvalid : validHeader sig magic msg b).
  { repeat split; try done; lia. }
  split; [exact Hvalid|].
  destruct (Z.to_nat (byteZ b) <=? length msg)%nat eqn:Hle; cbn in H;
    [congruence|discriminate].
Qed.

(** X1: [parse] returns a map exactly for the buffers that start with
    the signature, carry the expected magic number at offset 8 and a
    payload offset between 17 and the length of the buffer; the map is
    then built from the bytes from that offset on alone. *)
Theorem parse_Value_iff sig magic msg (m : gmap string string) :
  parse sig magic msg = Value m ↔
  ∃ b, validHeader sig magic msg b ∧
       m = foldl addField ∅
             (Split (drop (Z.to_nat (byteZ b)) msg) fieldDelimiter).
Proof.
  split; [apply parse_Value_header|].
  intros (b & Hvalid & ->). by apply parse_valid_header.
Qed.

Lemma Split_field (a rest : list byte) (sep : byte) :
  sep ∉ a → Split (a ++ sep :: rest) sep = a :: Split rest sep.
Proof.
  induction a as [|x a IH]; intros Hno; cbn.
  - by rewrite (Byte.byte_dec_lb (x:=sep) eq_refl).
  - apply not_elem_of_cons in Hno as [Hne Hno].
    destruct (Byte.eqb x sep) eqn:Hx.
    + apply Byte.byte_dec_bl in Hx. congruence.
    + by rewrite IH.
Qed.

Lemma Split_no_sep (s : list byte) (sep : byte) :
  ∀ f, f ∈ Split s sep → sep ∉ f.
Proof.
  induction s as [|x s IH]; intros f Hf; cbn in Hf.
  - apply list_elem_of_singleton in Hf as ->. apply not_elem_of_nil.
  - destruct (Byte.eqb x sep) eqn:Hx.
    + apply elem_of_cons in Hf as [->|Hf]; [apply not_elem_of_nil|by apply IH].
    + destruct (Split s sep) as [|g gs] eqn:Hs.
      * apply list_elem_of_singleton in Hf as ->.
        apply Byte.eqb_false in Hx. intros Hin.
        apply list_elem_of_singleton in Hin. congruence.
      * apply elem_of_cons in Hf as [->|Hf].
        -- apply Byte.eqb_false in Hx. apply not_elem_of_cons. split; [congruence|].
           apply IH, list_elem_of_here.
        -- by apply IH, list_elem_of_further.
Qed.

Lemma string_of_list_byte_cons (b : byte) (l : list byte) :
  string_of_list_byte (b :: l) = String (ascii_of_byte b) (string_of_list_byte l).
Proof. reflexivity. Qed.

Lemma ascii_of_byte_eq (b : byte) :
  Ascii.eqb (ascii_of_byte b) "="%char = Byte.eqb b x3d.
Proof.
  destruct (Byte.eqb b x3d) eqn:Hb.
  - apply Byte.byte_dec_bl in Hb as ->. reflexivity.
  - apply Byte.eqb_false in Hb. apply Ascii.eqb_neq. intros Heq.
    apply Hb. rewrite <-(byte_of_ascii_of_byte b), Heq. reflexivity.
Qed.

(** [SplitN] on the text of a field: no [=] and one token, or the text
    around the first [=]. *)
Lemma SplitN_eq2_bytes (f : list byte) :
  ((x3d ∉ f) ∧ SplitN_eq2 (string_of_list_byte f) = [string_of_list_byte f]) ∨
  (∃ k v, f = k ++ x3d :: v ∧ (x3d ∉ k) ∧
          SplitN_eq2 (string_of_list_byte f)
            = [string_of_list_byte k; string_of_list_byte v]).
Proof.
  induction f as [|b f IH].
  - left. split; [apply not_elem_of_nil|reflexivity].
  - rewrite string_of_list_byte_cons. cbn [SplitN_eq2].
    rewrite ascii_of_byte_eq.
    destruct (Byte.eqb b x3d) eqn:Hb.
    + apply Byte.byte_dec_bl in Hb as ->. right. exists [], f.
      split; [reflexivity|]. split; [apply not_elem_of_nil|reflexivity].
    + apply Byte.eqb_false in Hb.
      destruct IH as [[Hno ->]|(k & v & -> & Hno & ->)].
      * left. split; [|reflexivity]. apply not_elem_of_cons. by split.
      * right. exists (b :: k), v. split; [reflexivity|].
        split; [|reflexivity]. apply not_elem_of_cons. by split.
Qed.

Lemma app_cons_first_eq (k k' v v' : list byte) (c : byte) :
  c ∉ k → c ∉ k' → k ++ c :: v = k' ++ c :: v' → k = k' ∧ v = v'.
Proof.
  revert k'. induction k as [|x k IH]; intros [|y k'] Hk Hk' Heq; cbn in Heq.
  - by injection Heq as ->.
  - injection Heq as <- _. by apply not_elem_of_cons in Hk' as [? _].
  - injection Heq as -> _. by apply not_elem_of_cons in Hk as [? _].
  - injection Heq as -> Heq.
    apply not_elem_of_cons in Hk as [_ Hk].
    apply not_elem_of_cons in Hk' as [_ Hk'].
    destruct (IH k' Hk Hk' Heq) as [-> ->]. done.
Qed.

Lemma addField_encodeField event f :
  wellFormedField f → addField event (encodeField f) = setField event f.
Proof.
  intros (Hnul & Hkey & Hne). unfold addField, setField.
  destruct (length (encodeField f) =? 0)%nat eqn:Hlen.
  { apply Nat.eqb_eq, length_zero_iff_nil in Hlen. done. }
  destruct (SplitN_eq2_bytes (encodeField f)) as [[Hno ->]|(k & v & Heq & Hno & ->)].
  - destruct f as [key|key value]; cbn in *; [reflexivity|].
    exfalso. apply Hno. rewrite elem_of_app. right. apply list_elem_of_here.
  - destruct f as [key|key value]; cbn in *.
    + exfalso. apply Hkey. rewrite Heq, elem_of_app. right. apply list_elem_of_here.
    + destruct (app_cons_first_eq _ _ _ _ _ Hkey Hno Heq) as [-> ->]. reflexivity.
Qed.

Lemma Split_encodePayload fields :
  Forall wellFormedField fields →
  Split (encodePayload fields) fieldDelimiter = (encodeField <$> fields) ++ [[]].
Proof.
  induction 1 as [|f fields (Hnul & _) _ IH]; cbn; [reflexivity|].
  by rewrite Split_field, IH.
Qed.

Lemma foldl_addField_encode fields : ∀ event,
  Forall wellFormedField fields →
  foldl addField event (encodeField <$> fields) = foldl setField event fields.
Proof.
  induction fields as [|f fields IH]; intros event Hwf; cbn; [reflexivity|].
  apply Forall_cons in Hwf as [Hf Hwf].
  by rewrite addField_encodeField, IH.
Qed.

(** X2: decoding inverts encoding. For a buffer with a valid header
    whose payload is a sequence of well-formed fields, each followed by a
    NUL byte, [parse] returns the map that sets the fields in order: a
    bare key maps to the empty text, a later field replaces an earlier
    one with the same key. *)
Theorem parse_encodePayload sig magic msg b (fields : list field) :
  validHeader sig magic msg b →
  drop (Z.to_nat (byteZ b)) msg = encodePayload fields →
  Forall wellFormedField fields →
  parse sig magic msg = Value (foldl setField ∅ fields).
Proof.
  intros Hvalid Hpayload Hwf.
  rewrite (parse_valid_header _ _ _ _ Hvalid), Hpayload.
  rewrite Split_encodePayload by done.
  rewrite foldl_app. cbn. unfold addField at 1. cbn.
  by rewrite foldl_addField_encode.
Qed.

Lemma parse_encodePayload_witness :
  let fields :=
    [ KeyValue [x41] [x31]; Bare [x42]; KeyValue [x41] [x32; x3d] ] in
  parse sampleSignature sampleMagic
    (sampleSignature ++ [xfe; xed; xca; xfe] ++ replicate 4 x00 ++ [x11]
       ++ encodePayload fields)
  = Value (<["A"%string := "2="%string]> (<["B"%string := ""%string]>
             (<["A"%string := "1"%string]> ∅))).
Proof.
  intros fields.
  apply (parse_encodePayload sampleSignature sampleMagic _ x11 fields).
  - repeat split; vm_compute; congruence.
  - reflexivity.
  - repeat constructor; vm_compute; try congruence;
      intros H; repeat (apply elem_of_cons in H as [H|H]; [discriminate|]);
      by apply not_elem_of_nil in H.
Defined.

(** The bytes of a key or value. *)
Lemma addField_clean (event : gmap string string) (f : list byte) :
  fieldDelimiter ∉ f →
  (∀ key value, event !! key = Some value →
     (x3d ∉ list_byte_of_string key) ∧
     (fieldDelimiter ∉ list_byte_of_string key) ∧
     (fieldDelimiter ∉ list_byte_of_string value)) →
  ∀ key value, addField event f !! key = Some value →
     (x3d ∉ list_byte_of_string key) ∧
     (fieldDelimiter ∉ list_byte_of_string key) ∧
     (fieldDelimiter ∉ list_byte_of_string value).
Proof.
  intros Hnul Hev key value. unfold addField.
  destruct (length f =? 0)%nat; [apply Hev|].
  destruct (SplitN_eq2_bytes f) as [[Hno ->]|(k & v & Heq & Hno & ->)].
  - rewrite lookup_insert. case_decide as Hk; [|apply Hev].
    intros [= <-]. subst key.
    rewrite list_byte_of_string_of_list_byte. cbn.
    split; [done|]. split; [done|apply not_elem_of_nil].
  - rewrite lookup_insert. case_decide as Hk; [|apply Hev].
    intros [= <-]. subst key.
    rewrite !list_byte_of_string_of_list_byte.
    subst f. rewrite elem_of_app, elem_of_cons in Hnul.
    split; [done|]. split; intros Hin; apply Hnul; tauto.
Qed.

(** X3: in every map that [parse] returns, no key contains [=], and
    neither the keys nor the values contain a NUL byte. *)
Theorem parse_keys_values_clean sig magic msg (m : gmap string string) :
  parse sig magic msg = Value m →
  ∀ key value, m !! key = Some value →
    (x3d ∉ list_byte_of_string key) ∧
    (fieldDelimiter ∉ list_byte_of_string key) ∧
    (fieldDelimiter ∉ list_byte_of_string value).
Proof.
  intros Hparse. apply parse_Value_header in Hparse as (b & _ & ->).
  pose proof (Split_no_sep (drop (Z.to_nat (byteZ b)) msg) fieldDelimiter)
    as Hfields.
  revert Hfields. generalize (Split (drop (Z.to_nat (byteZ b)) msg) fieldDelimiter).
  intros fields Hfields.
  assert (Hgen : ∀ event : gmap string string,
    (∀ key value, event !! key = Some value →
       (x3d ∉ list_byte_of_string key) ∧
       (fieldDelimiter ∉ list_byte_of_string key) ∧
       (fieldDelimiter ∉ list_byte_of_string value)) →
    ∀ key value, foldl addField event fields !! key = Some value →
       (x3d ∉ list_byte_of_string key) ∧
       (fieldDelimiter ∉ list_byte_of_string key) ∧
       (fieldDelimiter ∉ list_byte_of_string value)).
  { induction fields as [|f fields IH]; intros event Hev; cbn; [exact Hev|].
    apply IH.
    - intros g Hg. apply Hfields. by apply list_elem_of_further.
    - apply addField_clean; [|exact Hev]. apply Hfields, list_elem_of_here. }
  apply Hgen. intros key value Hl. by rewrite lookup_empty in Hl.
Qed.

Lemma parse_keys_values_clean_witness :
  (x3d ∉ list_byte_of_string "A") ∧
  (fieldDelimiter ∉ list_byte_of_string "A") ∧
  (fieldDelimiter ∉ list_byte_of_string "1").
Proof.
  apply (parse_keys_values_clean sampleSignature sampleMagic
    (sampleSignature ++ [xfe; xed; xca; xfe] ++ replicate 4 x00 ++ [x11]
       ++ [x41; x3d; x31; x00; x42; x00; x00])
    (<["B"%string := ""%string]> (<["A"%string := "1"%string]> ∅))
    eq_refl "A"%string "1"%string).
  reflexivity.
Defined.

End UeventPayloadFacts.

(** ** The outcome of one criterion and of a chain *)

Module MatcherChainFacts.
Import Matcher.

Section MatcherChainFacts.

Context {DirectCSIDrive Device : Type}.

Implicit Types (fn : @matchFn DirectCSIDrive Device).
Implicit Types (chain : list (@matchFn DirectCSIDrive Device)).
Implicit Types (drives : list DirectCSIDrive).

Lemma matchLoop_outcome fn device drives : ∀ acc,
  matchLoop fn device drives acc =
  match list_find (λ d, fn d device = (true, false)) drives with
  | Some (_, d) => ([d], false)
  | None => (acc ++ filter (λ d, (fn d device).1 = true) drives, true)
  end.
Proof.
  induction drives as [|d drives IH]; intros acc; cbn -[filter].
  - by rewrite app_nil_r.
  - destruct (fn d device) as [[|] [|]] eqn:Hfn; cbn -[filter].
    + rewrite decide_False by congruence. rewrite IH.
      destruct (list_find _ drives) as [[i x]|]; cbn -[filter]; [done|].
      rewrite filter_cons_True by (by rewrite Hfn).
      by rewrite <-app_assoc.
    + by rewrite decide_True.
    + rewrite decide_False by congruence. rewrite IH.
      destruct (list_find _ drives) as [[i x]|]; cbn -[filter]; [done|].
      by rewrite filter_cons_False by (by rewrite Hfn).
    + rewrite decide_False by congruence. rewrite IH.
      destruct (list_find _ drives) as [[i x]|]; cbn -[filter]; [done|].
      by rewrite filter_cons_False by (by rewrite Hfn).
Qed.

Lemma match_sublist fn device drives :
  (match_ drives device fn).1 `sublist_of` drives.
Proof.
  unfold match_. rewrite matchLoop_outcome.
  destruct (list_find _ drives) as [[i x]|] eqn:Hfind; cbn.
  - apply list_find_Some in Hfind as (Hx & _ & _).
    apply singleton_sublist_l. by eapply list_elem_of_lookup_2.
  - apply sublist_filter.
Qed.

(** X4: the outcome of one criterion. If some candidate is a conclusive
    match (the criterion answers match and stop), [match] returns the first
    such candidate alone, the candidates matched before it are dropped,
    and the chain stops there with that one drive; otherwise [match]
    returns the candidates that matched, in their order, and the chain
    goes on with them. *)
Theorem match_first_conclusive_or_filter fn chain device drives :
  match_ drives device fn =
    match list_find (λ d, fn d device = (true, false)) drives with
    | Some (_, d) => ([d], false)
    | None => (filter (λ d, (fn d device).1 = true) drives, true)
    end ∧
  narrow (fn :: chain) drives device =
    match list_find (λ d, fn d device = (true, false)) drives with
    | Some (_, d) => [d]
    | None => narrow chain (filter (λ d, (fn d device).1 = true) drives) device
    end.
Proof.
  assert (Hm : match_ drives device fn =
    match list_find (λ d, fn d device = (true, false)) drives with
    | Some (_, d) => ([d], false)
    | None => (filter (λ d, (fn d device).1 = true) drives, true)
    end).
  { unfold match_. by rewrite matchLoop_outcome. }
  split; [exact Hm|].
  cbn [narrow]. rewrite Hm.
  by destruct (list_find _ drives) as [[i x]|].
Qed.

(** X5: the drives that a chain of criteria leaves are candidates that
    were passed in, in the order they were passed in: no drive is added,
    repeated or moved, whatever the criteria answer. *)
Theorem narrow_sublist chain device drives :
  narrow chain drives device `sublist_of` drives.
Proof.
  revert drives. induction chain as [|fn chain IH]; intros drives; cbn.
  - done.
  - pose proof (match_sublist fn device drives) as Hsub.
    destruct (match_ drives device fn) as [matched [|]]; cbn in *.
    + by etrans; [apply IH|].
    + done.
Qed.

End MatcherChainFacts.

End MatcherChainFacts.

(** ** Eligibility, probing and repeated fingerprints *)

Module DeviceProbeFacts.
Import Go Device DeviceProbe.

Lemma appendIf_nil cond reason reasons :
  appendIf cond reason reasons = [] ↔ cond = false ∧ reasons = [].
Proof.
  unfold appendIf. destruct cond.
  - split; [|intros [? _]; discriminate].
    by intros [_ [=]]%app_nil.
  - intuition congruence.
Qed.

Lemma appendIf_nonempty cond reason reasons :
  reason ≠ ""%string →
  Forall (λ r, r ≠ ""%string) reasons →
  Forall (λ r, r ≠ ""%string) (appendIf cond reason reasons).
Proof.
  intros Hr Hrs. unfold appendIf. destruct cond; [|done].
  apply Forall_app. split; [done|]. by apply Forall_singleton.
Qed.

Lemma Join_nonempty (l : list string) (sep : string) :
  l ≠ [] → Forall (λ r, r ≠ ""%string) l → Join l sep ≠ ""%string.
Proof.
  destruct l as [|x l]; [done|]. intros _ Hl.
  apply Forall_cons in Hl as [Hx _].
  assert (Hlen : (0 < String.length x)%nat).
  { destruct x; [done|]. cbn. lia. }
  intros Hjoin. apply (f_equal String.length) in Hjoin.
  unfold Join in Hjoin. destruct l as [|y l].
  - cbn in Hjoin. lia.
  - change (String.concat sep (x :: y :: l))
      with (x +:+ sep +:+ String.concat sep (y :: l)) in Hjoin.
    rewrite DeviceFacts.string_app_length in Hjoin. cbn in Hjoin. lia.
Qed.

Lemma ownReasons_nonempty d h : Forall (λ r, r ≠ ""%string) (ownReasons d h).
Proof.
  unfold ownReasons. repeat (apply appendIf_nonempty; [done|]). constructor.
Qed.

Lemma ownReasons_nil d h :
  ownReasons d h = [] ↔
  (minSupportedDeviceSize ≤ Size d)%N ∧ Hidden d = false ∧
  ReadOnly d = false ∧ Partitioned d = false ∧
  elems h (Holders d) = [] ∧ elems h (MountPoints d) = [] ∧
  SwapOn d = false ∧ CDROM d = false.
Proof.
  unfold ownReasons. rewrite !appendIf_nil.
  rewrite N.ltb_ge, !negb_false_iff, !Nat.eqb_eq, !length_zero_iff_nil.
  intuition congruence.
Qed.

Lemma reason_empty (reasons : list string) :
  Forall (λ r, r ≠ ""%string) reasons →
  (if negb (length reasons =? 0)%nat then Join reasons "; " else ""%string)
    = ""%string ↔ reasons = [].
Proof.
  intros Hne. destruct reasons as [|r reasons]; [done|]. cbn [length Nat.eqb negb].
  split; [|done]. intros H. by apply Join_nonempty in H.
Qed.

(** X6: [deniedReason] returns the empty reason exactly for a device of
    at least 512 MiB that is not hidden, read-only, partitioned, a swap
    device or a CD-ROM, has no holders and no mount points, and, when it
    carries an XFS file system with a UUID, for which the lookup of a
    drive with that UUID fails with a not-found error. The lookup is made
    for such file systems only; whether the device is removable plays no
    part. *)
Theorem deniedReason_empty_iff {W} (d : Device) (h : store)
    (findDriveByFSUUID : string → W → option InitRequest.error * W) (w : W) :
  ((deniedReason d h findDriveByFSUUID w).1 = ""%string ↔
   ((minSupportedDeviceSize ≤ Size d)%N ∧ Hidden d = false ∧
    ReadOnly d = false ∧ Partitioned d = false ∧
    elems h (Holders d) = [] ∧ elems h (MountPoints d) = [] ∧
    SwapOn d = false ∧ CDROM d = false) ∧
   (FSType d = "xfs"%string → FSUUID d ≠ ""%string →
    ∃ e, (findDriveByFSUUID (FSUUID d) w).1 = Some e ∧
         InitRequest.IsNotFound e = true)) ∧
  (FSType d ≠ "xfs"%string ∨ FSUUID d = ""%string →
   (deniedReason d h findDriveByFSUUID w).2 = w) ∧
  (∀ b, deniedReason (withFlag flagRemovable b d) h findDriveByFSUUID w
        = deniedReason d h findDriveByFSUUID w).
Proof.
  split; [|split].
  - unfold deniedReason. rewrite <-ownReasons_nil.
    pose proof (ownReasons_nonempty d h) as Hown.
    destruct (String.eqb_spec (FSType d) "xfs") as [Hxfs|Hxfs]; cbn [andb].
    + destruct (String.eqb_spec (FSUUID d) "") as [Huuid|Huuid]; cbn [negb].
      * cbn [fst]. rewrite reason_empty by done. intuition congruence.
      * destruct (findDriveByFSUUID (FSUUID d) w) as [[e|] w1]; cbn [fst].
        -- rewrite reason_empty by (by apply appendIf_nonempty).
           rewrite appendIf_nil, negb_false_iff. split.
           ++ intros [Hnf Hnil]. split; [done|]. intros _ _. by exists e.
           ++ intros [Hnil H].
              destruct (H Hxfs Huuid) as (e0 & [= <-] & Hnf). done.
        -- rewrite reason_empty
             by (apply Forall_app; split; [done|by apply Forall_singleton]).
           split.
           ++ by intros [_ [=]]%app_nil.
           ++ intros [_ H]. destruct (H Hxfs Huuid) as (e & He & _). done.
    + cbn [fst]. rewrite reason_empty by done. intuition congruence.
  - unfold deniedReason. intros [Hxfs|Huuid].
    + by destruct (String.eqb_spec (FSType d) "xfs").
    + rewrite Huuid. cbn [String.eqb negb]. by rewrite andb_false_r.
  - intros b. by destruct d.
Qed.

(** *** [ProbeDeviceMap] *)

Section ProbeDeviceMapFacts.

Context {W error : Type}.
Variable Probe : W → store → (error + list Device) * W * store.
Variable xfs_Probe : string → W → (string * string * N * N * option error) * W.
Variable AddDevPrefix : string → string.

Lemma passedOver_false h dev :
  passedOver h dev = false ↔
  Hidden dev = false ∧ Partitioned dev = false ∧
  elems h (Holders dev) = [] ∧ SwapOn dev = false ∧ CDROM dev = false ∧
  Size dev ≠ 0%N.
Proof.
  unfold passedOver. rewrite !orb_false_iff, negb_false_iff, Nat.eqb_eq,
    length_zero_iff_nil, N.eqb_neq. intuition congruence.
Qed.

(** What holds of every entry of the map while the loop runs. *)
Lemma probeLoop_entries h (devices : list Device) (rest : list Device) :
  ∀ deviceMap w,
  (∀ dev, dev ∈ rest → dev ∈ devices) →
  (∀ fsuuid probed, deviceMap !! fsuuid = Some probed →
     probed ≠ [] ∧
     ∀ p, p ∈ probed →
       ProbedDevice_FSUUID p = fsuuid ∧
       ProbedDevice_Device p ∈ devices ∧
       passedOver h (ProbedDevice_Device p) = false) →
  ∀ fsuuid probed,
    (probeLoop xfs_Probe AddDevPrefix h rest deviceMap w).1 !! fsuuid
      = Some probed →
    probed ≠ [] ∧
    ∀ p, p ∈ probed →
      ProbedDevice_FSUUID p = fsuuid ∧
      ProbedDevice_Device p ∈ devices ∧
      passedOver h (ProbedDevice_Device p) = false.
Proof.
  induction rest as [|dev rest IH]; intros deviceMap w Hrest Hinv; cbn.
  - exact Hinv.
  - assert (Hrest' : ∀ dev', dev' ∈ rest → dev' ∈ devices).
    { intros dev' Hin. apply Hrest. by apply list_elem_of_further. }
    destruct (passedOver h dev) eqn:Hpass; [by apply IH|].
    destruct (xfs_Probe (AddDevPrefix (Name dev)) w)
      as [[[[[fsuuid label] total] free] [err|]] w1]; [by apply IH|].
    apply IH; [done|].
    intros k probed. rewrite lookup_insert. case_decide as Hk.
    + subst k. intros [= <-]. split.
      { by intros [_ [=]]%app_nil. }
      intros p Hp. apply elem_of_app in Hp as [Hp|Hp].
      * destruct (deviceMap !! fsuuid) as [l|] eqn:Hl; cbn in Hp.
        -- by apply (Hinv fsuuid l Hl).
        -- by apply not_elem_of_nil in Hp.
      * apply list_elem_of_singleton in Hp as ->. cbn.
        split; [done|]. split; [|done]. apply Hrest, list_elem_of_here.
    + apply Hinv.
Qed.

(** X7: when [Probe] lists the devices, [ProbeDeviceMap] returns a map
    and no error, whatever the XFS probes answer. Under each key of the
    map there is at least one entry; every entry carries the key as its
    file system UUID, and its device is one of the listed devices that is
    not hidden, not partitioned, has no holders, is neither a swap device
    nor a CD-ROM and has a size other than zero. The arrays of the device
    lists are left as [Probe] made them. *)
Theorem ProbeDeviceMap_entries (w : W) (h : store) (devices : list Device)
    (w1 : W) (h1 : store) :
  Probe w h = (inr devices, w1, h1) →
  ∃ deviceMap w2,
    ProbeDeviceMap Probe xfs_Probe AddDevPrefix w h = (inr deviceMap, w2, h1) ∧
    ∀ fsuuid probed, deviceMap !! fsuuid = Some probed →
      probed ≠ [] ∧
      ∀ p, p ∈ probed →
        let dev := ProbedDevice_Device p in
        ProbedDevice_FSUUID p = fsuuid ∧ dev ∈ devices ∧
        Hidden dev = false ∧ Partitioned dev = false ∧
        elems h1 (Holders dev) = [] ∧ SwapOn dev = false ∧
        CDROM dev = false ∧ Size dev ≠ 0%N.
Proof.
  intros HProbe. unfold ProbeDeviceMap. rewrite HProbe.
  pose proof (probeLoop_entries h1 devices devices ∅ w1) as Hloop.
  destruct (probeLoop xfs_Probe AddDevPrefix h1 devices ∅ w1)
    as [deviceMap w2] eqn:Hrun.
  exists deviceMap, w2. split; [done|].
  intros fsuuid probed Hlookup.
  assert (Hempty : ∀ k l, (∅ : gmap string (list ProbedDevice)) !! k = Some l →
    l ≠ [] ∧ ∀ p, p ∈ l →
      ProbedDevice_FSUUID p = k ∧ ProbedDevice_Device p ∈ devices ∧
      passedOver h1 (ProbedDevice_Device p) = false).
  { intros k l Hl. by rewrite lookup_empty in Hl. }
  assert (Hsub : ∀ dev : Device, dev ∈ devices → dev ∈ devices) by done.
  destruct (Hloop Hsub Hempty fsuuid probed Hlookup) as [Hne Hall].
  split; [done|]. intros p Hp. cbv zeta.
  destruct (Hall p Hp) as (Hk & Hin & Hpass).
  apply passedOver_false in Hpass. intuition congruence.
Qed.

End ProbeDeviceMapFacts.

Lemma ProbeDeviceMap_entries_witness :
  let sdb := mkDevice "sdb" "8:16" 1073741824 false false false false
               nilSlice nilSlice false false "" ∅ in
  let sr0 := mkDevice "sr0" "11:0" 1073741824 false true true false
               nilSlice nilSlice false true "" ∅ in
  let w : gmap string string :=
    {[ "/dev/sdb"%string := "6f1a"%string; "/dev/sr0"%string := "9c2e"%string ]} in
  ∃ deviceMap w2,
    ProbeDeviceMap (sampleProbe [sdb; sr0]) sampleXFSProbe
      InitRequest.sampleAddDevPrefix w ∅ = (inr deviceMap, w2, ∅) ∧
    ∀ fsuuid probed, deviceMap !! fsuuid = Some probed →
      probed ≠ [] ∧
      ∀ p, p ∈ probed →
        let dev := ProbedDevice_Device p in
        ProbedDevice_FSUUID p = fsuuid ∧ dev ∈ [sdb; sr0] ∧
        Hidden dev = false ∧ Partitioned dev = false ∧
        elems ∅ (Holders dev) = [] ∧ SwapOn dev = false ∧
        CDROM dev = false ∧ Size dev ≠ 0%N.
Proof.
  intros sdb sr0 w.
  apply (ProbeDeviceMap_entries (sampleProbe [sdb; sr0]) sampleXFSProbe
           InitRequest.sampleAddDevPrefix w ∅ [sdb; sr0] w ∅).
  reflexivity.
Defined.

(** *** Repeated fingerprints *)

Lemma sort_Strings_sorted (s : slice) (h : store) :
  sorted (elems h s) = elems h s → sort_Strings s h = h.
Proof.
  destruct s as [|p]; [done|]. unfold sort_Strings, elems.
  destruct (h !! p) as [l|] eqn:Hl; [|done].
  change (sorted l = l → <[p := sorted l]> h = h). intros ->.
  by apply insert_id.
Qed.

(** X8: a second call of [ID] for the same device returns the same
    fingerprint as the first and leaves every array as the first call
    left it. *)
Theorem ID_twice S E (d : Device) (nodeID : string) (h : store) :
  ID S E d nodeID (ID S E d nodeID h).2 = ID S E d nodeID h.
Proof.
  apply injective_projections.
  - apply DeviceFacts.ID_value_store_perm, DeviceFacts.ID_store_perm.
  - rewrite (DeviceFacts.ID_store S E d nodeID (ID S E d nodeID h).2).
    rewrite (sort_Strings_sorted (Holders d)).
    + apply sort_Strings_sorted.
      rewrite DeviceFacts.elems_ID. rewrite decide_True by (by right).
      apply DeviceFacts.sorted_idemp.
    + rewrite DeviceFacts.elems_ID. rewrite decide_True by (by left).
      apply DeviceFacts.sorted_idemp.
Qed.

(** *** The label of a device *)

(** X9: [Make] returns the empty label exactly for a device that has
    no device-mapper name, no vendor and no model (absent or empty) and
    no partition number in its metadata. *)
Theorem Make_empty_iff (d : Device) :
  Make d = ""%string ↔
  DMName d = ""%string ∧
  default ""%string (udevData d !! "E:ID_VENDOR"%string) = ""%string ∧
  default ""%string (udevData d !! "E:ID_MODEL"%string) = ""%string ∧
  udevData d !! "E:ID_PART_ENTRY_NUMBER"%string = None.
Proof.
  unfold Make.
  set (vendor := default ""%string (udevData d !! "E:ID_VENDOR"%string)).
  set (model := default ""%string (udevData d !! "E:ID_MODEL"%string)).
  assert (Hpart : ∀ number, ("(Part " +:+ number +:+ ")")%string ≠ ""%string)
    by done.
  destruct (String.eqb_spec (DMName d) "") as [Hdm|Hdm];
    destruct (String.eqb_spec vendor "") as [Hv|Hv];
    destruct (String.eqb_spec model "") as [Hm|Hm];
    destruct (udevData d !! "E:ID_PART_ENTRY_NUMBER"%string) as [number|];
    cbn [negb app];
    (split; [|by intros (? & ? & ? & ?)]);
    try done;
    intros Hjoin; exfalso; revert Hjoin; apply Join_nonempty; try done;
    repeat (apply Forall_cons; split; [done|]); constructor.
Qed.

End DeviceProbeFacts.

(** ** Runs of the initialization handler *)

Module InitRequestRunFacts.
Import Go InitRequest.

Section RunFacts.

Variable W : Type.
Variable Sum256 : list byte → list byte.
Variable EncodeToString : list byte → string.
Variable AddDevPrefix : string → string.
Variable uuid_New : W → string * W.
Variable DriveClient_Create : Drive → W → option error * W.
Variable InitRequestClient_Get : string → W → (error + InitRequestT) * W.
Variable InitRequestClient_Update : InitRequestT → W → option error * W.

Local Abbreviation initDevice :=
  (InitRequest.initDevice AddDevPrefix uuid_New DriveClient_Create).
Local Abbreviation initDevices :=
  (InitRequest.initDevices Sum256 EncodeToString AddDevPrefix uuid_New
     DriveClient_Create).
Local Abbreviation Handle_update :=
  (InitRequest.Handle_update InitRequestClient_Get InitRequestClient_Update).
Local Abbreviation Handle :=
  (InitRequest.Handle Sum256 EncodeToString AddDevPrefix uuid_New
     DriveClient_Create InitRequestClient_Get InitRequestClient_Update).

Ltac unfold_run :=
  unfold mbind, mret, prog_bind, prog_ret, bind, ret, call in *.

(** X10: the calls of one run of [initDevice]. They are an initial part of
    the sequence: read the mounts, draw a UUID, format, mount, link, make
    the metadata directory, write the metadata file, submit the drive.
    The run succeeds exactly when the whole sequence was made; the drive
    submitted is then the [Ready] drive of that UUID. A run that stops
    before the mount has succeeded ends there; a run that stops later
    ends with one unmount of the UUID it mounted. The arrays of the
    device lists are not touched. *)
Theorem initDevice_call_sequence (handler : initRequestEventHandler W)
    (device : Device.Device) (force reflink : bool) (s : state W) :
  let devPath := AddDevPrefix (Device.Name device) in
  let '(result, s', t) := initDevice handler device force reflink s in
  arrays s' = arrays s ∧
  ∃ fsuuid totalCapacity freeCapacity,
    let steps :=
      [ CallGetMounts; CallUUIDNew; CallMakeFS devPath fsuuid force reflink;
        CallMount devPath fsuuid; CallSymlink fsuuid; CallMakeMetaDir fsuuid;
        CallWriteFile fsuuid (metaFileData fsuuid);
        CallDriveCreate
          (driveOf handler device fsuuid totalCapacity freeCapacity) ] in
    (result = None ∧ t = steps) ∨
    (is_Some result ∧
     ∃ n, (n = 1 ∨ n = 3 ∨ n = 4)%nat ∧ t = take n steps) ∨
    (is_Some result ∧
     ∃ n, (5 ≤ n ≤ 8)%nat ∧ t = take n steps ++ [CallUnmount fsuuid]).
Proof.
  intros devPath. unfold InitRequest.initDevice, initDevice_stages,
    initDevice_deferred. unfold_run. fold devPath.
  destruct (getMounts handler (world s))
    as [[err|[deviceMap majorMinorMap]] w1]; cbn.
  { split; [done|]. exists ""%string, 0, 0. right. left.
    split; [done|]. exists 1%nat. by split; [left|]. }
  destruct (length (mountPointsOf deviceMap majorMinorMap
                      (Device.MajorMinor device)) =? 0)%nat; cbn.
  2:{ split; [done|]. exists ""%string, 0, 0. right. left.
      split; [done|]. exists 1%nat. by split; [left|]. }
  destruct (uuid_New w1) as [fsuuid w2]; cbn.
  destruct (makeFS handler devPath fsuuid force reflink w2)
    as [[[[[x y] totalCapacity] freeCapacity] [err|]] w3]; cbn.
  { split; [done|]. exists fsuuid, 0, 0. right. left.
    split; [done|]. exists 3%nat. by split; [right; left|]. }
  destruct (mount handler devPath fsuuid w3) as [[err|] w4]; cbn.
  { split; [done|]. exists fsuuid, 0, 0. right. left.
    split; [done|]. exists 4%nat. by split; [right; right|]. }
  destruct (symlink handler fsuuid w4) as [[err|] w5]; cbn.
  { destruct (unmount handler fsuuid w5) as [[uerr|] w6]; cbn;
      (split; [done|]; exists fsuuid, 0, 0; right; right;
       split; [done|]; exists 5%nat; split; [lia|done]). }
  destruct (makeMetaDir handler fsuuid w5) as [[err|] w6]; cbn.
  { destruct (unmount handler fsuuid w6) as [[uerr|] w7]; cbn;
      (split; [done|]; exists fsuuid, 0, 0; right; right;
       split; [done|]; exists 6%nat; split; [lia|done]). }
  destruct (writeFile handler fsuuid (metaFileData fsuuid) w6)
    as [[err|] w7]; cbn.
  { destruct (unmount handler fsuuid w7) as [[uerr|] w8]; cbn;
      (split; [done|]; exists fsuuid, 0, 0; right; right;
       split; [done|]; exists 7%nat; split; [lia|done]). }
  destruct (DriveClient_Create
              (driveOf handler device fsuuid totalCapacity freeCapacity) w7)
    as [[err|] w8]; cbn.
  { destruct (unmount handler fsuuid w8) as [[uerr|] w9]; cbn;
      (split; [done|]; exists fsuuid, totalCapacity, freeCapacity;
       right; right; split; [done|]; exists 8%nat; split; [lia|done]). }
  split; [done|]. exists fsuuid, totalCapacity, freeCapacity. by left.
Qed.

(** *** [Handle] *)

Lemma initDevices_first_call (handler : initRequestEventHandler W)
    (reqs : list InitDevice) (s : state W) :
  ∃ t', (initDevices handler reqs s).2
        = CallGetDevices (InitDevice_MajorMinor <$> reqs) :: t'.
Proof.
  unfold InitRequest.initDevices, callGetDevices. unfold_run.
  destruct (getDevices handler _ (world s) (arrays s)) as [[[err|devices] w1] h1];
    cbn; [by eexists|].
  destruct (initDevicesLoop _ _ _ _ _ _ _ _ _ _) as [[results s2] t2]; cbn.
  by eexists.
Qed.

(** The event and the request for which [Handle] goes to work. *)
Lemma Handle_proceeds (handler : initRequestEventHandler W) (args : EventArgs)
    (devices : list InitDevice) (s : state W) :
  Event args ≠ DeleteEvent →
  Spec_Response (Object args) ≫= (.!! nodeID handler) = None →
  Status_Request (Object args) !! nodeID handler = Some devices →
  Handle handler args s =
  let '(r, s1, t1) := initDevices handler devices s in
  let initResult :=
    match r with
    | inr results => mkInitResult true results ""
    | inl err => mkInitResult true [] (message err)
    end in
  let '(b, s2, t2) :=
    RetryOnConflict DefaultRetry_Steps
      (Handle_update handler (InitRequest_Name (Object args)) initResult)
      None s1 in
  (b, s2, t1 ++ t2).
Proof.
  intros Hev Hresp Hreq. unfold InitRequest.Handle.
  rewrite Hresp, Hreq. by destruct (Event args).
Qed.

(** X11: [Handle] makes no call exactly when the event is a deletion,
    or the request already carries a response of this node, or it names
    no device of this node; it then returns no error and leaves the host
    and the cluster as they are. In every other case its first call is the
    re-probe of the requested devices. *)
Theorem Handle_quiet_iff (handler : initRequestEventHandler W)
    (args : EventArgs) (s : state W) :
  let '(r, s', t) := Handle handler args s in
  (t = [] ↔
   Event args = DeleteEvent ∨
   is_Some (Spec_Response (Object args) ≫= (.!! nodeID handler)) ∨
   Status_Request (Object args) !! nodeID handler = None) ∧
  (t = [] → r = Value tt ∧ s' = s) ∧
  (t ≠ [] → ∃ devices t',
     Status_Request (Object args) !! nodeID handler = Some devices ∧
     t = CallGetDevices (InitDevice_MajorMinor <$> devices) :: t').
Proof.
  assert (Event args = DeleteEvent ∨ Event args ≠ DeleteEvent) as [Hdel|Hev]
    by (destruct (Event args); (by left) || (by right)).
  { unfold InitRequest.Handle. rewrite Hdel. cbn.
    split; [|split]; [split; [by left|done]|done|done]. }
  destruct (Spec_Response (Object args) ≫= (.!! nodeID handler))
    as [response|] eqn:Hresp.
  { unfold InitRequest.Handle. rewrite Hresp.
    destruct (Event args); cbn;
      (split; [|split]; [split; [by right; left|done]|done|done]). }
  destruct (Status_Request (Object args) !! nodeID handler)
    as [devices|] eqn:Hreq.
  2:{ unfold InitRequest.Handle. rewrite Hresp, Hreq.
      destruct (Event args); cbn;
        (split; [|split]; [split; [by right; right|done]|done|done]). }
  rewrite (Handle_proceeds handler args devices s Hev Hresp Hreq).
  destruct (initDevices_first_call handler devices s) as [t' Ht'].
  destruct (initDevices handler devices s) as [[r s1] t1]. cbn in Ht'. subst t1.
  cbv beta iota zeta.
  destruct (@RetryOnConflict W _ _ _ _) as [[b s2] t2]. cbn.
  split; [|split].
  - split; [done|]. intros [?|[[? [=]]|[=]]]. done.
  - done.
  - intros _. by eexists _, _.
Qed.

(** One attempt of the update: a [Get] alone, or a [Get] and the [Update]
    of a request that carries [initResult] for this node. *)
Lemma Handle_update_round (handler : initRequestEventHandler W)
    (name : string) (initResult : InitResult) (s : state W) :
  let t := (Handle_update handler name initResult s).2 in
  t = [CallInitRequestGet name] ∨
  ∃ request,
    t = [CallInitRequestGet name; CallInitRequestUpdate request] ∧
    Spec_Response request ≫= (.!! nodeID handler) = Some initResult.
Proof.
  unfold InitRequest.Handle_update. unfold_run.
  destruct (InitRequestClient_Get name (world s)) as [[err|request] w1]; cbn.
  { by left. }
  destruct (Spec_Response request) as [response|]; cbn; [|by left].
  destruct (InitRequestClient_Update _ w1) as [err w2]; cbn.
  right. eexists. split; [done|]. cbn. by rewrite lookup_insert_eq.
Qed.

Lemma RetryOnConflict_rounds (P : list event → Prop)
    (fn : prog W (result error unit)) :
  (∀ s, P (fn s).2) →
  ∀ steps lastErr s,
    ∃ rounds,
      (RetryOnConflict steps fn lastErr s).2 = concat rounds ∧
      (length rounds ≤ steps)%nat ∧ (steps ≠ 0 → rounds ≠ [])%nat ∧
      Forall P rounds.
Proof.
  intros HP steps. induction steps as [|steps IH]; intros lastErr s.
  - exists []. cbn. by repeat split.
  - cbn [RetryOnConflict]. unfold_run.
    pose proof (HP s) as Hround.
    destruct (fn s) as [[[a|e|p] s1] t1]; cbn in Hround.
    + exists [t1]. cbn. repeat split; [lia|done|]. by constructor.
    + destruct (IsConflict e).
      * destruct (IH (Some e) s1) as (rounds & Ht & Hlen & _ & Hall).
        destruct (RetryOnConflict steps fn (Some e) s1) as [[b s2] t2].
        cbn in Ht. subst t2. exists (t1 :: rounds). cbn.
        repeat split; [lia|done|]. by constructor.
      * exists [t1]. cbn. repeat split; [lia|done|]. by constructor.
    + exists [t1]. cbn. repeat split; [lia|done|]. by constructor.
Qed.

(** X12: when [Handle] goes to work, its calls are those of
    [initDevices] followed by at least one and at most five attempts to
    record the outcome. Each attempt is a [Get] of the request by name,
    followed or not by one [Update]; every request submitted carries for
    this node the same result, marked completed, with the device results
    of [initDevices] or, when the re-probe failed, with its error and no
    device results. *)
Theorem Handle_records_completion (handler : initRequestEventHandler W)
    (args : EventArgs) (devices : list InitDevice) (s : state W) :
  Event args ≠ DeleteEvent →
  Spec_Response (Object args) ≫= (.!! nodeID handler) = None →
  Status_Request (Object args) !! nodeID handler = Some devices →
  let name := InitRequest_Name (Object args) in
  let '(r0, _, t0) := initDevices handler devices s in
  ∃ initResult rounds,
    InitResult_Completed initResult = true ∧
    match r0 with
    | inr results =>
        InitResult_Devices initResult = results ∧
        InitResult_Error initResult = ""%string
    | inl err =>
        InitResult_Devices initResult = [] ∧
        InitResult_Error initResult = message err
    end ∧
    (Handle handler args s).2 = t0 ++ concat rounds ∧
    (1 ≤ length rounds ≤ 5)%nat ∧
    Forall (λ round,
      round = [CallInitRequestGet name] ∨
      ∃ request,
        round = [CallInitRequestGet name; CallInitRequestUpdate request] ∧
        Spec_Response request ≫= (.!! nodeID handler) = Some initResult)
      rounds.
Proof.
  intros Hev Hresp Hreq name.
  rewrite (Handle_proceeds handler args devices s Hev Hresp Hreq).
  destruct (initDevices handler devices s) as [[r0 s1] t0].
  set (initResult := match r0 with
                     | inr results => mkInitResult true results ""
                     | inl err => mkInitResult true [] (message err)
                     end).
  cbv beta iota zeta.
  destruct (RetryOnConflict_rounds
              (λ round,
                 round = [CallInitRequestGet name] ∨
                 ∃ request,
                   round = [CallInitRequestGet name;
                            CallInitRequestUpdate request] ∧
                   Spec_Response request ≫= (.!! nodeID handler)
                     = Some initResult)
              (Handle_update handler name initResult)
              (Handle_update_round handler name initResult)
              DefaultRetry_Steps None s1)
    as (rounds & Ht & Hlen & Hne & Hall).
  fold name.
  destruct (@RetryOnConflict W _ _ _ s1) as [[b s2] t2]. cbn in Ht. subst t2.
  exists initResult, rounds. cbn.
  split; [by destruct r0|]. split; [by destruct r0|].
  split; [done|]. split; [|done].
  unfold DefaultRetry_Steps in *.
  destruct rounds; [by destruct Hne|cbn in *; lia].
Qed.

(** X13: two ends of the first attempt. When the request can no longer
    be found, [Handle] returns no error after that [Get] and writes
    nothing, although the devices have been worked on. When the request
    that [Get] returns has no response map, the assignment into it panics
    and nothing is written either. *)
Theorem Handle_first_attempt (handler : initRequestEventHandler W)
    (args : EventArgs) (devices : list InitDevice) (s : state W) :
  Event args ≠ DeleteEvent →
  Spec_Response (Object args) ≫= (.!! nodeID handler) = None →
  Status_Request (Object args) !! nodeID handler = Some devices →
  let name := InitRequest_Name (Object args) in
  let '(_, s0, t0) := initDevices handler devices s in
  (∀ err w1,
     InitRequestClient_Get name (world s0) = (inl err, w1) →
     IsNotFound err = true →
     Handle handler args s
       = (Value tt, mkState w1 (arrays s0), t0 ++ [CallInitRequestGet name])) ∧
  (∀ request w1,
     InitRequestClient_Get name (world s0) = (inr request, w1) →
     Spec_Response request = None →
     Handle handler args s
       = (Panic NilMapAssignment, mkState w1 (arrays s0),
          t0 ++ [CallInitRequestGet name])).
Proof.
  intros Hev Hresp Hreq name.
  rewrite (Handle_proceeds handler args devices s Hev Hresp Hreq).
  destruct (initDevices handler devices s) as [[r0 s0] t0].
  cbv beta iota zeta. fold name. unfold DefaultRetry_Steps.
  cbn [RetryOnConflict].
  unfold InitRequest.Handle_update. unfold_run.
  split.
  - intros err w1 HGet Hnf. rewrite HGet. cbn. rewrite Hnf. cbn. done.
  - intros request w1 HGet Hnil. rewrite HGet. cbn. rewrite Hnil. cbn. done.
Qed.

End RunFacts.

Lemma Handle_records_completion_witness :
  let request :=
    mkInitRequest "request-1" (Some ∅)
      {[ "node-1"%string := [mkInitDevice "sdx" "9:99" "9:99$any" false] ]} in
  let get := fun (name : string) (w : sampleWorld) =>
    (inr request : error + InitRequestT, w) in
  let update := fun (request : InitRequestT) (w : sampleWorld) =>
    (None : option error, w) in
  let handler := sampleHandler None None in
  let args := mkEventArgs AddEvent request in
  let devices := [mkInitDevice "sdx" "9:99" "9:99$any" false] in
  let name := InitRequest_Name (Object args) in
  let '(r0, _, t0) :=
    initDevices sampleSum256 sampleEncode sampleAddDevPrefix sampleUUID
      (sampleCreate None) handler devices sampleState in
  ∃ initResult rounds,
    InitResult_Completed initResult = true ∧
    match r0 with
    | inr results =>
        InitResult_Devices initResult = results ∧
        InitResult_Error initResult = ""%string
    | inl err =>
        InitResult_Devices initResult = [] ∧
        InitResult_Error initResult = message err
    end ∧
    (Handle sampleSum256 sampleEncode sampleAddDevPrefix sampleUUID
       (sampleCreate None) get update handler args sampleState).2
      = t0 ++ concat rounds ∧
    (1 ≤ length rounds ≤ 5)%nat ∧
    Forall (λ round,
      round = [CallInitRequestGet name] ∨
      ∃ request,
        round = [CallInitRequestGet name; CallInitRequestUpdate request] ∧
        Spec_Response request ≫= (.!! nodeID handler) = Some initResult)
      rounds.
Proof.
  intros request get update handler args devices.
  apply (Handle_records_completion sampleWorld sampleSum256 sampleEncode
           sampleAddDevPrefix sampleUUID (sampleCreate None) get update
           handler args devices sampleState).
  - discriminate.
  - reflexivity.
  - reflexivity.
Defined.

Lemma Handle_first_attempt_witness :
  let request :=
    mkInitRequest "request-1" (Some ∅)
      {[ "node-1"%string := [mkInitDevice "sdx" "9:99" "9:99$any" false] ]} in
  let gone := mkError "not found" StatusReasonNotFound in
  let get := fun (name : string) (w : sampleWorld) =>
    (inl gone : error + InitRequestT, w) in
  let update := fun (request : InitRequestT) (w : sampleWorld) =>
    (None : option error, w) in
  let handler := sampleHandler None None in
  let args := mkEventArgs AddEvent request in
  let devices := [mkInitDevice "sdx" "9:99" "9:99$any" false] in
  let name := InitRequest_Name (Object args) in
  let '(_, s0, t0) :=
    initDevices sampleSum256 sampleEncode sampleAddDevPrefix sampleUUID
      (sampleCreate None) handler devices sampleState in
  (∀ err w1,
     get name (world s0) = (inl err, w1) →
     IsNotFound err = true →
     Handle sampleSum256 sampleEncode sampleAddDevPrefix sampleUUID
       (sampleCreate None) get update handler args sampleState
       = (Value tt, mkState w1 (arrays s0), t0 ++ [CallInitRequestGet name])) ∧
  (∀ request w1,
     get name (world s0) = (inr request, w1) →
     Spec_Response request = None →
     Handle sampleSum256 sampleEncode sampleAddDevPrefix sampleUUID
       (sampleCreate None) get update handler args sampleState
       = (Panic NilMapAssignment, mkState w1 (arrays s0),
          t0 ++ [CallInitRequestGet name])).
Proof.
  intros request gone get update handler args devices.
  apply (Handle_first_attempt sampleWorld sampleSum256 sampleEncode
           sampleAddDevPrefix sampleUUID (sampleCreate None) get update
           handler args devices sampleState).
  - discriminate.
  - reflexivity.
  - reflexivity.
Defined.

End InitRequestRunFacts.

(** ** The repair commands *)

Module RepairFacts.
Import Go Ledger Repair.

(** *** Prefixes and suffixes *)

Lemma append_nil_l (s : string) : ""%string +:+ s = s.
Proof. reflexivity. Qed.

Lemma append_cons (a : ascii) (s t : string) :
  String a s +:+ t = String a (s +:+ t).
Proof. reflexivity. Qed.

Lemma substring_0_app (p x : string) :
  substring 0 (String.length p) (p +:+ x) = p.
Proof.
  induction p as [|a p IH].
  - rewrite append_nil_l. by destruct x.
  - rewrite append_cons. cbn. by rewrite IH.
Qed.

Lemma substring_length_app (p x : string) :
  substring (String.length p) (String.length x) (p +:+ x) = x.
Proof.
  induction p as [|a p IH].
  - rewrite append_nil_l. cbn. induction x as [|b x IHx]; [done|].
    cbn. by rewrite IHx.
  - rewrite append_cons. cbn. exact IH.
Qed.

Lemma HasPrefix_app (p x : string) : HasPrefix (p +:+ x) p = true.
Proof.
  unfold HasPrefix. rewrite DeviceFacts.string_app_length, substring_0_app.
  rewrite String.eqb_refl, andb_true_r. apply Nat.leb_le. lia.
Qed.

Lemma TrimPrefix_app (p x : string) : TrimPrefix (p +:+ x) p = x.
Proof.
  unfold TrimPrefix. rewrite HasPrefix_app, DeviceFacts.string_app_length.
  replace (String.length p + String.length x - String.length p)%nat
    with (String.length x) by lia.
  apply substring_length_app.
Qed.

Lemma HasSuffix_app (x q : string) : HasSuffix (x +:+ q) q = true.
Proof.
  unfold HasSuffix. rewrite DeviceFacts.string_app_length.
  replace (String.length x + String.length q - String.length q)%nat
    with (String.length x) by lia.
  rewrite substring_length_app, String.eqb_refl, andb_true_r.
  apply Nat.leb_le. lia.
Qed.

Lemma TrimSuffix_app (x q : string) : TrimSuffix (x +:+ q) q = x.
Proof.
  unfold TrimSuffix. rewrite HasSuffix_app, DeviceFacts.string_app_length.
  replace (String.length x + String.length q - String.length q)%nat
    with (String.length x) by lia.
  apply substring_0_app.
Qed.

(** X14: the file system UUID is read back from the host path of a
    volume: for every UUID and volume name, the path made of the mount
    root, the UUID, a slash and the volume name gives back the UUID. A
    host path that neither starts with the mount root nor ends with the
    slash and the volume name is returned whole. *)
Theorem getFSUUIDFromHostPath_round_trip (fsuuid volumeName : string) :
  getFSUUIDFromHostPath
    ("/var/lib/direct-csi/mnt/" +:+ fsuuid +:+ "/" +:+ volumeName) volumeName
    = fsuuid ∧
  ∀ hostPath,
    HasPrefix hostPath "/var/lib/direct-csi/mnt/" = false →
    HasSuffix hostPath ("/" +:+ volumeName) = false →
    getFSUUIDFromHostPath hostPath volumeName = hostPath.
Proof.
  split.
  - unfold getFSUUIDFromHostPath. rewrite TrimPrefix_app.
    apply TrimSuffix_app.
  - intros hostPath Hp Hs. unfold getFSUUIDFromHostPath, TrimPrefix.
    rewrite Hp. unfold TrimSuffix. by rewrite Hs.
Qed.

(** *** [excludeFinalizer] *)

Lemma excludeFinalizer_filter (finalizers : list string) (finalizer : string) :
  excludeFinalizer finalizers finalizer
  = (filter (λ f, f ≠ finalizer) finalizers,
     bool_decide (finalizer ∈ finalizers)).
Proof.
  exact (LedgerFacts.excludeFinalizer_spec unit unit (λ _ w, (inl tt, w))
           finalizers finalizer).
Qed.

Lemma filter_ne_id (l : list string) (x : string) :
  x ∉ l → filter (λ f, f ≠ x) l = l.
Proof.
  induction l as [|f l IH]; [done|]. intros [Hne Hl]%not_elem_of_cons.
  rewrite filter_cons_True by done. f_equal. by apply IH.
Qed.

(** X15: [excludeFinalizer] removes every copy of the finalizer and
    nothing else: the result is the list of the finalizers other than the
    given one, each as often as it was there and in the order it was there,
    [found] tells whether the finalizer was there, a list without the
    finalizer is returned as it is, and excluding the same finalizer from
    the result again finds nothing and changes nothing. *)
Theorem excludeFinalizer_removes_every_copy (finalizers : list string)
    (finalizer : string) :
  let '(result, found) := excludeFinalizer finalizers finalizer in
  result = filter (λ f, f ≠ finalizer) finalizers ∧
  (∀ f, f ≠ finalizer →
     length (filter (λ g, g = f) result)
       = length (filter (λ g, g = f) finalizers)) ∧
  (finalizer ∉ result) ∧
  result `sublist_of` finalizers ∧
  (∀ f, f ≠ finalizer → f ∈ result ↔ f ∈ finalizers) ∧
  (found = true ↔ finalizer ∈ finalizers) ∧
  (found = false → result = finalizers) ∧
  excludeFinalizer result finalizer = (result, false).
Proof.
  rewrite excludeFinalizer_filter.
  assert (Hnot : finalizer ∉ filter (λ f, f ≠ finalizer) finalizers).
  { intros Hin. by apply list_elem_of_filter in Hin as [Hne _]. }
  split; [done|]. split.
  { intros f Hne. rewrite list_filter_filter. f_equal.
    apply list_filter_iff. intros g. split; [tauto|].
    intros ->. done. }
  split; [done|]. split; [apply sublist_filter|].
  split; [|split; [|split]].
  - intros f Hne. rewrite list_elem_of_filter. tauto.
  - apply bool_decide_eq_true.
  - intros Hfound. apply bool_decide_eq_false in Hfound.
    by apply filter_ne_id.
  - rewrite excludeFinalizer_filter. f_equal.
    + by apply filter_ne_id.
    + by apply bool_decide_eq_false.
Qed.

(** *** [int64] arithmetic *)

Lemma int64_add_l (a b : Z) : int64 (int64 a + b) = int64 (a + b).
Proof.
  unfold int64. f_equal.
  replace ((a + 2 ^ 63) `mod` 2 ^ 64 - 2 ^ 63 + b + 2 ^ 63)
    with ((a + 2 ^ 63) `mod` 2 ^ 64 + b) by lia.
  rewrite Zplus_mod_idemp_l. f_equal. lia.
Qed.

Lemma int64_add_r (a b : Z) : int64 (a + int64 b) = int64 (a + b).
Proof. by rewrite (Z.add_comm a), int64_add_l, (Z.add_comm b). Qed.

Lemma int64_id (x : Z) : - 2 ^ 63 ≤ x < 2 ^ 63 → int64 x = x.
Proof. intros Hx. unfold int64. rewrite Z.mod_small; lia. Qed.

Section RepairRunFacts.

Variable GroupName : string.
Variable DirectCSIVolumeFinalizerPurgeProtection : string.
Variable StringIn : list string → string → bool.
Variable W : Type.
Variable error : Type.
Variable IsNotFound : error → bool.
Variable Errorf : string → error.
Variable DriveInterface_Get : string → W → (error + DirectCSIDrive) * W.
Variable DriveInterface_Update : DirectCSIDrive → W → option error * W.
Variable VolumeInterface_Get : string → W → (error + DirectCSIVolume) * W.
Variable VolumeInterface_Update : DirectCSIVolume → W → option error * W.
Variable PersistentVolumes_Get : string → W → (error + PersistentVolume) * W.

Local Abbreviation DirectCSIDriveFinalizerPrefix :=
  (Ledger.DirectCSIDriveFinalizerPrefix GroupName).
Local Abbreviation dummyReleaseVolume :=
  (Ledger.dummyReleaseVolume GroupName W error DriveInterface_Get
     DriveInterface_Update).
Local Abbreviation dummyDelete :=
  (Repair.dummyDelete GroupName DirectCSIVolumeFinalizerPurgeProtection
     W error Errorf DriveInterface_Get DriveInterface_Update
     VolumeInterface_Get VolumeInterface_Update).

(** X16: the capacity bookkeeping of [dummyReleaseVolume]. When the
    drive does not carry the finalizer of the volume, nothing is written
    and no error is returned. When it does, the drive that is submitted
    has the free capacity raised by the capacity of the volume and the
    allocated capacity set to what is left of the total, whatever the
    allocated capacity was before; without overflow the two are the sum
    and the difference, and they add up to the total. *)
Theorem dummyReleaseVolume_accounting (driveName volumeName : string)
    (capacity : Z) (w w1 : W) (drive : DirectCSIDrive) :
  DriveInterface_Get driveName w = (inr drive, w1) →
  let finalizer := DirectCSIDriveFinalizerPrefix +:+ volumeName in
  (finalizer ∉ Finalizers drive →
   dummyReleaseVolume driveName volumeName capacity w
     = (None, w1, [CallDriveGet driveName])) ∧
  (finalizer ∈ Finalizers drive →
   ∃ drive',
     (dummyReleaseVolume driveName volumeName capacity w).2
       = [CallDriveGet driveName; CallDriveUpdate drive'] ∧
     Name drive' = Name drive ∧
     TotalCapacity drive' = TotalCapacity drive ∧
     FreeCapacity drive' = int64 (FreeCapacity drive + capacity) ∧
     int64 (FreeCapacity drive' + AllocatedCapacity drive')
       = int64 (TotalCapacity drive) ∧
     (0 ≤ FreeCapacity drive → 0 ≤ capacity →
      FreeCapacity drive + capacity ≤ TotalCapacity drive < 2 ^ 63 →
      FreeCapacity drive' = FreeCapacity drive + capacity ∧
      AllocatedCapacity drive'
        = TotalCapacity drive - FreeCapacity drive - capacity ∧
      FreeCapacity drive' + AllocatedCapacity drive' = TotalCapacity drive)).
Proof.
  intros HGet finalizer. unfold Ledger.dummyReleaseVolume. rewrite HGet.
  fold finalizer. rewrite excludeFinalizer_filter. split.
  - intros Hnot. by rewrite bool_decide_eq_false_2.
  - intros Hin. rewrite bool_decide_eq_true_2 by done.
    destruct (DriveInterface_Update _ w1) as [err w2] eqn:HUpdate.
    eexists. split; [reflexivity|].
    set (kept := filter (λ f, f ≠ finalizer) (Finalizers drive)).
    assert (Hcap : ∀ d : DirectCSIDrive,
      Name (Ledger.readyIfOnlyProtected GroupName kept d) = Name d ∧
      TotalCapacity (Ledger.readyIfOnlyProtected GroupName kept d)
        = TotalCapacity d ∧
      FreeCapacity (Ledger.readyIfOnlyProtected GroupName kept d)
        = FreeCapacity d).
    { intros d. unfold Ledger.readyIfOnlyProtected.
      destruct (length kept =? 1)%nat; [|done].
      destruct (kept !! 0%nat); [|done].
      by destruct (String.eqb _ _). }
    destruct (Hcap drive) as (HName & HTotal & HFree).
    cbn. rewrite HName, HTotal, HFree.
    split; [done|]. split; [done|]. split; [done|]. split.
    + rewrite int64_add_r. f_equal. lia.
    + intros Hfree Hcapacity Htotal.
      rewrite (int64_id (FreeCapacity drive + capacity)) by lia.
      rewrite int64_id by lia. lia.
Qed.

(** X17: [dummyDelete] releases a volume only when the volume carries
    no finalizer other than the purge protection. Otherwise it returns
    the error that asks to wait, after the one lookup of the volume. When
    it goes on, its next call is the lookup of the drive of the volume;
    if it submits a volume, that is its last call, and the volume is the
    one it looked up with no finalizers left. *)
Theorem dummyDelete_waits_for_release (v volume : DirectCSIVolume)
    (w w1 : W) :
  VolumeInterface_Get (Volume_Name v) w = (inr volume, w1) →
  let '(err, w', t) := dummyDelete v w in
  ((∃ f, f ∈ Volume_Finalizers volume ∧
         f ≠ DirectCSIVolumeFinalizerPurgeProtection) →
   err = Some (Errorf
           "waiting for the volume to be released before cleaning up") ∧
   w' = w1 ∧ t = [CallVolumeGet (Volume_Name v)]) ∧
  ((∀ f, f ∈ Volume_Finalizers volume →
         f = DirectCSIVolumeFinalizerPurgeProtection) →
   (∃ t', t = CallVolumeGet (Volume_Name v)
              :: DriveCall (CallDriveGet (Volume_Drive volume)) :: t') ∧
   (∀ volume', CallVolumeUpdate volume' ∈ t →
      volume' = Volume_SetFinalizers volume [] ∧
      last t = Some (CallVolumeUpdate volume'))).
Proof.
  intros HGet. unfold Repair.dummyDelete. rewrite HGet.
  rewrite excludeFinalizer_filter.
  set (purge := DirectCSIVolumeFinalizerPurgeProtection).
  destruct (filter (λ f, f ≠ purge) (Volume_Finalizers volume))
    as [|f kept] eqn:Hkept.
  - cbn [length Nat.ltb Nat.leb].
    assert (Hfirst : ∃ t',
      (dummyReleaseVolume (Volume_Drive volume) (Volume_Name volume)
         (Volume_TotalCapacity volume) w1).2
      = CallDriveGet (Volume_Drive volume) :: t' ∧
      ∀ volume', CallVolumeUpdate volume' ∉ DriveCall <$> t').
    { unfold Ledger.dummyReleaseVolume.
      destruct (DriveInterface_Get (Volume_Drive volume) w1) as [[e|d] w2].
      - eexists. split; [done|]. intros ? H. by apply not_elem_of_nil in H.
      - destruct (excludeFinalizer _ _) as [fs [|]].
        + destruct (DriveInterface_Update _ w2). eexists. split; [done|].
          intros ? H. apply list_elem_of_singleton in H. done.
        + eexists. split; [done|]. intros ? H. by apply not_elem_of_nil in H. }
    destruct Hfirst as (t' & Ht' & Hno).
    destruct (dummyReleaseVolume _ _ _ w1) as [[[e|] w2] t]; cbn in Ht'; subst t.
    + split.
      * intros (f & Hf & Hne). exfalso.
        assert (f ∈ filter (λ f, f ≠ purge) (Volume_Finalizers volume))
          by (by apply list_elem_of_filter).
        rewrite Hkept in H. by apply not_elem_of_nil in H.
      * intros _. split; [by eexists|]. intros volume' Hin. exfalso.
        apply elem_of_cons in Hin as [?|Hin]; [done|]. cbn in Hin.
        apply elem_of_cons in Hin as [?|Hin]; [done|]. by apply Hno in Hin.
    + destruct (VolumeInterface_Update _ w2) as [err w3]. split.
      * intros (f & Hf & Hne). exfalso.
        assert (f ∈ filter (λ f, f ≠ purge) (Volume_Finalizers volume))
          by (by apply list_elem_of_filter).
        rewrite Hkept in H. by apply not_elem_of_nil in H.
      * intros _. split; [by eexists|]. intros volume' Hin.
        apply elem_of_cons in Hin as [?|Hin]; [done|].
        apply elem_of_app in Hin as [Hin|Hin].
        -- exfalso. cbn in Hin.
           apply elem_of_cons in Hin as [?|Hin]; [done|]. by apply Hno in Hin.
        -- apply list_elem_of_singleton in Hin as [= ->].
           split; [done|]. rewrite app_comm_cons. apply last_snoc.
  - cbn [length Nat.ltb Nat.leb]. split.
    + done.
    + intros Hall. exfalso.
      assert (Hf : f ∈ filter (λ f, f ≠ purge) (Volume_Finalizers volume))
        by (rewrite Hkept; apply list_elem_of_here).
      apply list_elem_of_filter in Hf as [Hne Hf]. by apply Hne, Hall.
Qed.

Local Abbreviation volumeSizeLoop :=
  (Repair.volumeSizeLoop GroupName W error IsNotFound VolumeInterface_Get).
Local Abbreviation getVolumeSizeFromDrive :=
  (Repair.getVolumeSizeFromDrive GroupName W error IsNotFound
     VolumeInterface_Get).
Local Abbreviation isStaleVolume :=
  (Repair.isStaleVolume W error IsNotFound VolumeInterface_Get
     PersistentVolumes_Get).

Lemma volumeSizeLoop_calls (volumeName : string) (finalizers : list string) :
  ∀ total w ev,
    ev ∈ (volumeSizeLoop volumeName finalizers total w).2 →
    ∃ name, ev = CallVolumeGet name ∧ name ≠ volumeName.
Proof.
  induction finalizers as [|f finalizers IH]; intros total w ev; cbn.
  - intros H. by apply not_elem_of_nil in H.
  - destruct (HasPrefix f DirectCSIDriveFinalizerPrefix); cbn; [|apply IH].
    destruct (String.eqb_spec (TrimPrefix f DirectCSIDriveFinalizerPrefix)
                volumeName) as [Heq|Hne]; [apply IH|].
    destruct (VolumeInterface_Get _ w) as [[err|volume] w1].
    + destruct (IsNotFound err); cbn.
      * specialize (IH total w1 ev).
        destruct (volumeSizeLoop volumeName finalizers total w1)
          as [[x w2] t]. cbn in *.
        intros [->|Hin]%elem_of_cons; [by eexists|by apply IH].
      * intros ->%list_elem_of_singleton. by eexists.
    + specialize (IH (int64 (total + Volume_TotalCapacity volume)) w1 ev).
      destruct (volumeSizeLoop volumeName finalizers _ w1) as [[x w2] t].
      cbn in *.
      intros [->|Hin]%elem_of_cons; [by eexists|by apply IH].
Qed.

(** X18: [getVolumeSizeFromDrive] only moves capacity from the drive to
    the size it returns: the allocated capacity of the drive never grows,
    the size returned is what the allocated capacity went down by, and
    the name, finalizers, status, total and free capacity of the drive
    stay as they are. When a lookup fails, the size is zero and the drive
    is untouched. The function only looks up volumes, and never the
    volume it is asked about. *)
Theorem getVolumeSizeFromDrive_conserves (drive : DirectCSIDrive)
    (volumeName : string) (w : W) :
  let '(volumeSize, err, drive', w', t) :=
    getVolumeSizeFromDrive drive volumeName w in
  (Name drive' = Name drive ∧ Finalizers drive' = Finalizers drive ∧
   DriveStatus drive' = DriveStatus drive ∧
   TotalCapacity drive' = TotalCapacity drive ∧
   FreeCapacity drive' = FreeCapacity drive) ∧
  AllocatedCapacity drive' ≤ AllocatedCapacity drive ∧
  volumeSize = int64 (AllocatedCapacity drive - AllocatedCapacity drive') ∧
  (is_Some err → volumeSize = 0 ∧ drive' = drive) ∧
  (∀ ev, ev ∈ t → ∃ name, ev = CallVolumeGet name ∧ name ≠ volumeName).
Proof.
  unfold Repair.getVolumeSizeFromDrive.
  pose proof (volumeSizeLoop_calls volumeName (Finalizers drive) 0 w) as Hcalls.
  destruct (volumeSizeLoop volumeName (Finalizers drive) 0 w)
    as [[[total|err] w1] t]; cbn in Hcalls.
  - destruct (AllocatedCapacity drive >? total) eqn:Hgt.
    + apply Z.gtb_lt in Hgt. cbn.
      repeat split; try done; try lia; try by intros [? [=]].
    + rewrite Z.sub_diag.
      repeat split; try done; try lia; try by intros [? [=]].
  - rewrite Z.sub_diag. repeat split; try done; try lia.
Qed.


(** *** Finalizers without a volume *)

Local Abbreviation hasUnexpectedLoop :=
  (Repair.hasUnexpectedLoop GroupName W error IsNotFound VolumeInterface_Get).
Local Abbreviation validFinalizersLoop :=
  (Repair.validFinalizersLoop GroupName W error IsNotFound
     VolumeInterface_Get).

Lemma validFinalizersLoop_kept (driveName : string) (finalizers : list string) :
  ∀ acc w valid,
    (validFinalizersLoop driveName finalizers acc w).1.1 = inr valid →
    ∃ kept, valid = acc ++ kept ∧ kept `sublist_of` finalizers ∧
      ∀ f, f ∈ finalizers →
           HasPrefix f DirectCSIDriveFinalizerPrefix = false → f ∈ kept.
Proof.
  induction finalizers as [|f finalizers IH]; intros acc w valid; cbn.
  - intros [= <-]. exists []. rewrite app_nil_r. split; [done|].
    split; [done|]. intros f Hf. by apply not_elem_of_nil in Hf.
  - destruct (HasPrefix f DirectCSIDriveFinalizerPrefix) eqn:Hp; cbn.
    2:{ intros Hrun. apply IH in Hrun as (kept & -> & Hsub & Hall).
        exists (f :: kept). rewrite <-app_assoc. split; [done|].
        split; [by constructor|].
        intros g [->|Hg]%elem_of_cons Hg'; [apply list_elem_of_here|].
        apply list_elem_of_further. by apply Hall. }
    assert (Hskip : ∀ acc' w1,
      (validFinalizersLoop driveName finalizers acc' w1).1.1 = inr valid →
      acc' = acc ∨ acc' = acc ++ [f] →
      ∃ kept, valid = acc ++ kept ∧ kept `sublist_of` f :: finalizers ∧
        ∀ g, g ∈ f :: finalizers →
             HasPrefix g DirectCSIDriveFinalizerPrefix = false → g ∈ kept).
    { intros acc' w1 Hrun Hacc.
      apply IH in Hrun as (kept & -> & Hsub & Hall).
      destruct Hacc as [->| ->].
      - exists kept. split; [done|]. split; [by constructor|].
        intros g [->|Hg]%elem_of_cons Hg'; [congruence|by apply Hall].
      - exists (f :: kept). rewrite <-app_assoc. split; [done|].
        split; [by constructor|].
        intros g [->|Hg]%elem_of_cons Hg'; [congruence|].
        apply list_elem_of_further. by apply Hall. }
    destruct (VolumeInterface_Get _ w) as [[err|volume] w1].
    + destruct (IsNotFound err); cbn; [|done].
      specialize (Hskip acc w1).
      destruct (validFinalizersLoop driveName finalizers acc w1)
        as [[x w2] t]. cbn in *. intros Hx. apply Hskip; [done|by left].
    + set (acc' := if String.eqb (Volume_Drive volume) driveName
                   then acc ++ [f] else acc).
      specialize (Hskip acc' w1).
      destruct (validFinalizersLoop driveName finalizers acc' w1)
        as [[x w2] t]. cbn in *. intros Hx. apply Hskip; [done|].
      unfold acc'. destruct (String.eqb _ _); [by right|by left].
Qed.

Lemma validFinalizersLoop_all (driveName : string) (finalizers : list string) :
  (∀ name w, (VolumeInterface_Get name w).2 = w) →
  ∀ acc w w' t,
    hasUnexpectedLoop driveName finalizers w = ((false, None), w', t) →
    validFinalizersLoop driveName finalizers acc w
      = (inr (acc ++ finalizers), w, t).
Proof.
  intros Hro.
  induction finalizers as [|f finalizers IH]; intros acc w w' t; cbn.
  - intros [= <- <-]. by rewrite app_nil_r.
  - destruct (HasPrefix f DirectCSIDriveFinalizerPrefix) eqn:Hp; cbn.
    2:{ intros Hrun. rewrite (IH _ _ _ _ Hrun). by rewrite <-app_assoc. }
    pose proof (Hro (TrimPrefix f DirectCSIDriveFinalizerPrefix) w) as Hw.
    destruct (VolumeInterface_Get _ w) as [[err|volume] w1]; cbn in Hw; subst w1.
    + by destruct (IsNotFound err).
    + destruct (String.eqb (Volume_Drive volume) driveName); cbn; [|done].
      destruct (hasUnexpectedLoop driveName finalizers w)
        as [[x w2] t2] eqn:Hrest.
      intros [= -> <- <-]. rewrite (IH _ _ _ _ Hrest).
      by rewrite <-app_assoc.
Qed.

Lemma validFinalizersLoop_fewer (driveName : string)
    (finalizers : list string) :
  (∀ name w, (VolumeInterface_Get name w).2 = w) →
  ∀ acc w valid,
    (hasUnexpectedLoop driveName finalizers w).1.1 = (true, None) →
    (validFinalizersLoop driveName finalizers acc w).1.1 = inr valid →
    (length valid < length acc + length finalizers)%nat.
Proof.
  intros Hro.
  induction finalizers as [|f finalizers IH]; intros acc w valid; cbn.
  - done.
  - destruct (HasPrefix f DirectCSIDriveFinalizerPrefix) eqn:Hp; cbn.
    2:{ intros Hhas Hrun. specialize (IH _ _ _ Hhas Hrun).
        rewrite length_app in IH. cbn in IH. lia. }
    pose proof (Hro (TrimPrefix f DirectCSIDriveFinalizerPrefix) w) as Hw.
    destruct (VolumeInterface_Get _ w) as [[err|volume] w1]; cbn in Hw; subst w1.
    + destruct (IsNotFound err); cbn; [|done]. intros _.
      pose proof (validFinalizersLoop_kept driveName finalizers acc w valid)
        as Hkept.
      destruct (validFinalizersLoop driveName finalizers acc w)
        as [[x w2] t]. cbn in *. intros Hx.
      destruct (Hkept Hx) as (kept & -> & Hsub%sublist_length & _).
      rewrite length_app. lia.
    + destruct (String.eqb (Volume_Drive volume) driveName); cbn.
      * specialize (IH (acc ++ [f]) w valid).
        destruct (hasUnexpectedLoop driveName finalizers w) as [[x w2] t2].
        destruct (validFinalizersLoop driveName finalizers (acc ++ [f]) w)
          as [[y w3] t3]. cbn in *. intros Hx Hy.
        specialize (IH Hx Hy). rewrite length_app in IH. cbn in IH. lia.
      * intros _.
        pose proof (validFinalizersLoop_kept driveName finalizers acc w valid)
          as Hkept.
        destruct (validFinalizersLoop driveName finalizers acc w)
          as [[x w2] t]. cbn in *. intros Hx.
        destruct (Hkept Hx) as (kept & -> & Hsub%sublist_length & _).
        rewrite length_app. lia.
Qed.

(** X20: the finalizers that [removeUnexpectedFinalizers] collects are
    finalizers of the drive, in their order, and all those that do not
    name a volume are among them. On a cluster whose lookups do not
    change it, the collection agrees with the check of
    [hasUnexpectedFinalizers]: when the check finds nothing unexpected,
    every finalizer is kept, after the same lookups; when it finds
    something, fewer finalizers are kept than the drive has. *)
Theorem validFinalizers_agree_with_check (driveName : string)
    (finalizers : list string) (w : W) :
  (∀ valid,
     (validFinalizersLoop driveName finalizers [] w).1.1 = inr valid →
     valid `sublist_of` finalizers ∧
     ∀ f, f ∈ finalizers →
          HasPrefix f DirectCSIDriveFinalizerPrefix = false → f ∈ valid) ∧
  ((∀ name w, (VolumeInterface_Get name w).2 = w) →
   (∀ w' t,
      hasUnexpectedLoop driveName finalizers w = ((false, None), w', t) →
      validFinalizersLoop driveName finalizers [] w = (inr finalizers, w, t)) ∧
   (∀ valid,
      (hasUnexpectedLoop driveName finalizers w).1.1 = (true, None) →
      (validFinalizersLoop driveName finalizers [] w).1.1 = inr valid →
      (length valid < length finalizers)%nat)).
Proof.
  split; [|intros Hro; split].
  - intros valid Hrun.
    by apply validFinalizersLoop_kept in Hrun as (kept & -> & Hsub & Hall).
  - intros w' t Hhas.
    by rewrite (validFinalizersLoop_all driveName finalizers Hro [] w w' t).
  - intros valid Hhas Hrun.
    by apply (validFinalizersLoop_fewer driveName finalizers Hro [] w valid).
Qed.

Local Abbreviation hasUnexpectedFinalizers :=
  (Repair.hasUnexpectedFinalizers GroupName W error IsNotFound
     DriveInterface_Get VolumeInterface_Get).

Lemma hasUnexpectedLoop_verdict (driveName : string)
    (finalizers : list string) :
  ∀ w,
    let '(unexpected, err, w', t) :=
      hasUnexpectedLoop driveName finalizers w in
    (is_Some err → unexpected = true) ∧
    (unexpected = false →
     t = (λ f, CallVolumeGet (TrimPrefix f DirectCSIDriveFinalizerPrefix))
         <$> filter (λ f, HasPrefix f DirectCSIDriveFinalizerPrefix = true)
               finalizers).
Proof.
  induction finalizers as [|f finalizers IH]; intros w.
  - cbn. split; [by intros [? [=]]|done].
  - cbn [Repair.hasUnexpectedLoop].
    destruct (HasPrefix f DirectCSIDriveFinalizerPrefix) eqn:Hp; cbn [negb].
    2:{ rewrite filter_cons_False by (by rewrite Hp). apply IH. }
    rewrite filter_cons_True by done. rewrite fmap_cons.
    destruct (VolumeInterface_Get _ w) as [[err|volume] w1].
    + by destruct (IsNotFound err).
    + destruct (String.eqb (Volume_Drive volume) driveName); cbn [negb];
        [|done].
      specialize (IH w1).
      destruct (hasUnexpectedLoop driveName finalizers w1)
        as [[[unexpected err] w2] t].
      destruct IH as [Herr Hclean]. split; [done|].
      intros Hfalse. by rewrite (Hclean Hfalse).
Qed.

(** X21: the verdict of [hasUnexpectedFinalizers]. An error always
    comes with the verdict that something unexpected is there. The
    verdict that nothing unexpected is there is reached only after the
    drive was found and after every volume that a finalizer of the drive
    names has been looked up, in the order of the finalizers. *)
Theorem hasUnexpectedFinalizers_verdict (driveName : string) (w : W) :
  let '(unexpected, err, w', t) := hasUnexpectedFinalizers driveName w in
  (is_Some err → unexpected = true) ∧
  (unexpected = false →
   ∃ drive w1,
     DriveInterface_Get driveName w = (inr drive, w1) ∧
     t = DriveCall (CallDriveGet driveName)
         :: ((λ f, CallVolumeGet (TrimPrefix f DirectCSIDriveFinalizerPrefix))
             <$> filter (λ f, HasPrefix f DirectCSIDriveFinalizerPrefix = true)
                   (Finalizers drive))).
Proof.
  unfold Repair.hasUnexpectedFinalizers.
  destruct (DriveInterface_Get driveName w) as [[err|drive] w1]; [done|].
  pose proof (hasUnexpectedLoop_verdict (Name drive) (Finalizers drive) w1)
    as Hloop.
  destruct (hasUnexpectedLoop (Name drive) (Finalizers drive) w1)
    as [[[unexpected err] w2] t].
  destruct Hloop as [Herr Hclean]. split; [done|].
  intros Hfalse. exists drive, w1. split; [done|]. by rewrite (Hclean Hfalse).
Qed.

(** *** Moving a volume to another drive *)

Local Abbreviation unsetExistingFinalizer :=
  (Repair.unsetExistingFinalizer GroupName StringIn W error
     DriveInterface_Get DriveInterface_Update).
Local Abbreviation fixDriveForVolume :=
  (Repair.fixDriveForVolume GroupName StringIn W error
     DriveInterface_Get DriveInterface_Update).

Lemma unsetExistingFinalizer_loop (finalizers : list string)
    (finalizer : string) : ∀ acc,
  foldl (fun expectedFinalizers f =>
           if negb (String.eqb f finalizer)
           then expectedFinalizers ++ [f] else expectedFinalizers)
        acc finalizers
  = acc ++ filter (λ f, f ≠ finalizer) finalizers.
Proof.
  induction finalizers as [|f finalizers IH]; intros acc; cbn [foldl].
  - by rewrite app_nil_r.
  - rewrite IH. destruct (String.eqb_spec f finalizer) as [->|Hne]; cbn [negb].
    + by rewrite filter_cons_False by (intros H; by apply H).
    + rewrite filter_cons_True by done. by rewrite <-app_assoc.
Qed.

(** X22: [unsetExistingFinalizer] writes nothing when [StringIn] does
    not find the finalizer of the volume on the drive. When it does, the
    drive that is submitted carries the finalizers that [excludeFinalizer]
    leaves, so no copy of that finalizer, and its status and its total,
    free and allocated capacity are as they were: the capacity of the
    volume is not given back to the drive. *)
Theorem unsetExistingFinalizer_keeps_capacity (volumeName driveName : string)
    (w w1 : W) (drive : DirectCSIDrive) :
  DriveInterface_Get driveName w = (inr drive, w1) →
  let finalizer := DirectCSIDriveFinalizerPrefix +:+ volumeName in
  (StringIn (Finalizers drive) finalizer = false →
   unsetExistingFinalizer volumeName driveName w
     = (None, w1, [DriveCall (CallDriveGet driveName)])) ∧
  (StringIn (Finalizers drive) finalizer = true →
   ∃ drive',
     (unsetExistingFinalizer volumeName driveName w).2
       = [DriveCall (CallDriveGet driveName);
          DriveCall (CallDriveUpdate drive')] ∧
     Finalizers drive' = (excludeFinalizer (Finalizers drive) finalizer).1 ∧
     (finalizer ∉ Finalizers drive') ∧
     Name drive' = Name drive ∧ DriveStatus drive' = DriveStatus drive ∧
     TotalCapacity drive' = TotalCapacity drive ∧
     FreeCapacity drive' = FreeCapacity drive ∧
     AllocatedCapacity drive' = AllocatedCapacity drive).
Proof.
  intros HGet finalizer. unfold Repair.unsetExistingFinalizer.
  rewrite HGet. fold finalizer. split; intros HIn; rewrite HIn; [done|].
  destruct (DriveInterface_Update _ w1) as [err w2].
  eexists. split; [reflexivity|]. cbn.
  rewrite unsetExistingFinalizer_loop, excludeFinalizer_filter. cbn.
  repeat split. intros Hin. by apply list_elem_of_filter in Hin as [? _].
Qed.

(** X23: [fixDriveForVolume] always submits the drive, set in use.
    When [StringIn] finds the finalizer of the volume on the drive, the
    capacities and the finalizers are not changed; otherwise the size of
    the volume moves from the free to the allocated capacity and the
    finalizer is added at the end. In both cases the total capacity is
    kept, and so is the sum of the free and the allocated capacity. *)
Theorem fixDriveForVolume_moves_capacity (volumeName driveName : string)
    (size : Z) (w w1 : W) (drive : DirectCSIDrive) :
  DriveInterface_Get driveName w = (inr drive, w1) →
  let finalizer := DirectCSIDriveFinalizerPrefix +:+ volumeName in
  ∃ drive',
    (fixDriveForVolume volumeName driveName size w).2
      = [DriveCall (CallDriveGet driveName);
         DriveCall (CallDriveUpdate drive')] ∧
    Name drive' = Name drive ∧
    DriveStatus drive' = DriveStatusInUse ∧
    TotalCapacity drive' = TotalCapacity drive ∧
    int64 (FreeCapacity drive' + AllocatedCapacity drive')
      = int64 (FreeCapacity drive + AllocatedCapacity drive) ∧
    (StringIn (Finalizers drive) finalizer = true →
     Finalizers drive' = Finalizers drive ∧
     FreeCapacity drive' = FreeCapacity drive ∧
     AllocatedCapacity drive' = AllocatedCapacity drive) ∧
    (StringIn (Finalizers drive) finalizer = false →
     Finalizers drive' = Finalizers drive ++ [finalizer] ∧
     FreeCapacity drive' = int64 (FreeCapacity drive - size) ∧
     AllocatedCapacity drive' = int64 (AllocatedCapacity drive + size)).
Proof.
  intros HGet finalizer. unfold Repair.fixDriveForVolume.
  rewrite HGet. fold finalizer. cbn [Finalizers setDriveStatus].
  destruct (StringIn (Finalizers drive) finalizer); cbn [negb].
  - destruct (DriveInterface_Update _ w1) as [err w2].
    eexists. split; [reflexivity|]. cbn. by repeat split.
  - destruct (DriveInterface_Update _ w1) as [err w2].
    eexists. split; [reflexivity|]. cbn. repeat split; try done.
    rewrite int64_add_l, int64_add_r. f_equal. lia.
Qed.

(** *** The capacity allocated to volumes *)

Local Abbreviation allocatedCapacityLoop :=
  (Repair.allocatedCapacityLoop GroupName W error IsNotFound
     VolumeInterface_Get).
Local Abbreviation getAllocatedCapacityFromVolumes :=
  (Repair.getAllocatedCapacityFromVolumes GroupName W error IsNotFound
     VolumeInterface_Get).

Local Abbreviation capacityOfFinalizer :=
  (Repair.capacityOfFinalizer GroupName W error VolumeInterface_Get).

Lemma int64_idemp (x : Z) : int64 (int64 x) = int64 x.
Proof. pose proof (int64_add_l x 0) as H. by rewrite !Z.add_0_r in H. Qed.

Lemma allocatedCapacityLoop_sum (finalizers : list string) :
  (∀ name w, (VolumeInterface_Get name w).2 = w) →
  ∀ total w,
    int64 total = total →
    let '(sum, err, w', t) := allocatedCapacityLoop finalizers total w in
    w' = w ∧
    (∀ ev, ev ∈ t → ∃ name, ev = CallVolumeGet name) ∧
    (err = None →
     sum = int64 (total
                  + foldr Z.add 0 (capacityOfFinalizer w <$> finalizers))) ∧
    (is_Some err ↔
     ∃ f e, f ∈ finalizers ∧
       HasPrefix f DirectCSIDriveFinalizerPrefix = true ∧
       (VolumeInterface_Get
          (TrimPrefix f DirectCSIDriveFinalizerPrefix) w).1 = inl e ∧
       IsNotFound e = false).
Proof.
  intros Hro.
  induction finalizers as [|f finalizers IH]; intros total w Htotal.
  - cbn. split; [done|]. split; [by intros ? ?%not_elem_of_nil|].
    split; [by rewrite Z.add_0_r|]. split; [by intros [? [=]]|].
    by intros (? & ? & ?%not_elem_of_nil & _).
  - cbn [Repair.allocatedCapacityLoop fmap list_fmap foldr].
    unfold Repair.capacityOfFinalizer at 1.
    destruct (HasPrefix f DirectCSIDriveFinalizerPrefix) eqn:Hp; cbn [negb].
    2:{ specialize (IH total w Htotal).
        destruct (allocatedCapacityLoop finalizers total w)
          as [[[sum err] w'] t].
        destruct IH as (Hw & Ht & Hsum & Herr).
        split; [done|]. split; [done|]. split; [done|].
        rewrite Herr. split.
        - intros (g & e & Hg & ?). exists g, e.
          split; [by apply list_elem_of_further|done].
        - intros (g & e & [->|Hg]%elem_of_cons & Hg' & ?); [congruence|].
          by exists g, e. }
    pose proof (Hro (TrimPrefix f DirectCSIDriveFinalizerPrefix) w) as Hw1.
    destruct (VolumeInterface_Get _ w) as [[err|volume] w1] eqn:HGet;
      cbn in Hw1; subst w1; cbn [fst].
    + destruct (IsNotFound err) eqn:Hnf; cbn [negb].
      * specialize (IH total w Htotal).
        destruct (allocatedCapacityLoop finalizers total w)
          as [[[sum err'] w'] t].
        destruct IH as (Hw & Ht & Hsum & Herr).
        split; [done|]. split.
        { intros ev [->|Hin]%elem_of_cons; [by eexists|by apply Ht]. }
        split; [done|].
        rewrite Herr. split.
        -- intros (g & e & Hg & ?). exists g, e.
           split; [by apply list_elem_of_further|done].
        -- intros (g & e & [->|Hg]%elem_of_cons & Hg' & HG & He).
           ++ rewrite HGet in HG. cbn in HG. congruence.
           ++ by exists g, e.
      * split; [done|]. split.
        { intros ev ->%list_elem_of_singleton. by eexists. }
        split; [done|]. split; [|done]. intros _. exists f, err.
        split; [apply list_elem_of_here|]. split; [done|].
        by rewrite HGet.
    + specialize (IH (int64 (total + Volume_TotalCapacity volume)) w
                    (int64_idemp _)).
      destruct (allocatedCapacityLoop finalizers _ w) as [[[sum err'] w'] t].
      destruct IH as (Hw & Ht & Hsum & Herr).
      split; [done|]. split.
      { intros ev [->|Hin]%elem_of_cons; [by eexists|by apply Ht]. }
      split.
      { intros Hnone. rewrite (Hsum Hnone), int64_add_l. f_equal. lia. }
      rewrite Herr. split.
      * intros (g & e & Hg & ?). exists g, e.
        split; [by apply list_elem_of_further|done].
      * intros (g & e & [->|Hg]%elem_of_cons & Hg' & HG & He).
        -- rewrite HGet in HG. done.
        -- by exists g, e.
Qed.

(** X24: on a cluster whose lookups do not change it,
    [getAllocatedCapacityFromVolumes] only looks up volumes; it fails
    exactly when the lookup of a volume that a finalizer of the drive
    names fails with an error other than not-found; and when it does not
    fail it returns the sum, as an [int64], of the capacities of the
    volumes that the finalizers name, a volume that is not found counting
    for nothing and a volume that is named twice counting twice. *)
Theorem getAllocatedCapacityFromVolumes_sum (drive : DirectCSIDrive) (w : W) :
  (∀ name w, (VolumeInterface_Get name w).2 = w) →
  let '(sum, err, w', t) := getAllocatedCapacityFromVolumes drive w in
  w' = w ∧
  (∀ ev, ev ∈ t → ∃ name, ev = CallVolumeGet name) ∧
  (err = None →
   sum = int64 (foldr Z.add 0 (capacityOfFinalizer w <$> Finalizers drive))) ∧
  (is_Some err ↔
   ∃ f e, f ∈ Finalizers drive ∧
     HasPrefix f DirectCSIDriveFinalizerPrefix = true ∧
     (VolumeInterface_Get
        (TrimPrefix f DirectCSIDriveFinalizerPrefix) w).1 = inl e ∧
     IsNotFound e = false).
Proof.
  intros Hro. unfold Repair.getAllocatedCapacityFromVolumes.
  exact (allocatedCapacityLoop_sum (Finalizers drive) Hro 0 w eq_refl).
Qed.

End RepairRunFacts.

(** *** The theorems on the sample cluster *)

Lemma sampleVolumeGet_read_only (name : string) (w : sampleWorld) :
  (sampleVolumeGet name w).2 = w.
Proof. unfold sampleVolumeGet. by destruct (sampleVolumes w !! name). Qed.

Lemma dummyReleaseVolume_accounting_witness :
  ∃ drive',
    (Ledger.dummyReleaseVolume sampleGroup sampleWorld string sampleDriveGet
       sampleDriveUpdate "drive-1" "vol-1" 400 sampleCluster).2
      = [CallDriveGet "drive-1"; CallDriveUpdate drive'] ∧
    FreeCapacity drive' = 1000 ∧ AllocatedCapacity drive' = 0.
Proof.
  destruct (dummyReleaseVolume_accounting sampleGroup sampleWorld string
              sampleDriveGet sampleDriveUpdate "drive-1" "vol-1" 400
              sampleCluster sampleCluster Ledger.sampleDrive eq_refl)
    as [_ Hin].
  destruct Hin as (drive' & Ht & _ & _ & _ & _ & Hexact).
  { apply (bool_decide_unpack _). vm_compute. exact I. }
  destruct Hexact as (Hfree & Hallocated & _);
    [vm_compute; discriminate|vm_compute; discriminate
    |split; vm_compute; [discriminate|reflexivity]|].
  exists drive'. split; [exact Ht|]. split; [exact Hfree|exact Hallocated].
Defined.

Lemma dummyDelete_waits_for_release_witness :
  let v := mkVolume "vol-1" [] "" 0 in
  ∃ t',
    (Repair.dummyDelete sampleGroup samplePurgeProtection sampleWorld string
       (λ msg, msg) sampleDriveGet sampleDriveUpdate sampleVolumeGet
       sampleVolumeUpdate v sampleCluster).2
    = CallVolumeGet "vol-1" :: DriveCall (CallDriveGet "drive-1") :: t'.
Proof.
  intros v.
  pose proof (dummyDelete_waits_for_release sampleGroup samplePurgeProtection
                sampleWorld string (λ msg, msg) sampleDriveGet
                sampleDriveUpdate sampleVolumeGet sampleVolumeUpdate v
                (mkVolume "vol-1" [samplePurgeProtection] "drive-1" 400)
                sampleCluster sampleCluster eq_refl) as H.
  destruct (Repair.dummyDelete _ _ _ _ _ _ _ _ _ v sampleCluster)
    as [[err w'] t].
  destruct H as [_ H]. apply H.
  intros f Hf. apply list_elem_of_singleton in Hf. exact Hf.
Defined.

Lemma validFinalizers_agree_with_check_witness :
  (Repair.validFinalizersLoop sampleGroup sampleWorld string sampleIsNotFound
     sampleVolumeGet "drive-1" (Finalizers Ledger.sampleDrive) []
     sampleCluster).1.1
  = inr (Finalizers Ledger.sampleDrive).
Proof.
  destruct (validFinalizers_agree_with_check sampleGroup sampleWorld string
              sampleIsNotFound sampleVolumeGet "drive-1"
              (Finalizers Ledger.sampleDrive) sampleCluster) as [_ H].
  destruct (H sampleVolumeGet_read_only) as [Hall _].
  by rewrite (Hall sampleCluster [CallVolumeGet "vol-1"] eq_refl).
Defined.

Lemma unsetExistingFinalizer_keeps_capacity_witness :
  ∃ drive',
    (Repair.unsetExistingFinalizer sampleGroup sampleStringIn sampleWorld
       string sampleDriveGet sampleDriveUpdate "vol-1" "drive-1"
       sampleCluster).2
      = [DriveCall (CallDriveGet "drive-1");
         DriveCall (CallDriveUpdate drive')] ∧
    Finalizers drive' = ["directpv.min.io/data-protection"%string] ∧
    FreeCapacity drive' = 600 ∧ AllocatedCapacity drive' = 400.
Proof.
  destruct (unsetExistingFinalizer_keeps_capacity sampleGroup sampleStringIn
              sampleWorld string sampleDriveGet sampleDriveUpdate
              "vol-1" "drive-1" sampleCluster sampleCluster
              Ledger.sampleDrive eq_refl) as [_ Hin].
  destruct Hin as (drive' & Ht & Hf & _ & _ & _ & _ & Hfree & Hallocated);
    [reflexivity|].
  exists drive'. split; [exact Ht|]. split; [exact Hf|].
  split; [exact Hfree|exact Hallocated].
Defined.

Lemma fixDriveForVolume_moves_capacity_witness :
  ∃ drive',
    (Repair.fixDriveForVolume sampleGroup sampleStringIn sampleWorld string
       sampleDriveGet sampleDriveUpdate "vol-2" "drive-1" 100
       sampleCluster).2
      = [DriveCall (CallDriveGet "drive-1");
         DriveCall (CallDriveUpdate drive')] ∧
    DriveStatus drive' = DriveStatusInUse ∧
    FreeCapacity drive' = 500 ∧ AllocatedCapacity drive' = 500.
Proof.
  destruct (fixDriveForVolume_moves_capacity sampleGroup sampleStringIn
              sampleWorld string sampleDriveGet sampleDriveUpdate
              "vol-2" "drive-1" 100 sampleCluster sampleCluster
              Ledger.sampleDrive eq_refl)
    as (drive' & Ht & _ & Hstatus & _ & _ & _ & Hout).
  destruct Hout as (_ & Hfree & Hallocated); [reflexivity|].
  exists drive'. split; [exact Ht|]. split; [exact Hstatus|].
  split; [exact Hfree|exact Hallocated].
Defined.

Lemma getAllocatedCapacityFromVolumes_sum_witness :
  let '(sum, err, w', t) :=
    Repair.getAllocatedCapacityFromVolumes sampleGroup sampleWorld string
      sampleIsNotFound sampleVolumeGet Ledger.sampleDrive sampleCluster in
  w' = sampleCluster ∧
  (∀ ev, ev ∈ t → ∃ name, ev = CallVolumeGet name) ∧
  (err = None →
   sum = int64 (foldr Z.add 0
                  (Repair.capacityOfFinalizer sampleGroup sampleWorld string
                     sampleVolumeGet sampleCluster
                     <$> Finalizers Ledger.sampleDrive))) ∧
  (is_Some err ↔
   ∃ f e, f ∈ Finalizers Ledger.sampleDrive ∧
     HasPrefix f (Ledger.DirectCSIDriveFinalizerPrefix sampleGroup) = true ∧
     (sampleVolumeGet
        (TrimPrefix f (Ledger.DirectCSIDriveFinalizerPrefix sampleGroup))
        sampleCluster).1 = inl e ∧
     sampleIsNotFound e = false).
Proof.
  apply (getAllocatedCapacityFromVolumes_sum sampleGroup sampleWorld string
           sampleIsNotFound sampleVolumeGet Ledger.sampleDrive sampleCluster).
  exact sampleVolumeGet_read_only.
Defined.

End RepairFacts.

(** ** The init command *)

Module InitCommandFacts.
Import Go InitRequest InitCommand.

Lemma toInitDevices_fmap (drives : list DriveInfo) : ∀ acc,
  foldl (fun initDevices device => initDevices ++ [toInitDevice device])
        acc drives
  = acc ++ (toInitDevice <$> drives).
Proof.
  induction drives as [|d drives IH]; intros acc; cbn.
  - by rewrite app_nil_r.
  - by rewrite IH, <-app_assoc.
Qed.

(** The entry of [node] after the outer loop has run over [nodes]. *)
Lemma toInitRequest_loop (nodes : list NodeInfo) :
  ∀ (request : gmap string (list InitDevice)) node,
    foldl (fun request node =>
             let initDevices :=
               foldl (fun initDevices device =>
                        initDevices ++ [toInitDevice device])
                     [] (NodeInfo_Drives node) in
             if (0 <? length initDevices)%nat
             then <[NodeInfo_Name node := initDevices]> request
             else request)
          request nodes !! node
    = match
        list_find (λ info, NodeInfo_Name info = node ∧
                           NodeInfo_Drives info ≠ []) (reverse nodes)
      with
      | Some (_, info) => Some (toInitDevice <$> NodeInfo_Drives info)
      | None => request !! node
      end.
Proof.
  induction nodes as [|info nodes IH]; intros request node; [done|].
  cbn [foldl]. rewrite IH, reverse_cons, toInitDevices_fmap, app_nil_l.
  destruct (list_find _ (reverse nodes)) as [[i found]|] eqn:Hfind.
  - erewrite list_find_app_l; [done|exact Hfind].
  - rewrite list_find_app_r by done. cbn.
    destruct (NodeInfo_Drives info) as [|d drives] eqn:Hdrives; cbn.
    + rewrite decide_False by (by intros [_ ?]). done.
    + destruct (decide (NodeInfo_Name info = node)) as [<-|Hne].
      * rewrite decide_True by done. cbn. by rewrite lookup_insert_eq, Hdrives.
      * rewrite decide_False by (by intros [? _]). cbn.
        by rewrite lookup_insert_ne.
Qed.

(** X25: the request that [toInitRequest] builds. Its response map is
    not set. It names exactly the nodes of the configuration that list at
    least one drive; for such a node it carries the drives of the last
    entry of that node that lists any, in their order, each with its
    name, major:minor and fingerprint, and marked to be forced exactly
    when the configuration records a file system on it. No node is named
    with an empty device list. *)
Theorem toInitRequest_request {W} (uuid_NewString : W → string * W)
    (config : InitConfig) (w : W) :
  let request := (toInitRequest uuid_NewString config w).1 in
  Spec_Response request = None ∧
  InitRequest_Name request = (uuid_NewString w).1 ∧
  (∀ node,
     Status_Request request !! node =
     match
       list_find (λ info, NodeInfo_Name info = node ∧
                          NodeInfo_Drives info ≠ []) (reverse (Nodes config))
     with
     | Some (_, info) => Some (toInitDevice <$> NodeInfo_Drives info)
     | None => None
     end) ∧
  (∀ node devices,
     Status_Request request !! node = Some devices → devices ≠ []) ∧
  (∀ device, InitDevice_Force (toInitDevice device) = true ↔
             DriveInfo_FS device ≠ ""%string).
Proof.
  intros request. unfold request, toInitRequest.
  destruct (uuid_NewString w) as [name w1]. cbn [fst Spec_Response
    InitRequest_Name Status_Request].
  split; [done|]. split; [done|].
  assert (Hentry : ∀ node,
    foldl (fun request node =>
             let initDevices :=
               foldl (fun initDevices device =>
                        initDevices ++ [toInitDevice device])
                     [] (NodeInfo_Drives node) in
             if (0 <? length initDevices)%nat
             then <[NodeInfo_Name node := initDevices]> request
             else request)
          (∅ : gmap string (list InitDevice)) (Nodes config) !! node =
    match
      list_find (λ info, NodeInfo_Name info = node ∧
                         NodeInfo_Drives info ≠ []) (reverse (Nodes config))
    with
    | Some (_, info) => Some (toInitDevice <$> NodeInfo_Drives info)
    | None => None
    end).
  { intros node. rewrite toInitRequest_loop.
    by destruct (list_find _ _) as [[i info]|]. }
  split; [exact Hentry|]. split.
  - intros node devices. rewrite Hentry.
    destruct (list_find _ _) as [[i info]|] eqn:Hfind; [|done].
    apply list_find_Some in Hfind as (_ & [_ Hdrives] & _).
    intros [= <-]. by destruct (NodeInfo_Drives info).
  - intros device. cbn. rewrite negb_true_iff.
    by destruct (String.eqb_spec (DriveInfo_FS device) "").
Qed.

(** *** The request at the node *)

Section FreshRequest.

Context {W' : Type}.
Variable uuid_NewString : W' → string * W'.
Variable W : Type.
Variable Sum256 : list byte → list byte.
Variable EncodeToString : list byte → string.
Variable AddDevPrefix : string → string.
Variable uuid_New : W → string * W.
Variable DriveClient_Create : Drive → W → option error * W.
Variable InitRequestClient_Get : string → W → (error + InitRequestT) * W.
Variable InitRequestClient_Update : InitRequestT → W → option error * W.

Local Abbreviation initDevices :=
  (InitRequest.initDevices Sum256 EncodeToString AddDevPrefix uuid_New
     DriveClient_Create).
Local Abbreviation Handle :=
  (InitRequest.Handle Sum256 EncodeToString AddDevPrefix uuid_New
     DriveClient_Create InitRequestClient_Get InitRequestClient_Update).

(** X26: the request of [toInitRequest] at the handler of a node that it
    names. The handler goes to work on the devices; when the cluster then
    hands the request back as it was built, with the response map not
    set, the assignment of the result into that map panics: nothing is
    recorded, after the devices have been worked on. *)
Theorem Handle_panics_on_fresh_request
    (handler : initRequestEventHandler W) (config : InitConfig) (w' : W')
    (devices : list InitDevice) (s : state W) :
  let request := (toInitRequest uuid_NewString config w').1 in
  Status_Request request !! nodeID handler = Some devices →
  let '(_, s0, t0) := initDevices handler devices s in
  ∀ w1,
    InitRequestClient_Get (InitRequest_Name request) (world s0)
      = (inr request, w1) →
    Handle handler (mkEventArgs AddEvent request) s
      = (Panic NilMapAssignment, mkState w1 (arrays s0),
         t0 ++ [CallInitRequestGet (InitRequest_Name request)]).
Proof.
  intros request Hreq.
  assert (Hnil : Spec_Response request = None).
  { unfold request, toInitRequest. by destruct (uuid_NewString w'). }
  rewrite (InitRequestRunFacts.Handle_proceeds W Sum256 EncodeToString
             AddDevPrefix uuid_New DriveClient_Create InitRequestClient_Get
             InitRequestClient_Update handler (mkEventArgs AddEvent request)
             devices s); [|done|by cbn; rewrite Hnil|done].
  destruct (initDevices handler devices s) as [[r0 s0] t0].
  cbv beta iota zeta. intros w1 HGet.
  unfold DefaultRetry_Steps. cbn [RetryOnConflict].
  unfold InitRequest.Handle_update.
  unfold mbind, mret, prog_bind, prog_ret, bind, ret, call.
  cbn [Object InitRequest_Name]. rewrite HGet. cbn. rewrite Hnil. done.
Qed.

End FreshRequest.

Lemma Handle_panics_on_fresh_request_witness :
  let newName := fun w : unit => ("request-1"%string, w) in
  let request := (toInitRequest newName sampleConfig tt).1 in
  let get := fun (name : string) (w : sampleWorld) =>
    (inr request : error + InitRequestT, w) in
  let update := fun (request : InitRequestT) (w : sampleWorld) =>
    (None : option error, w) in
  (InitRequest.Handle sampleSum256 sampleEncode sampleAddDevPrefix
     sampleUUID (sampleCreate None) get update (sampleHandler None None)
     (mkEventArgs AddEvent request) sampleState).1.1
  = Panic NilMapAssignment.
Proof.
  intros newName request get update.
  pose proof (Handle_panics_on_fresh_request newName sampleWorld sampleSum256
                sampleEncode sampleAddDevPrefix sampleUUID (sampleCreate None)
                get update (sampleHandler None None) sampleConfig tt
                (fmap (M:=list) toInitDevice
                   [ mkDriveInfo "8:16$id" "sdb" "8:16" "";
                     mkDriveInfo "8:32$id" "sdc" "8:32" "ext4" ])
                sampleState eq_refl) as H.
  destruct (InitRequest.initDevices _ _ _ _ _ _ _ sampleState)
    as [[r0 s0] t0].
  exact (f_equal (λ x, x.1.1) (H (world s0) eq_refl)).
Defined.

End InitCommandFacts.

(** ** Device events of the listener *)

Module UeventListenerFacts.
Import Go Uevent UeventListener.

Section ParseUEventFacts.

Variable libudev : list byte.
Variable libudevMagic : Z.
Variable Add Change Remove : string.
Variable AtoiError : Type.
Variable Atoi : string → AtoiError + Z.
Variable Base : string → string.
Variable UdevData UdevDataError : Type.
Variable MapToUdevData : gmap string string → UdevDataError + UdevData.
Variable W Time : Type.
Variable time_Now_UTC : W → Time * W.

Local Abbreviation parse := (Uevent.parse libudev libudevMagic).
Local Abbreviation parseUEvent :=
  (UeventListener.parseUEvent libudev libudevMagic Add Change Remove
     AtoiError Atoi Base UdevData UdevDataError MapToUdevData W Time
     time_Now_UTC).

(** X27: what [parseUEvent] lets through. It returns an event only for
    a message that [parse] decodes, whose subsystem is [block], whose
    action is one of the three known ones, whose device path is not empty
    and whose major and minor numbers are read by [Atoi]; the event
    carries these values, and its path is [/dev/] and the base name of
    the device path. A message of another subsystem is rejected as a
    non-device event whatever else it carries. An error of [parse] is
    returned as it is, and [parseUEvent] panics exactly when [parse]
    does; in all these cases the clock is not read. *)
Theorem parseUEvent_accepts (buf : list byte) (w : W) :
  (∀ ev w1,
     parseUEvent buf w = (Value ev, w1) →
     ∃ eventMap path,
       parse buf = Value eventMap ∧
       eventMap !! "SUBSYSTEM"%string = Some "block"%string ∧
       valueOf eventMap "ACTION" = action ev ∧
       (action ev = Add ∨ action ev = Change ∨ action ev = Remove) ∧
       eventMap !! "DEVPATH"%string = Some path ∧ path ≠ ""%string ∧
       devPath ev = ("/dev/" +:+ Base path)%string ∧
       Atoi (valueOf eventMap "MAJOR") = inr (major ev) ∧
       Atoi (valueOf eventMap "MINOR") = inr (minor ev) ∧
       MapToUdevData eventMap = inr (udevData ev) ∧
       time_Now_UTC w = (created ev, w1)) ∧
  (∀ eventMap,
     parse buf = Value eventMap →
     valueOf eventMap "SUBSYSTEM" ≠ "block"%string →
     parseUEvent buf w = (Error ErrNonDeviceEvent, w)) ∧
  (∀ err, parse buf = Error err →
          parseUEvent buf w = (Error (ParseError err), w)) ∧
  (panics (parseUEvent buf w).1 ↔ panics (parse buf)) ∧
  (∀ p, parse buf = Panic p → parseUEvent buf w = (Panic p, w)).
Proof.
  unfold UeventListener.parseUEvent.
  destruct (parse buf) as [eventMap|err|p] eqn:Hparse.
  2:{ split; [done|]. split; [done|]. split; [by intros ? [= ->]|].
      split; [done|]. done. }
  2:{ split; [done|]. split; [done|]. split; [done|].
      split; [done|]. by intros ? [= ->]. }
  split; [|split; [|split; [done|split; [|done]]]].
  - intros ev w1.
    destruct (String.eqb_spec (valueOf eventMap "SUBSYSTEM") "block")
      as [Hsub|Hsub]; cbn [negb]; [|done].
    destruct (String.eqb (valueOf eventMap "ACTION") Add
              || String.eqb (valueOf eventMap "ACTION") Change
              || String.eqb (valueOf eventMap "ACTION") Remove) eqn:Haction;
      cbn [negb]; [|done].
    destruct (String.eqb_spec (valueOf eventMap "DEVPATH") "")
      as [Hpath|Hpath]; [done|].
    destruct (Atoi (valueOf eventMap "MAJOR")) as [e|major] eqn:Hmajor;
      [done|].
    destruct (Atoi (valueOf eventMap "MINOR")) as [e|minor] eqn:Hminor;
      [done|].
    destruct (MapToUdevData eventMap) as [e|data] eqn:Hdata; [done|].
    destruct (time_Now_UTC w) as [now w2] eqn:Hnow.
    intros [= <- <-]. cbn.
    unfold valueOf in Hsub, Hpath.
    destruct (eventMap !! "SUBSYSTEM"%string) as [subsystem|] eqn:Hs;
      cbn in Hsub; [subst subsystem|done].
    destruct (eventMap !! "DEVPATH"%string) as [path|] eqn:Hp;
      cbn in Hpath; [|done].
    exists eventMap, path. split; [done|]. split; [done|]. split; [done|].
    split.
    { apply orb_true_iff in Haction as [Haction|Haction];
        [apply orb_true_iff in Haction as [Haction|Haction]|];
        apply String.eqb_eq in Haction; tauto. }
    split; [done|]. split; [done|].
    split; [unfold valueOf; by rewrite Hp|]. done.
  - intros ? [= <-] Hsub.
    by destruct (String.eqb_spec (valueOf eventMap "SUBSYSTEM") "block").
  - destruct (negb _); [done|]. destruct (negb _); [done|].
    destruct (String.eqb _ _); [done|].
    destruct (Atoi _); [done|]. destruct (Atoi _); [done|].
    destruct (MapToUdevData _); [done|]. by destruct (time_Now_UTC w).
Qed.

End ParseUEventFacts.

End UeventListenerFacts.

(** ** Listing initialization requests *)

Module ListerFacts.
Import InitRequest Lister.

Lemma matchName_foldl (names : list string) (itemName : string) :
  ∀ found values,
    foldl (fun '(found, values) name =>
             if String.eqb name itemName then (true, values)
             else (found, values ++ [name]))
          (found, values) names
    = (found || bool_decide (itemName ∈ names),
       values ++ filter (λ name, name ≠ itemName) names).
Proof.
  induction names as [|name names IH]; intros found values; cbn [foldl].
  - by rewrite orb_false_r, app_nil_r.
  - destruct (String.eqb_spec name itemName) as [->|Hne]; rewrite IH.
    + rewrite filter_cons_False by (intros H; by apply H).
      rewrite (bool_decide_eq_true_2 (itemName ∈ itemName :: names))
        by apply list_elem_of_here.
      by rewrite orb_true_r.
    + rewrite filter_cons_True by done. rewrite <-app_assoc. f_equal.
      f_equal. apply bool_decide_ext. rewrite elem_of_cons.
      split; [by right|]. intros [Heq|Hin]; [congruence|done].
Qed.

Lemma matchName_filter (names : list string) (itemName : string) :
  matchName names itemName
  = (bool_decide (itemName ∈ names),
     filter (λ name, name ≠ itemName) names).
Proof. unfold matchName. by rewrite matchName_foldl. Qed.

Section ListFacts.

Context {W : Type}.
Variable send : InitRequestT → W → bool * W.
Hypothesis send_taken : ∀ item w, (send item w).1 = true.

Lemma itemsLoop_cons (names : list string) (item : InitRequestT)
    (rest : list InitRequestT) (w : W) :
  let kept := filter (λ name, name ≠ InitRequest_Name item) names in
  itemsLoop send names (item :: rest) w =
  if bool_decide (kept = [] ∨ InitRequest_Name item ∈ names) then
    let '(goOn, names', w2, taken) :=
      itemsLoop send kept rest (send item w).2 in
    (goOn, names', w2, item :: taken)
  else itemsLoop send kept rest w.
Proof.
  intros kept. cbn [itemsLoop]. rewrite matchName_filter. fold kept.
  destruct (length kept =? 0)%nat eqn:Hlen.
  - apply Nat.eqb_eq, length_zero_iff_nil in Hlen.
    rewrite (bool_decide_eq_true_2 (kept = [] ∨ _)) by (by left). cbn [orb].
    pose proof (send_taken item w) as Hs.
    destruct (send item w) as [ok w1]. cbn in Hs. by subst ok.
  - apply Nat.eqb_neq in Hlen. cbn [orb].
    destruct (bool_decide (InitRequest_Name item ∈ names)) eqn:Hin.
    + apply bool_decide_eq_true in Hin.
      rewrite (bool_decide_eq_true_2 (kept = [] ∨ _)) by (by right).
      pose proof (send_taken item w) as Hs.
      destruct (send item w) as [ok w1]. cbn in Hs. by subst ok.
    + apply bool_decide_eq_false in Hin.
      rewrite (bool_decide_eq_false_2 (kept = [] ∨ _)); [done|].
      intros [Hnil|?]; [|done]. by rewrite Hnil in Hlen.
Qed.

Lemma itemsLoop_names (items : list InitRequestT) :
  ∀ names w,
    (itemsLoop send names items w).1.1.1 = true ∧
    (itemsLoop send names items w).1.1.2
      = filter (λ name, name ∉ InitRequest_Name <$> items) names.
Proof.
  induction items as [|item items IH]; intros names w.
  - cbn. split; [done|]. induction names as [|n names IHn]; [done|].
    rewrite filter_cons_True by apply not_elem_of_nil. by f_equal.
  - rewrite itemsLoop_cons.
    assert (Hfilter :
      filter (λ name, name ∉ InitRequest_Name <$> items)
        (filter (λ name, name ≠ InitRequest_Name item) names)
      = filter (λ name, name ∉ InitRequest_Name <$> item :: items) names).
    { rewrite list_filter_filter. apply list_filter_iff. intros name.
      rewrite fmap_cons, not_elem_of_cons. tauto. }
    destruct (bool_decide _).
    + specialize (IH (filter (λ name, name ≠ InitRequest_Name item) names)
                    (send item w).2).
      destruct (itemsLoop send _ items _) as [[[goOn names'] w2] taken].
      cbn in *. by rewrite <-Hfilter.
    + rewrite <-Hfilter. apply IH.
Qed.

Lemma itemsLoop_all (items : list InitRequestT) :
  ∀ w, (itemsLoop send [] items w).2 = items.
Proof.
  induction items as [|item items IH]; intros w; [done|].
  rewrite itemsLoop_cons. cbn [filter list_filter].
  rewrite bool_decide_eq_true_2 by (by left).
  specialize (IH (send item w).2).
  destruct (itemsLoop send [] items _) as [[[goOn names'] w2] taken].
  cbn in *. by rewrite IH.
Qed.

Lemma itemsLoop_app (pre post : list InitRequestT) :
  ∀ names w,
    (itemsLoop send names (pre ++ post) w).2 =
    (itemsLoop send names pre w).2
    ++ (itemsLoop send (itemsLoop send names pre w).1.1.2 post
          (itemsLoop send names pre w).1.2).2.
Proof.
  induction pre as [|item pre IH]; intros names w; [done|].
  rewrite <-app_comm_cons, !itemsLoop_cons.
  destruct (bool_decide _).
  - specialize (IH (filter (λ name, name ≠ InitRequest_Name item) names)
                  (send item w).2).
    destruct (itemsLoop send _ (pre ++ post) _)
      as [[[goOn names'] w2] taken].
    destruct (itemsLoop send _ pre _) as [[[goOn1 names1] w1] taken1].
    cbn in *. by rewrite IH.
  - apply IH.
Qed.

Lemma filter_nil_iff (P : string → Prop) `{!∀ x, Decision (P x)}
    (l : list string) :
  filter P l = [] ↔ ∀ x, x ∈ l → ¬ P x.
Proof.
  split.
  - intros Hnil x Hx HP. by eapply filter_nil_not_elem_of.
  - induction l as [|y l IH]; intros Hall; [done|].
    rewrite filter_cons_False by (apply Hall, list_elem_of_here).
    apply IH. intros x Hx. apply Hall. by apply list_elem_of_further.
Qed.

(** The test that decides whether the item after [pre] is handed on. *)
Lemma itemsLoop_snoc (names : list string) (pre : list InitRequestT)
    (item : InitRequestT) (w : W) :
  let held := filter (λ name, name ∉ InitRequest_Name <$> pre) names in
  (itemsLoop send names (pre ++ [item]) w).2 =
  (itemsLoop send names pre w).2
  ++ (if bool_decide
           (filter (λ name, name ≠ InitRequest_Name item) held = []
            ∨ InitRequest_Name item ∈ held)
      then [item] else []).
Proof.
  intros held. rewrite itemsLoop_app. f_equal.
  destruct (itemsLoop_names pre names w) as [_ Hnames].
  rewrite Hnames. fold held. rewrite itemsLoop_cons.
  by destruct (bool_decide _).
Qed.

(** X28: the items of a page that [List] hands on, for a consumer that
    takes every item. The names that the lister holds after the items
    [pre] are the asked names that none of these items carries. With no
    names asked for, every item is handed on. With names asked for, the
    next item is handed on when its name is asked for and was not met
    before; but it is handed on as well, asked for or not, once every
    asked name has been met, and so is every item after that. In no
    other case is an item handed on. *)
Theorem itemsLoop_hands_on (names : list string) (pre : list InitRequestT)
    (item : InitRequestT) (post : list InitRequestT) (w : W) :
  let taken := λ items, (itemsLoop send names items w).2 in
  let asked :=
    InitRequest_Name item ∈ names ∧
    InitRequest_Name item ∉ InitRequest_Name <$> pre in
  let met :=
    ∀ name, name ∈ names → name ∈ InitRequest_Name <$> pre ++ [item] in
  (itemsLoop send names pre w).1.1.2
    = filter (λ name, name ∉ InitRequest_Name <$> pre) names ∧
  (names = [] → taken pre = pre) ∧
  (asked ∨ met → taken (pre ++ [item]) = taken pre ++ [item]) ∧
  (¬ (asked ∨ met) → taken (pre ++ [item]) = taken pre) ∧
  ((∀ name, name ∈ names → name ∈ InitRequest_Name <$> pre) →
   taken (pre ++ post) = taken pre ++ post).
Proof.
  intros taken asked met.
  set (held := filter (λ name, name ∉ InitRequest_Name <$> pre) names).
  assert (Hasked : InitRequest_Name item ∈ held ↔ asked).
  { unfold held, asked. rewrite list_elem_of_filter. tauto. }
  assert (Hmet :
    filter (λ name, name ≠ InitRequest_Name item) held = [] ↔ met).
  { rewrite filter_nil_iff. unfold held, met. split.
    - intros Hall name Hname. rewrite fmap_app, elem_of_app.
      destruct (decide (name ∈ InitRequest_Name <$> pre)) as [?|Hpre];
        [by left|right].
      destruct (decide (name = InitRequest_Name item)) as [->|Hne];
        [apply list_elem_of_here|].
      exfalso. apply (Hall name); [|done]. by apply list_elem_of_filter.
    - intros Hall name [Hpre Hname]%list_elem_of_filter Hne.
      specialize (Hall name Hname).
      rewrite fmap_app, elem_of_app in Hall.
      destruct Hall as [?|Hin]; [done|].
      by apply list_elem_of_singleton in Hin. }
  split; [apply itemsLoop_names|]. split; [|split; [|split]].
  - intros ->. apply itemsLoop_all.
  - intros Hcond. unfold taken. rewrite itemsLoop_snoc.
    rewrite bool_decide_eq_true_2; [done|]. fold held. tauto.
  - intros Hcond. unfold taken. rewrite itemsLoop_snoc.
    rewrite bool_decide_eq_false_2; [by rewrite app_nil_r|]. fold held. tauto.
  - intros Hall. unfold taken. rewrite itemsLoop_app. f_equal.
    destruct (itemsLoop_names pre names w) as [_ Hnames]. rewrite Hnames.
    replace (filter (λ name, name ∉ InitRequest_Name <$> pre) names)
      with (@nil string); [apply itemsLoop_all|].
    symmetry. apply filter_nil_iff. intros name Hname Hnot.
    by apply Hnot, Hall.
Qed.

End ListFacts.

Lemma itemsLoop_hands_on_witness :
  let names := ["a"]%string in
  let pre := [sampleItem "a"] in
  let item := sampleItem "b" in
  let post := [sampleItem "b"; sampleItem "c"] in
  let taken := λ items, (itemsLoop sampleSend names items 0%nat).2 in
  let asked :=
    InitRequest_Name item ∈ names ∧
    InitRequest_Name item ∉ InitRequest_Name <$> pre in
  let met :=
    ∀ name, name ∈ names → name ∈ InitRequest_Name <$> pre ++ [item] in
  (itemsLoop sampleSend names pre 0%nat).1.1.2
    = filter (λ name, name ∉ InitRequest_Name <$> pre) names ∧
  (names = [] → taken pre = pre) ∧
  (asked ∨ met → taken (pre ++ [item]) = taken pre ++ [item]) ∧
  (¬ (asked ∨ met) → taken (pre ++ [item]) = taken pre) ∧
  ((∀ name, name ∈ names → name ∈ InitRequest_Name <$> pre) →
   taken (pre ++ post) = taken pre ++ post).
Proof.
  intros names pre item post.
  apply (itemsLoop_hands_on sampleSend (λ _ _, eq_refl) names pre item post
           0%nat).
Defined.

End ListerFacts.
